(** * AIStreamEye: decode pump, worker pool, GOP segmentation, duplicate
    detection and sliding-window stream analysis.

    A shallow embedding of the C++ sources
    ([video_decoder.cpp], [stream_decoder.cpp], [thread_pool.cpp],
    [gop_analyzer.cpp], [video_analyzer.cpp], [stream_analyzer.cpp],
    [frame_statistics.cpp], [scene_detector.cpp], [data_models.cpp]) and
    the properties stated about them.

    Conventions.
    - [int] and [int64_t] values are integers of [Z]; every conversion and
      every arithmetic step that can leave the range is written with its
      two's-complement wrap-around ([CInt.int], [CInt.int64_t]).
    - [float] and [double] are IEEE-754 binary32 and binary64 values of
      [spec_float], computed with the Standard Library's executable
      round-to-nearest-even operations.
    - [std::vector] and [std::deque] are lists; [v[i]] is list lookup and
      [v[i] = x] is list insert.
    - code that throws returns an [outcome]. *)

From Stdlib Require Import ZArith NArith Lia Bool Permutation.
From Stdlib Require Import Floats.SpecFloat.
From stdpp Require Import base list strings pretty.

Local Open Scope Z_scope.

(** ** Machine integers *)

Module CInt.

(** Two's-complement reduction of [z] to a signed [w]-bit integer. *)
Definition wrap_signed (w : Z) (z : Z) : Z :=
  (z + 2 ^ (w - 1)) mod 2 ^ w - 2 ^ (w - 1).

Definition int (z : Z) : Z := wrap_signed 32 z.
Definition int64_t (z : Z) : Z := wrap_signed 64 z.

Definition INT_MIN : Z := - 2 ^ 31.
Definition INT_MAX : Z := 2 ^ 31 - 1.

Definition in_int (z : Z) : Prop := INT_MIN <= z <= INT_MAX.
Definition in_int64 (z : Z) : Prop := - 2 ^ 63 <= z <= 2 ^ 63 - 1.

(** [x++] on an [int]. *)
Definition incr (z : Z) : Z := int (z + 1).

(** [std::abs] on an [int]. *)
Definition abs (z : Z) : Z := int (Z.abs z).

(** Conversion to [unsigned int]. *)
Definition unsigned_int (z : Z) : Z := z mod 2 ^ 32.

End CInt.

(** ** Floating point *)

(** [float]: IEEE-754 binary32. *)
Module F32.
Definition prec : Z := 24.
Definition emax : Z := 128.
Definition of_int (z : Z) : spec_float := binary_normalize prec emax z 0 false.
Definition mul : spec_float -> spec_float -> spec_float := SFmul prec emax.
Definition div : spec_float -> spec_float -> spec_float := SFdiv prec emax.
Definition leb : spec_float -> spec_float -> bool := SFleb.
End F32.

(** [double]: IEEE-754 binary64. *)
Module F64.
Definition prec : Z := 53.
Definition emax : Z := 1024.
Definition zero : spec_float := S754_zero false.
Definition of_int (z : Z) : spec_float := binary_normalize prec emax z 0 false.
Definition add : spec_float -> spec_float -> spec_float := SFadd prec emax.
Definition sub : spec_float -> spec_float -> spec_float := SFsub prec emax.
Definition mul : spec_float -> spec_float -> spec_float := SFmul prec emax.
Definition div : spec_float -> spec_float -> spec_float := SFdiv prec emax.
(** [a > b] and [a >= b]; both are false as soon as one side is NaN. *)
Definition gtb (a b : spec_float) : bool := SFltb b a.
Definition geb (a b : spec_float) : bool := SFleb b a.
(** The literals [x.5] of the source, [n / 2]. *)
Definition half_of (n : Z) : spec_float := div (of_int n) (of_int 2).
End F64.

(** ** Results of code that may throw *)

Inductive outcome (A : Type) : Type :=
| Returned (a : A)
| Thrown (code : Z) (what : string).
Arguments Returned {A} a.
Arguments Thrown {A} code what.

(** ** data_models.h *)

Inductive FrameType : Set := I_FRAME | P_FRAME | B_FRAME | UNKNOWN.

#[global] Instance FrameType_eq_dec : EqDecision FrameType.
Proof. solve_decision. Defined.

(** data_models.cpp: the names of the frame types in JSON and CSV
    output. *)
Definition frameTypeToString (t : FrameType) : string :=
  match t with
  | I_FRAME => "I"
  | P_FRAME => "P"
  | B_FRAME => "B"
  | UNKNOWN => "UNKNOWN"
  end.

Definition stringToFrameType (str : string) : FrameType :=
  if decide (str = "I") then I_FRAME
  else if decide (str = "P") then P_FRAME
  else if decide (str = "B") then B_FRAME
  else UNKNOWN.

Record FrameInfo : Type := mkFrameInfo {
  pts : Z;               (* int64_t *)
  dts : Z;               (* int64_t *)
  type : FrameType;
  size : Z;              (* int *)
  qp : Z;                (* int *)
  isKeyFrame : bool;
  timestamp : spec_float;  (* double *)
  isDuplicate : bool;
  duplicateGroupId : Z   (* int, -1 when the frame is in no group *)
}.

(** Assignment to the two duplicate fields of a frame. *)
Definition set_isDuplicate (b : bool) (f : FrameInfo) : FrameInfo :=
  mkFrameInfo (pts f) (dts f) (type f) (size f) (qp f) (isKeyFrame f)
              (timestamp f) b (duplicateGroupId f).

Definition set_duplicateGroupId (g : Z) (f : FrameInfo) : FrameInfo :=
  mkFrameInfo (pts f) (dts f) (type f) (size f) (qp f) (isKeyFrame f)
              (timestamp f) (isDuplicate f) g.

Definition set_size (s : Z) (f : FrameInfo) : FrameInfo :=
  mkFrameInfo (pts f) (dts f) (type f) s (qp f) (isKeyFrame f)
              (timestamp f) (isDuplicate f) (duplicateGroupId f).

Record GOPInfo : Type := mkGOPInfo {
  gopIndex : Z;
  startPts : Z;
  endPts : Z;
  frameCount : Z;
  iFrameCount : Z;
  pFrameCount : Z;
  bFrameCount : Z;
  totalSize : Z;         (* int64_t *)
  isOpenGOP : bool
}.

Record BitrateInfo : Type := mkBitrateInfo {
  bi_timestamp : spec_float;
  bi_bitrate : spec_float
}.

Record BitrateStatistics : Type := mkBitrateStatistics {
  averageBitrate : spec_float;
  maxBitrate : spec_float;
  minBitrate : spec_float;
  stdDeviation : spec_float;
  timeSeriesData : list BitrateInfo
}.

Inductive AnomalyType : Set := FRAME_DROP | BITRATE_SPIKE | QUALITY_DROP.

#[global] Instance AnomalyType_eq_dec : EqDecision AnomalyType.
Proof. solve_decision. Defined.

Record Anomaly : Type := mkAnomaly {
  a_type : AnomalyType;
  a_timestamp : spec_float;
  a_description : string
}.

Record BufferStatus : Type := mkBufferStatus {
  bufferedFrames : nat;          (* size_t *)
  bufferedDuration : spec_float;
  isBuffering : bool
}.

(** ** The codec engine at its boundary (libavformat, libavcodec)

    The engine is not part of the repository; the sources only call it.
    What they use of it is collected here: the fields of a decoded frame
    and of a compressed packet, and the three calls
    [av_read_frame], [avcodec_send_packet], [avcodec_receive_frame]. *)

Inductive AVPictureType : Set :=
| AV_PICTURE_TYPE_NONE | AV_PICTURE_TYPE_I | AV_PICTURE_TYPE_P
| AV_PICTURE_TYPE_B | AV_PICTURE_TYPE_S | AV_PICTURE_TYPE_SI
| AV_PICTURE_TYPE_SP | AV_PICTURE_TYPE_BI.

Inductive AVCodecID : Set :=
| AV_CODEC_ID_MPEG2VIDEO | AV_CODEC_ID_MPEG4 | AV_CODEC_ID_H264
| AV_CODEC_ID_HEVC | AV_CODEC_ID_VP8 | AV_CODEC_ID_VP9 | AV_CODEC_ID_AV1.

#[global] Instance AVCodecID_eq_dec : EqDecision AVCodecID.
Proof. solve_decision. Defined.

(** [AV_FRAME_FLAG_KEY] of libavutil/frame.h, bit 1 of [AVFrame::flags]. *)
Definition AV_FRAME_FLAG_KEY : Z := Z.shiftl 1 1.

(** [AVERROR_EOF] of libavutil/error.h. *)
Definition AVERROR_EOF : Z := -541478725.

Record AVFrame : Type := mkAVFrame {
  f_pts : Z;
  f_pkt_dts : Z;
  f_pict_type : AVPictureType;
  f_flags : Z
}.

(** A compressed unit: the stream it belongs to, its byte size, and the
    picture it codes (what the engine will hand back for it). *)
Record AVPacket : Type := mkAVPacket {
  stream_index : Z;
  pkt_size : Z;
  pkt_picture : AVFrame
}.

Record AVRational : Type := mkAVRational { num : Z; den : Z }.

(** [av_q2d]: [num / (double) den]. *)
Definition av_q2d (q : AVRational) : spec_float :=
  F64.div (F64.of_int (num q)) (F64.of_int (den q)).

(** Results of [avcodec_receive_frame]: 0 with a frame, AVERROR(EAGAIN),
    AVERROR_EOF, or another negative code. *)
Inductive recv_result : Type :=
| RecvFrame (frame : AVFrame)
| RecvAgain
| RecvEOF
| RecvError (code : Z).

(** Results of [avcodec_send_packet]: 0, AVERROR(EAGAIN), or another
    negative code. *)
Inductive send_result : Type :=
| SendOk
| SendAgain
| SendError (code : Z).

(** What one call of [av_read_frame] delivers before the end of input:
    a packet, or a negative code other than AVERROR_EOF. The input is the
    list of these; on the empty list [av_read_frame] returns AVERROR_EOF. *)
Inductive demux_item : Type :=
| Item_packet (p : AVPacket)
| Item_error (code : Z).

(** An engine is a state with the two codec calls. [avcodec_send_packet]
    with [None] is the call with a null packet, the flush signal. *)
Class DecodeEngine (E : Type) : Type := {
  avcodec_receive_frame : E -> recv_result * E;
  avcodec_send_packet : option AVPacket -> E -> send_result * E;
  av_strerror : Z -> string
}.
Arguments av_strerror E {_} _.

(** *** A reference engine

    A decoder that accepts every packet and holds back [delay] pictures
    before it releases the oldest one, as a decoder with picture reordering
    or with [delay + 1] frame threads does. After the flush signal it
    releases what it holds, one picture per call, and then reports
    AVERROR_EOF. *)
Record DelayEngine : Type := mkDelayEngine {
  held : list AVFrame;
  draining : bool;
  delay : nat
}.

Definition delay_receive (e : DelayEngine) : recv_result * DelayEngine :=
  match held e with
  | [] => (if draining e then RecvEOF else RecvAgain, e)
  | f :: rest =>
      if draining e || (delay e <? length (held e))%nat
      then (RecvFrame f, mkDelayEngine rest (draining e) (delay e))
      else (RecvAgain, e)
  end.

Definition delay_send (p : option AVPacket) (e : DelayEngine)
  : send_result * DelayEngine :=
  match p with
  | None => (SendOk, mkDelayEngine (held e) true (delay e))
  | Some pkt =>
      if draining e then (SendError AVERROR_EOF, e)
      else (SendOk, mkDelayEngine (held e ++ [pkt_picture pkt])
                                  (draining e) (delay e))
  end.

#[global] Instance DelayEngine_engine : DecodeEngine DelayEngine := {
  avcodec_receive_frame := delay_receive;
  avcodec_send_packet := delay_send;
  av_strerror := fun code => pretty code
}.

(** ** video_decoder.cpp and stream_decoder.cpp: per-frame helpers

    [detectFrameType] and [extractQP] have the same body in both decoders.
    The frame argument is a pointer; [None] is the null pointer. *)

Definition frame_is_key (f : AVFrame) : bool :=
  negb (Z.land (f_flags f) AV_FRAME_FLAG_KEY =? 0).

Definition detectFrameType (codec : AVCodecID) (frame : option AVFrame)
  : FrameType :=
  match frame with
  | None => UNKNOWN
  | Some f =>
      if decide (codec = AV_CODEC_ID_AV1)
      then (if frame_is_key f then I_FRAME else P_FRAME)
      else match f_pict_type f with
           | AV_PICTURE_TYPE_I => I_FRAME
           | AV_PICTURE_TYPE_P => P_FRAME
           | AV_PICTURE_TYPE_B => B_FRAME
           | _ => UNKNOWN
           end
  end.

Definition extractQP (codec : AVCodecID) (frame : option AVFrame) : Z :=
  match frame with
  | None => 0
  | Some _ => if decide (codec = AV_CODEC_ID_AV1) then 128 else 0
  end.

(** The [FrameInfo] both decoders fill in after a successful receive.
    [isDuplicate] and [duplicateGroupId] are not assigned there: they hold
    whatever the uninitialised local held, given here as [indeterminate]. *)
Definition frame_info (codec : AVCodecID) (time_base : AVRational)
    (lastPacketSize : Z) (indeterminate : bool * Z) (frame : AVFrame)
  : FrameInfo :=
  {| pts := f_pts frame;
     dts := f_pkt_dts frame;
     type := detectFrameType codec (Some frame);
     size := lastPacketSize;
     qp := extractQP codec (Some frame);
     isKeyFrame := frame_is_key frame;
     timestamp := F64.mul (F64.of_int (f_pts frame)) (av_q2d time_base);
     isDuplicate := fst indeterminate;
     duplicateGroupId := snd indeterminate |}.

(** ** video_decoder.cpp: VideoDecoder *)

Module VideoDecoder.

(** The thread count the constructor keeps in its [int threadCount]:
    [hardware_concurrency] is the [unsigned int] that
    [std::thread::hardware_concurrency()] returns, [threadCount] the
    [int] argument. *)
Definition constructor_threadCount (hardware_concurrency threadCount : Z)
  : Z :=
  if threadCount =? 0 then
    let detected := CInt.int hardware_concurrency in
    if detected =? 0 then 1 else detected
  else
    let maxThreads :=
      if hardware_concurrency =? 0 then 1 else hardware_concurrency in
    CInt.int (Z.min (CInt.unsigned_int threadCount) maxThreads).

Section Decoder.
Context {E : Type} `{DecodeEngine E}.
Variable indeterminate : bool * Z.

(** [VideoDecoder::Impl], with the demuxer's remaining input in place of
    the format context. *)
Record Impl : Type := mkImpl {
  input : list demux_item;
  codecCtx : E;
  codec_id : AVCodecID;
  time_base : AVRational;
  videoStreamIndex : Z;
  endOfStream : bool;
  lastPacketSize : Z;
  lastDecodedFrame : option AVFrame
}.

Definition update (st : Impl) (inp : list demux_item) (eng : E)
    (eos : bool) (lps : Z) (ldf : option AVFrame) : Impl :=
  mkImpl inp eng (codec_id st) (time_base st) (videoStreamIndex st)
         eos lps ldf.

(** The [while (true)] loop of [readNextFrame]. Each turn either returns
    or consumes one item of the input, so the loop is a recursion on the
    remaining input. [eng], [lps], [ldf] are the current values of the
    codec context, of [lastPacketSize] and of [lastDecodedFrame];
    [endOfStream] is false on entry. *)
Fixpoint readNextFrame_loop (st : Impl) (inp : list demux_item) (eng : E)
    (lps : Z) (ldf : option AVFrame) {struct inp}
  : outcome (option FrameInfo) * Impl :=
  let (ret, eng1) := avcodec_receive_frame eng in
  match ret with
  | RecvFrame frame =>
      (Returned (Some (frame_info (codec_id st) (time_base st) lps
                                  indeterminate frame)),
       update st inp eng1 (endOfStream st) lps (Some frame))
  | RecvEOF =>
      (Returned None, update st inp eng1 true lps ldf)
  | RecvError code =>
      (Thrown code ("Error receiving frame: " +:+ av_strerror E code),
       update st inp eng1 (endOfStream st) lps ldf)
  | RecvAgain =>
      match inp with
      | [] =>
          (* av_read_frame returned AVERROR_EOF *)
          let (_, eng2) := avcodec_send_packet None eng1 in
          let (ret2, eng3) := avcodec_receive_frame eng2 in
          match ret2 with
          | RecvFrame frame =>
              (Returned (Some (frame_info (codec_id st) (time_base st) lps
                                          indeterminate frame)),
               update st [] eng3 true lps (Some frame))
          | _ => (Returned None, update st [] eng3 true lps ldf)
          end
      | Item_error code :: rest =>
          (Thrown code ("Error reading frame: " +:+ av_strerror E code),
           update st rest eng1 (endOfStream st) lps ldf)
      | Item_packet packet :: rest =>
          if negb (stream_index packet =? videoStreamIndex st)
          then readNextFrame_loop st rest eng1 lps ldf
          else
            let (ret3, eng2) := avcodec_send_packet (Some packet) eng1 in
            match ret3 with
            | SendError code =>
                (Thrown code
                   ("Error sending packet: " +:+ av_strerror E code),
                 update st rest eng2 (endOfStream st) (pkt_size packet) ldf)
            | _ => readNextFrame_loop st rest eng2 (pkt_size packet) ldf
            end
      end
  end.

Definition readNextFrame (st : Impl)
  : outcome (option FrameInfo) * Impl :=
  if endOfStream st then (Returned None, st)
  else readNextFrame_loop st (input st) (codecCtx st)
                          (lastPacketSize st) (lastDecodedFrame st).

Definition hasMoreFrames (st : Impl) : bool := negb (endOfStream st).

(** [n] successive calls of [readNextFrame]: what each call gave, and
    the decoder after the last one. A call that throws ends the run. *)
Fixpoint read_calls (n : nat) (st : Impl)
  : list (outcome (option FrameInfo)) * Impl :=
  match n with
  | O => ([], st)
  | S n' =>
      let (r, st1) := readNextFrame st in
      match r with
      | Thrown _ _ => ([r], st1)
      | Returned _ =>
          let (rs, st2) := read_calls n' st1 in (r :: rs, st2)
      end
  end.

End Decoder.
End VideoDecoder.

(** ** stream_decoder.cpp: StreamDecoder *)

Module StreamDecoder.

(** The thread count the constructor keeps in its [int threadCount]:
    [hardware_concurrency] is the [unsigned int] that
    [std::thread::hardware_concurrency()] returns, [threadCount] the
    [int] argument. *)
Definition constructor_threadCount (hardware_concurrency threadCount : Z)
  : Z :=
  if threadCount =? 0 then
    let detected := CInt.int hardware_concurrency in
    if detected =? 0 then 1 else detected
  else
    let maxThreads :=
      if hardware_concurrency =? 0 then 1 else hardware_concurrency in
    CInt.int (Z.min (CInt.unsigned_int threadCount) maxThreads).

Section Decoder.
Context {E : Type} `{DecodeEngine E}.
Variable indeterminate : bool * Z.

(** Results of [av_read_frame] on a live source: besides a packet and
    the end of input, a negative code; AVERROR(ETIMEDOUT) is told apart
    from the others. *)
Inductive live_item : Type :=
| Live_packet (p : AVPacket)
| Live_timeout
| Live_error (code : Z).

Record Impl : Type := mkImpl {
  input : list live_item;
  codecCtx : E;
  codec_id : AVCodecID;
  time_base : AVRational;
  videoStreamIndex : Z;
  streamActive : bool;
  lastPacketSize : Z;
  frameBuffer : list FrameInfo;
  maxBufferSize : nat
}.

Definition update (st : Impl) (inp : list live_item) (eng : E)
    (active : bool) (lps : Z) (buf : list FrameInfo) : Impl :=
  mkImpl inp eng (codec_id st) (time_base st) (videoStreamIndex st)
         active lps buf (maxBufferSize st).

(** [frameBuffer.push_back(info)], then [pop_front] when the buffer is
    longer than [maxBufferSize]. *)
Definition buffer_push (st : Impl) (info : FrameInfo) : list FrameInfo :=
  let buf := frameBuffer st ++ [info] in
  if (maxBufferSize st <? length buf)%nat then tail buf else buf.

Definition readNextFrame (st : Impl) : option FrameInfo * Impl :=
  if negb (streamActive st) then (None, st)
  else
    let (ret, eng1) := avcodec_receive_frame (codecCtx st) in
    match ret with
    | RecvFrame frame =>
        let info := frame_info (codec_id st) (time_base st)
                               (lastPacketSize st) indeterminate frame in
        (Some info,
         update st (input st) eng1 true (lastPacketSize st)
                (buffer_push st info))
    | RecvEOF | RecvError _ =>
        (None, update st (input st) eng1 false (lastPacketSize st)
                      (frameBuffer st))
    | RecvAgain =>
        match input st with
        | [] =>
            (None, update st [] eng1 false (lastPacketSize st)
                          (frameBuffer st))
        | Live_timeout :: rest =>
            (None, update st rest eng1 false (lastPacketSize st)
                          (frameBuffer st))
        | Live_error _ :: rest =>
            (None, update st rest eng1 true (lastPacketSize st)
                          (frameBuffer st))
        | Live_packet packet :: rest =>
            if negb (stream_index packet =? videoStreamIndex st)
            then (None, update st rest eng1 true (lastPacketSize st)
                               (frameBuffer st))
            else
              let lps := pkt_size packet in
              let (ret2, eng2) := avcodec_send_packet (Some packet) eng1 in
              match ret2 with
              | SendError _ =>
                  (None, update st rest eng2 false lps (frameBuffer st))
              | _ =>
                  let (ret3, eng3) := avcodec_receive_frame eng2 in
                  match ret3 with
                  | RecvFrame frame =>
                      let info := frame_info (codec_id st) (time_base st)
                                             lps indeterminate frame in
                      (Some info,
                       update st rest eng3 true lps (buffer_push st info))
                  | _ => (None, update st rest eng3 true lps
                                       (frameBuffer st))
                  end
              end
        end
    end.

Definition isStreamActive (st : Impl) : bool := streamActive st.

Definition stop (st : Impl) : Impl :=
  update st (input st) (codecCtx st) false (lastPacketSize st)
         (frameBuffer st).

Definition getBufferStatus (st : Impl) : BufferStatus :=
  {| bufferedFrames := length (frameBuffer st);
     isBuffering := (length (frameBuffer st) <? 10)%nat;
     bufferedDuration :=
       if (2 <=? length (frameBuffer st))%nat
       then match head (frameBuffer st), last (frameBuffer st) with
            | Some front, Some back =>
                F64.sub (timestamp back) (timestamp front)
            | _, _ => F64.zero
            end
       else F64.zero |}.

(** [n] successive calls of [readNextFrame]: what each call returned,
    and the decoder after the last one. *)
Fixpoint read_calls (n : nat) (st : Impl) : list (option FrameInfo) * Impl :=
  match n with
  | O => ([], st)
  | S n' =>
      let (r, st1) := readNextFrame st in
      let (rs, st2) := read_calls n' st1 in
      (r :: rs, st2)
  end.

End Decoder.
End StreamDecoder.

(** ** thread_pool.cpp: ThreadPool

    [hardware_concurrency] is the value [std::thread::hardware_concurrency()]
    reports on the machine, 0 when it cannot tell. Thread counts are
    [size_t]; only [min] and [max] are taken of them. *)

Module ThreadPool.

Definition detectHardwareThreads (hardware_concurrency : N) : N :=
  if (hardware_concurrency =? 0)%N then 1%N else hardware_concurrency.

(** The number of workers the constructor creates. *)
Definition constructor_numThreads (hardware_concurrency numThreads : N) : N :=
  let numThreads :=
    if (numThreads =? 0)%N
    then detectHardwareThreads hardware_concurrency else numThreads in
  let hardwareThreads := detectHardwareThreads hardware_concurrency in
  let numThreads := N.min numThreads hardwareThreads in
  N.max numThreads 1.

(** *** The pool as a transition system

    A task is named by a number. A worker is at one of four places of
    [workerThread]: at the wait on [condition_], executing a task it has
    dequeued (outside the lock), between the end of the task and the
    locked section that decrements [activeTasks_], or returned.

    [accepted] and [executed] are not fields of the class: they record
    the tasks [submit] enqueued and the tasks whose body has run, in
    order, so that the properties can be stated. *)

Definition task := nat.

Inductive worker : Set :=
| Waiting
| Executing (t : task)
| Finishing (t : task)
| Exited.

#[global] Instance worker_eq_dec : EqDecision worker.
Proof. solve_decision. Defined.

(** The destructor: not entered, or [stop_] set and the first [k]
    workers joined. It returns once it has joined every worker. *)
Inductive destructor : Set :=
| Alive
| Joining (k : nat).

Record pool : Type := mkPool {
  workers_ : list worker;
  tasks_ : list task;
  stop_ : bool;
  activeTasks_ : N;
  destructor_ : destructor;
  accepted : list task;
  executed : list task
}.

Definition ThreadPool (hardware_concurrency numThreads : N) : pool :=
  {| workers_ :=
       replicate (N.to_nat (constructor_numThreads hardware_concurrency
                                                   numThreads)) Waiting;
     tasks_ := [];
     stop_ := false;
     activeTasks_ := 0%N;
     destructor_ := Alive;
     accepted := [];
     executed := [] |}.

Definition getThreadCount (p : pool) : N := N.of_nat (length (workers_ p)).

(** [submit]: throws on a stopped pool, else enqueues. *)
Definition submit (t : task) (p : pool) : outcome pool :=
  if stop_ p
  then Thrown 0 "Cannot submit task to stopped ThreadPool"
  else Returned (mkPool (workers_ p) (tasks_ p ++ [t]) (stop_ p)
                        (activeTasks_ p) (destructor_ p)
                        (accepted p ++ [t]) (executed p)).

(** The locked section at the head of the worker loop, entered when the
    wait predicate [stop_ || !tasks_.empty()] holds: the new place of the
    worker, the queue and the active count. *)
Definition worker_take (p : pool) : worker * list task * N :=
  if stop_ p && bool_decide (tasks_ p = [])
  then (Exited, tasks_ p, activeTasks_ p)
  else match tasks_ p with
       | t :: rest => (Executing t, rest, (activeTasks_ p + 1)%N)
       | [] => (Waiting, [], activeTasks_ p)
       end.

Definition wait_predicate (p : pool) : bool :=
  stop_ p || negb (bool_decide (tasks_ p = [])).

Definition set_worker (i : nat) (w : worker) (p : pool) (q : list task)
    (active : N) (done : list task) : pool :=
  mkPool (<[i := w]> (workers_ p)) q (stop_ p) active (destructor_ p)
         (accepted p) done.

(** One atomic action of one thread. Locked sections are atomic; the
    task body runs outside the lock and is one action of its own. A
    blocking call (the wait on the condition variable, [join]) is an
    action that is enabled only when the call can return. *)
Inductive step : pool -> pool -> Prop :=
| step_submit p t p' :
    submit t p = Returned p' ->
    step p p'
| step_take p i :
    workers_ p !! i = Some Waiting ->
    wait_predicate p = true ->
    step p (set_worker i (worker_take p).1.1 p (worker_take p).1.2
                       (worker_take p).2 (executed p))
| step_run p i t :
    workers_ p !! i = Some (Executing t) ->
    step p (set_worker i (Finishing t) p (tasks_ p) (activeTasks_ p)
                       (executed p ++ [t]))
| step_finish p i t :
    workers_ p !! i = Some (Finishing t) ->
    step p (set_worker i Waiting p (tasks_ p) (activeTasks_ p - 1)%N
                       (executed p))
| step_stop p :
    destructor_ p = Alive ->
    step p (mkPool (workers_ p) (tasks_ p) true (activeTasks_ p)
                   (Joining 0) (accepted p) (executed p))
| step_join p k :
    destructor_ p = Joining k ->
    workers_ p !! k = Some Exited ->
    step p (mkPool (workers_ p) (tasks_ p) (stop_ p) (activeTasks_ p)
                   (Joining (S k)) (accepted p) (executed p)).

Inductive reachable (p0 : pool) : pool -> Prop :=
| reach_init : reachable p0 p0
| reach_step p p' : reachable p0 p -> step p p' -> reachable p0 p'.

(** The destructor has returned. *)
Definition destroyed (p : pool) : Prop :=
  destructor_ p = Joining (length (workers_ p)).

#[global] Instance destructor_eq_dec : EqDecision destructor.
Proof. solve_decision. Defined.

(** The tasks some worker has dequeued and not yet completed. *)
Definition in_flight (w : worker) : list task :=
  match w with
  | Executing t => [t]
  | _ => []
  end.

(** The tasks dequeued by the workers and not yet run. *)
Definition flying (ws : list worker) : list task :=
  ws ≫= in_flight.

(** What relates the fields of a pool at any time. No task is lost or
    run twice: the accepted tasks are those run, those dequeued and not
    yet run, and those queued. [stop_] is set exactly when the destructor
    has been entered. The workers joined so far have returned, and a
    worker has returned only with [stop_] set and the queue empty. *)
Definition consistent (p : pool) : Prop :=
  accepted p ≡ₚ executed p ++ flying (workers_ p) ++ tasks_ p
  /\ (stop_ p = true <-> destructor_ p <> Alive)
  /\ (forall k, destructor_ p = Joining k ->
        (k <= length (workers_ p))%nat
        /\ forall i, (i < k)%nat -> workers_ p !! i = Some Exited)
  /\ (Exited ∈ workers_ p -> stop_ p = true /\ tasks_ p = []).

(** How far a stopped pool is from the return of its destructor: what
    each worker has left to do before it waits again or returns, three
    actions for each queued task, and the workers left to join. *)
Definition worker_weight (w : worker) : nat :=
  match w with
  | Waiting => 1
  | Executing _ => 3
  | Finishing _ => 2
  | Exited => 0
  end.

Definition weights (ws : list worker) : nat :=
  foldr (fun w acc => worker_weight w + acc)%nat 0%nat ws.

Definition joined (d : destructor) : nat :=
  match d with
  | Alive => 0
  | Joining k => k
  end.

Definition distance (p : pool) : nat :=
  (weights (workers_ p) + 3 * length (tasks_ p)
   + (length (workers_ p) - joined (destructor_ p)))%nat.

(** [stop_] is set and the destructor has not returned yet. *)
Definition shutting_down (p : pool) : Prop :=
  stop_ p = true /\ ~ destroyed p.

(** The predicate [waitAll] waits for under the lock:
    [tasks_.empty() && activeTasks_ == 0]. *)
Definition waitAll_predicate (p : pool) : bool :=
  bool_decide (tasks_ p = []) && (activeTasks_ p =? 0)%N.

(** A worker between the dequeue of a task and the locked section that
    follows the task. *)
Definition busy (w : worker) : bool :=
  match w with
  | Executing _ | Finishing _ => true
  | _ => false
  end.

Definition busy_count (ws : list worker) : nat :=
  length (filter (fun w => busy w = true) ws).

(** Every schedule from [p] leads to a state where [P] holds. *)
Inductive inevitably (P : pool -> Prop) (p : pool) : Prop :=
| inev_now : P p -> inevitably P p
| inev_later :
    (exists p', step p p') ->
    (forall p', step p p' -> inevitably P p') ->
    inevitably P p.

End ThreadPool.

(** ** Loops over an index range

    [for (size_t i = a; i < b; ++i) body] run on a state: the body is
    applied at [a], [a + 1], ..., [b - 1]. *)

Definition for_range {S : Type} (a b : nat) (body : nat -> S -> S) (s : S) : S :=
  foldl (fun acc i => body i acc) s (seq a (b - a)).

(** ** gop_analyzer.cpp: GOPAnalyzer *)

Module GOPAnalyzer.

(** One turn of the counting loop over the frames of a segment: the
    [switch] on the frame type and [gop.totalSize += frames[j].size]. *)
Definition count_frame (frames : list FrameInfo) (j : nat) (gop : GOPInfo)
  : GOPInfo :=
  match frames !! j with
  | None => gop
  | Some f =>
      let gop1 :=
        match type f with
        | I_FRAME =>
            mkGOPInfo (gopIndex gop) (startPts gop) (endPts gop)
                      (frameCount gop) (CInt.incr (iFrameCount gop))
                      (pFrameCount gop) (bFrameCount gop) (totalSize gop)
                      (isOpenGOP gop)
        | P_FRAME =>
            mkGOPInfo (gopIndex gop) (startPts gop) (endPts gop)
                      (frameCount gop) (iFrameCount gop)
                      (CInt.incr (pFrameCount gop)) (bFrameCount gop)
                      (totalSize gop) (isOpenGOP gop)
        | B_FRAME =>
            mkGOPInfo (gopIndex gop) (startPts gop) (endPts gop)
                      (frameCount gop) (iFrameCount gop) (pFrameCount gop)
                      (CInt.incr (bFrameCount gop)) (totalSize gop)
                      (isOpenGOP gop)
        | UNKNOWN => gop
        end in
      mkGOPInfo (gopIndex gop1) (startPts gop1) (endPts gop1)
                (frameCount gop1) (iFrameCount gop1) (pFrameCount gop1)
                (bFrameCount gop1)
                (CInt.int64_t (totalSize gop1 + size f)) (isOpenGOP gop1)
  end.

(** [frames[k].pts]; the index is in range wherever it is used. *)
Definition pts_at (frames : list FrameInfo) (k : nat) : Z :=
  from_option pts 0 (frames !! k).

(** The segment of the frames at [gopStart], ..., [stop - 1]: the fields
    set before the counting loop, then the counting loop. *)
Definition make_gop (frames : list FrameInfo) (index : Z)
    (gopStart stop : nat) : GOPInfo :=
  let gop :=
    {| gopIndex := index;
       startPts := pts_at frames gopStart;
       endPts := pts_at frames (stop - 1);
       frameCount := CInt.int (Z.of_nat stop - Z.of_nat gopStart);
       iFrameCount := 0;
       pFrameCount := 0;
       bFrameCount := 0;
       totalSize := 0;
       isOpenGOP := false |} in
  for_range gopStart stop (count_frame frames) gop.

(** The variables of [detectGOPBoundaries]. *)
Record scan : Type := mkScan {
  gops_ : list GOPInfo;
  gopIndex_ : Z;
  gopStart_ : nat
}.

Definition starts_gop (f : FrameInfo) : bool :=
  bool_decide (type f = I_FRAME) && isKeyFrame f.

(** One turn of the loop over [i]. *)
Definition boundary_step (frames : list FrameInfo) (i : nat) (s : scan)
  : scan :=
  match frames !! i with
  | None => s
  | Some f =>
      if starts_gop f
      then {| gops_ := gops_ s ++ [make_gop frames (gopIndex_ s)
                                            (gopStart_ s) i];
              gopIndex_ := CInt.incr (gopIndex_ s);
              gopStart_ := i |}
      else s
  end.

(** [detectGOPBoundaries], on the member [gops_] it appends to. *)
Definition detectGOPBoundaries (frames : list FrameInfo)
    (gops : list GOPInfo) : list GOPInfo :=
  match frames with
  | [] => gops
  | _ =>
      let s := for_range 1 (length frames) (boundary_step frames)
                         (mkScan gops 0 0) in
      if (gopStart_ s <? length frames)%nat
      then gops_ s ++ [make_gop frames (gopIndex_ s) (gopStart_ s)
                                (length frames)]
      else gops_ s
  end.

(** [analyze] once the frames are collected: [gops_.clear()], then the
    boundaries unless there is no frame. *)
Definition analyze_frames (frames : list FrameInfo) : list GOPInfo :=
  match frames with
  | [] => []
  | _ => detectGOPBoundaries frames []
  end.

Definition sum_frameCount (gops : list GOPInfo) : Z :=
  foldr (fun g acc => frameCount g + acc) 0 gops.

(** The frames of a segment counted in none of the three per-type
    counters. *)
Definition uncounted (g : GOPInfo) : Z :=
  frameCount g - (iFrameCount g + pFrameCount g + bFrameCount g).

Definition sum_uncounted (gops : list GOPInfo) : Z :=
  foldr (fun g acc => uncounted g + acc) 0 gops.

Definition count_type (t : FrameType) (frames : list FrameInfo) : nat :=
  length (filter (fun f => type f = t) frames).

(** The frames at [a], ..., [b - 1]. *)
Definition slice (frames : list FrameInfo) (a b : nat) : list FrameInfo :=
  take (b - a) (drop a frames).


(** The state of the scan of [frames] before its turn [i]: the segments
    pushed so far cover the frames before [gopStart], and the frames
    they leave uncounted are the frames of unknown type among those. *)
Definition scan_state (frames : list FrameInfo) (i : nat) (s : scan) : Prop :=
  (gopStart_ s < i)%nat
  /\ sum_frameCount (gops_ s) = Z.of_nat (gopStart_ s)
  /\ Forall (fun g => 0 <= uncounted g) (gops_ s)
  /\ sum_uncounted (gops_ s)
     = Z.of_nat (count_type UNKNOWN (take (gopStart_ s) frames)).

(** [getAverageGOPLength], [getMaxGOPLength] and [getMinGOPLength], on
    the member [gops_]. *)
Definition getAverageGOPLength (gops : list GOPInfo) : spec_float :=
  match gops with
  | [] => F64.zero
  | _ =>
      let total :=
        foldl (fun total gop => CInt.int (total + frameCount gop)) 0 gops in
      F64.div (F64.of_int total) (F64.of_int (Z.of_nat (length gops)))
  end.

Definition getMaxGOPLength (gops : list GOPInfo) : Z :=
  match gops with
  | [] => 0
  | _ => foldl (fun maxLen gop => Z.max maxLen (frameCount gop)) 0 gops
  end.

Definition getMinGOPLength (gops : list GOPInfo) : Z :=
  match gops with
  | [] => 0
  | first :: _ =>
      foldl (fun minLen gop => Z.min minLen (frameCount gop))
            (frameCount first) gops
  end.

(** Frame [i] is a key I-frame. *)
Definition starts_at (frames : list FrameInfo) (i : nat) : bool :=
  from_option starts_gop false (frames !! i).

(** [g] records a run of frames [a], ..., [b - 1] with no key I-frame
    after its first frame; the run starts at frame 0 when [first], and at
    a key I-frame otherwise. *)
Definition cut_segment (frames : list FrameInfo) (first : bool)
    (g : GOPInfo) : Prop :=
  exists index a b,
    g = make_gop frames index a b
    /\ (a < b <= length frames)%nat
    /\ (if first then a = 0%nat else starts_at frames a = true)
    /\ forall j, (a < j < b)%nat -> starts_at frames j = false.

Definition cut_segments (frames : list FrameInfo) (gops : list GOPInfo)
  : Prop :=
  match gops with
  | [] => True
  | g :: rest =>
      cut_segment frames true g /\ Forall (cut_segment frames false) rest
  end.

(** The state of the scan before its turn [i], as to where the segments
    are cut. *)
Definition scan_cuts (frames : list FrameInfo) (i : nat) (s : scan) : Prop :=
  (gopStart_ s < i)%nat
  /\ (forall j, (gopStart_ s < j < i)%nat -> starts_at frames j = false)
  /\ cut_segments frames (gops_ s)
  /\ (if decide (gops_ s = []) then gopStart_ s = 0%nat
      else starts_at frames (gopStart_ s) = true)
  /\ length (gops_ s) = length (filter starts_gop (slice frames 1 i)).

End GOPAnalyzer.

(** ** video_analyzer.cpp: VideoAnalyzer::detectDuplicateFrames *)

Module VideoAnalyzer.

(** [frames_[k].duplicateGroupId], read at the time of the call. *)
Definition group_at (frames_ : list FrameInfo) (k : nat) : Z :=
  from_option duplicateGroupId (-1) (frames_ !! k).

Definition reset_frame (f : FrameInfo) : FrameInfo :=
  set_duplicateGroupId (-1) (set_isDuplicate false f).

(** [std::abs(current.size - prev.size) <= prev.size * size_tolerance / 100.0f]:
    the left side is an [int], converted to [float] for the comparison;
    the right side is computed in [float]. *)
Definition sizeMatch (size_tolerance : spec_float) (prev current : FrameInfo)
  : bool :=
  F32.leb (F32.of_int (CInt.abs (CInt.int (size current - size prev))))
          (F32.div (F32.mul (F32.of_int (size prev)) size_tolerance)
                   (F32.of_int 100)).

Definition qpMatch (require_same_qp : bool) (prev current : FrameInfo) : bool :=
  negb require_same_qp || (qp current =? qp prev).

Definition typeMatch (require_same_type : bool) (prev current : FrameInfo)
  : bool :=
  negb require_same_type || bool_decide (type current = type prev).

(** [sizeMatch && qpMatch && typeMatch]. *)
Definition matches (size_tolerance : spec_float)
    (require_same_qp require_same_type : bool) (prev current : FrameInfo)
  : bool :=
  sizeMatch size_tolerance prev current
  && qpMatch require_same_qp prev current
  && typeMatch require_same_type prev current.

(** One turn of the comparison loop. [prev] and [current] are references
    into [frames_]: the three tests read the two elements as they are on
    entry, and every later [prev.duplicateGroupId] reads element [i - 1]
    of the vector as it is then, after the writes that precede it. *)
Definition compare_step (size_tolerance : spec_float)
    (require_same_qp require_same_type : bool) (i : nat)
    (s : list FrameInfo * Z) : list FrameInfo * Z :=
  let '(frames_, currentGroupId) := s in
  match frames_ !! (i - 1)%nat, frames_ !! i with
  | Some prev, Some current =>
      if matches size_tolerance require_same_qp require_same_type
                 prev current
      then
        (* current.isDuplicate = true; *)
        let frames1 := alter (set_isDuplicate true) i frames_ in
        (* if (prev.duplicateGroupId == -1) { frames_[i - 1]... } *)
        let frames2 :=
          if group_at frames1 (i - 1) =? -1
          then alter (set_duplicateGroupId currentGroupId)
                     (i - 1)%nat
                     (alter (set_isDuplicate true) (i - 1)%nat frames1)
          else frames1 in
        (* current.duplicateGroupId = prev.duplicateGroupId != -1 ? ... *)
        let g :=
          if negb (group_at frames2 (i - 1) =? -1)
          then group_at frames2 (i - 1) else currentGroupId in
        let frames3 := alter (set_duplicateGroupId g) i frames2 in
        (* if (prev.duplicateGroupId == -1) currentGroupId++; *)
        let currentGroupId' :=
          if group_at frames3 (i - 1) =? -1
          then CInt.incr currentGroupId else currentGroupId in
        (frames3, currentGroupId')
      else s
  | _, _ => s
  end.

(** The function up to the count it prints: the frames it leaves in
    [frames_] and the final [currentGroupId]. *)
Definition detect (size_tolerance : spec_float)
    (require_same_qp require_same_type : bool) (frames_ : list FrameInfo)
  : list FrameInfo * Z :=
  match frames_ with
  | [] => ([], 0)
  | _ =>
      for_range 1 (length frames_)
                (compare_step size_tolerance require_same_qp
                              require_same_type)
                (reset_frame <$> frames_, 0)
  end.

Definition detectDuplicateFrames (size_tolerance : spec_float)
    (require_same_qp require_same_type : bool) (frames_ : list FrameInfo)
  : list FrameInfo :=
  (detect size_tolerance require_same_qp require_same_type frames_).1.

(** The duplicate fields of a frame list, what a caller reads back. *)
Definition flags (frames_ : list FrameInfo) : list (bool * Z) :=
  (fun f => (isDuplicate f, duplicateGroupId f)) <$> frames_.

(** Two frame lists that differ at most in the duplicate fields. *)
Definition same_content (a b : list FrameInfo) : Prop :=
  reset_frame <$> a = reset_frame <$> b.

(** The rule applied to the frames at [j] and [j + 1] of a list. *)
Definition pair_matches (size_tolerance : spec_float)
    (require_same_qp require_same_type : bool) (frames : list FrameInfo)
    (j : nat) : bool :=
  match frames !! j, frames !! (j + 1)%nat with
  | Some prev, Some current =>
      matches size_tolerance require_same_qp require_same_type prev current
  | _, _ => false
  end.

(** The rule pairs the frame at [j] with the frame before it or with
    the frame after it. *)
Definition paired (size_tolerance : spec_float)
    (require_same_qp require_same_type : bool) (frames : list FrameInfo)
    (j : nat) : bool :=
  match j with
  | O => false
  | S j' => pair_matches size_tolerance require_same_qp require_same_type
                         frames j'
  end
  || pair_matches size_tolerance require_same_qp require_same_type frames j.


(** The same, with only the pairs taken into account that the loop has
    compared before its turn [k]: those whose second frame is before
    [k]. *)
Definition paired_before (size_tolerance : spec_float)
    (require_same_qp require_same_type : bool) (frames : list FrameInfo)
    (k j : nat) : bool :=
  match j with
  | O => false
  | S j' =>
      bool_decide (S j' < k)%nat
      && pair_matches size_tolerance require_same_qp require_same_type
                      frames j'
  end
  || (bool_decide (j + 1 < k)%nat
      && pair_matches size_tolerance require_same_qp require_same_type
                      frames j).

(** The state of the comparison loop before its turn [k] on the frames
    [F]: the group counter is 0, the frames have the content of [F], a
    frame is flagged exactly when a pair compared so far matched it, and
    the flagged frames are those in group 0. *)
Definition loop_state (size_tolerance : spec_float)
    (require_same_qp require_same_type : bool) (F : list FrameInfo)
    (k : nat) (s : list FrameInfo * Z) : Prop :=
  s.2 = 0
  /\ reset_frame <$> s.1 = reset_frame <$> F
  /\ forall j f, s.1 !! j = Some f ->
       isDuplicate f
       = paired_before size_tolerance require_same_qp require_same_type F k j
       /\ duplicateGroupId f = (if isDuplicate f then 0 else -1).

(** The duplicate fields after a run, written out: a frame is flagged
    exactly when the rule pairs it with a neighbour, and every flagged
    frame is in group 0. *)
Definition flags_by_rule (size_tolerance : spec_float)
    (require_same_qp require_same_type : bool) (F : list FrameInfo)
  : list (bool * Z) :=
  (fun j =>
     let p := paired size_tolerance require_same_qp require_same_type F j in
     (p, if p then 0 else -1)) <$> seq 0 (length F).

End VideoAnalyzer.

(** ** scene_detector.cpp: SceneDetector

    [analyze] reads the file twice. The first pass collects [frames];
    the second pass runs one turn of the detection loop for each frame it
    returns, [second] of them, and looks the frames up in [frames] by
    [frameIndex]. *)

Module SceneDetector.

Record SceneInfo : Type := mkSceneInfo {
  sceneIndex : Z;               (* int *)
  startPts : Z;                 (* int64_t *)
  endPts : Z;                   (* int64_t *)
  startFrameNumber : Z;         (* int *)
  endFrameNumber : Z;           (* int *)
  startTimestamp : spec_float;
  endTimestamp : spec_float;
  frameCount : Z;               (* int *)
  averageBrightness : spec_float
}.

(** [frames[k]] for an [int] index [k]. The source reads the vector
    unchecked; [None] stands for a read past its end, which the loops
    below answer by leaving their state as it is or by a zero. No such
    read is made when the second pass returns as many frames as the
    first. *)
Definition frame_at (frames : list FrameInfo) (k : Z) : option FrameInfo :=
  frames !! Z.to_nat k.

Definition sizeDiff (prev curr : FrameInfo) : spec_float :=
  if 0 <? size prev
  then F64.div (SFabs (F64.of_int (CInt.int (size curr - size prev))))
               (F64.of_int (size prev))
  else F64.zero.

Definition isSceneBoundary (threshold : spec_float) (prev curr : FrameInfo)
  : bool :=
  if isKeyFrame curr && F64.gtb (sizeDiff prev curr) threshold then true
  else if F64.gtb (sizeDiff prev curr) (F64.mul threshold (F64.of_int 2))
       then true
       else false.

(** The variables of the second reading loop. *)
Record pass : Type := mkPass {
  sceneBoundaries : list Z;     (* std::vector<int> *)
  frameIndex : Z                (* int *)
}.

(** One turn of the second reading loop. *)
Definition pass_step (threshold : spec_float) (frames : list FrameInfo)
    (p : pass) : pass :=
  let boundaries :=
    if 0 <? frameIndex p
    then match frame_at frames (frameIndex p - 1),
               frame_at frames (frameIndex p) with
         | Some prev, Some curr =>
             if isSceneBoundary threshold prev curr
             then sceneBoundaries p ++ [frameIndex p]
             else sceneBoundaries p
         | _, _ => sceneBoundaries p
         end
    else sceneBoundaries p in
  mkPass boundaries (CInt.incr (frameIndex p)).

(** [sceneBoundaries[i]]. *)
Definition boundary_at (boundaries : list Z) (i : nat) : Z :=
  from_option id 0 (boundaries !! i).

(** The loop that adds up the sizes of the frames of a scene. *)
Definition brightness (frames : list FrameInfo) (startIdx endIdx : Z)
  : spec_float :=
  for_range (Z.to_nat startIdx) (Z.to_nat (endIdx + 1))
            (fun j totalSize =>
               F64.add totalSize
                       (F64.of_int (from_option size 0 (frames !! j))))
            F64.zero.

(** One turn of the loop that creates the [SceneInfo] objects. *)
Definition scene_step (frames : list FrameInfo) (boundaries : list Z)
    (i : nat) (scenes : list SceneInfo) : list SceneInfo :=
  let startIdx := boundary_at boundaries i in
  let endIdx0 := CInt.int (boundary_at boundaries (i + 1) - 1) in
  let endIdx :=
    if CInt.int (Z.of_nat (length frames)) <=? endIdx0
    then CInt.int (Z.of_nat (length frames) - 1)
    else endIdx0 in
  let count := CInt.int (CInt.int (endIdx - startIdx) + 1) in
  scenes ++
  [ {| sceneIndex := CInt.int (Z.of_nat i);
       startPts := from_option pts 0 (frame_at frames startIdx);
       endPts := from_option pts 0 (frame_at frames endIdx);
       startFrameNumber := startIdx;
       endFrameNumber := endIdx;
       startTimestamp :=
         from_option timestamp F64.zero (frame_at frames startIdx);
       endTimestamp :=
         from_option timestamp F64.zero (frame_at frames endIdx);
       frameCount := count;
       averageBrightness :=
         F64.div (brightness frames startIdx endIdx) (F64.of_int count) |} ].

(** [analyze] once the first pass has collected [frames] and while the
    second pass returns [second] frames. *)
Definition analyze_frames (threshold : spec_float) (frames : list FrameInfo)
    (second : nat) : list SceneInfo :=
  match frames with
  | [] => []
  | _ =>
      let p := for_range 0 second (fun _ => pass_step threshold frames)
                         (mkPass [0] 0) in
      let boundaries :=
        if negb (from_option id 0 (last (sceneBoundaries p))
                 =? CInt.int (CInt.int (Z.of_nat (length frames)) - 1))
        then sceneBoundaries p ++ [CInt.int (Z.of_nat (length frames))]
        else sceneBoundaries p in
      for_range 0 (length boundaries - 1) (scene_step frames boundaries) []
  end.

(** The rule of the second pass at frame [i]. *)
Definition boundary_index (threshold : spec_float) (frames : list FrameInfo)
    (i : nat) : bool :=
  match frames !! (i - 1)%nat, frames !! i with
  | Some prev, Some curr => isSceneBoundary threshold prev curr
  | _, _ => false
  end.

(** The last frame is a scene boundary: it is the only frame, or the rule
    holds of it. *)
Definition last_frame_is_boundary (threshold : spec_float)
    (frames : list FrameInfo) : bool :=
  (length frames =? 1)%nat
  || boundary_index threshold frames (length frames - 1).

(** The scenes are runs of frames that follow one another from frame
    [from] on, each of at least one frame and with its frame count. *)
Fixpoint tiled (from : Z) (scenes : list SceneInfo) : Prop :=
  match scenes with
  | [] => True
  | s :: rest =>
      startFrameNumber s = from
      /\ from <= endFrameNumber s
      /\ frameCount s = endFrameNumber s - startFrameNumber s + 1
      /\ tiled (endFrameNumber s + 1) rest
  end.

(** The frame after the last one the scenes cover. *)
Fixpoint upto (from : Z) (scenes : list SceneInfo) : Z :=
  match scenes with
  | [] => from
  | s :: rest => upto (endFrameNumber s + 1) rest
  end.

Definition sum_frameCount (scenes : list SceneInfo) : Z :=
  foldr (fun s acc => frameCount s + acc) 0 scenes.

(** The boundaries found before turn [i] of the second pass. *)
Definition pass_state (threshold : spec_float) (frames : list FrameInfo)
    (i : nat) (p : pass) : Prop :=
  frameIndex p = Z.of_nat i
  /\ boundary_at (sceneBoundaries p) 0 = 0
  /\ sceneBoundaries p <> []
  /\ Forall (fun x => 0 <= x < Z.max 1 (Z.of_nat i)) (sceneBoundaries p)
  /\ (forall j x y, sceneBoundaries p !! j = Some x ->
                    sceneBoundaries p !! S j = Some y -> x < y)
  /\ ((1 <= i)%nat ->
      (last (sceneBoundaries p) = Some (Z.of_nat i - 1)
       <-> i = 1%nat \/ boundary_index threshold frames (i - 1) = true)).

End SceneDetector.

(** ** frame_statistics.cpp: FrameStatistics *)

Module FrameStatistics.

Record stats : Type := mkStats {
  totalFrames : Z;               (* int *)
  iFrames : Z;
  pFrames : Z;
  bFrames : Z;
  averageFrameSize : spec_float;
  maxFrameSize : Z;
  minFrameSize : Z;
  averageQP : spec_float
}.

(** The member initialisers. *)
Definition default : stats := mkStats 0 0 0 0 F64.zero 0 0 F64.zero.

(** The variables of the loop of [compute]: [stats] and the two locals
    [int64_t totalSize] and [int totalQP]. *)
Record sums : Type := mkSums {
  stats_ : stats;
  totalSize_ : Z;
  totalQP_ : Z
}.

(** One turn of the loop over the frames. *)
Definition count_frame (frame : FrameInfo) (s : sums) : sums :=
  let st := stats_ s in
  let st1 :=
    match type frame with
    | I_FRAME =>
        mkStats (totalFrames st) (CInt.incr (iFrames st)) (pFrames st)
                (bFrames st) (averageFrameSize st) (maxFrameSize st)
                (minFrameSize st) (averageQP st)
    | P_FRAME =>
        mkStats (totalFrames st) (iFrames st) (CInt.incr (pFrames st))
                (bFrames st) (averageFrameSize st) (maxFrameSize st)
                (minFrameSize st) (averageQP st)
    | B_FRAME =>
        mkStats (totalFrames st) (iFrames st) (pFrames st)
                (CInt.incr (bFrames st)) (averageFrameSize st)
                (maxFrameSize st) (minFrameSize st) (averageQP st)
    | UNKNOWN => st
    end in
  let totalSize := CInt.int64_t (totalSize_ s + size frame) in
  let st2 :=
    mkStats (totalFrames st1) (iFrames st1) (pFrames st1) (bFrames st1)
            (averageFrameSize st1) (maxFrameSize st1)
            (Z.min (minFrameSize st1) (size frame)) (averageQP st1) in
  let st3 :=
    mkStats (totalFrames st2) (iFrames st2) (pFrames st2) (bFrames st2)
            (averageFrameSize st2) (Z.max (maxFrameSize st2) (size frame))
            (minFrameSize st2) (averageQP st2) in
  mkSums st3 totalSize (CInt.int (totalQP_ s + qp frame)).

Definition compute (frames : list FrameInfo) : stats :=
  match frames with
  | [] => default
  | first :: _ =>
      let st0 :=
        mkStats (CInt.int (Z.of_nat (length frames))) 0 0 0 F64.zero
                (size first) (size first) F64.zero in
      let s := foldl (fun s frame => count_frame frame s)
                     (mkSums st0 0 0) frames in
      let st := stats_ s in
      let n := F64.of_int (Z.of_nat (length frames)) in
      mkStats (totalFrames st) (iFrames st) (pFrames st) (bFrames st)
              (F64.div (F64.of_int (totalSize_ s)) n)
              (maxFrameSize st) (minFrameSize st)
              (F64.div (F64.of_int (totalQP_ s)) n)
  end.

End FrameStatistics.

(** ** stream_analyzer.cpp: StreamAnalyzer *)

Module StreamAnalyzer.
Section Analyzer.

(** [std::to_string] on a [double]; the text it prints is the standard
    library's. *)
Variable to_string_double : spec_float -> string.

(** The data guarded by [dataMutex_], and [previousFrame_], which only
    the analysis thread touches. *)
Record data : Type := mkData {
  frameWindow_ : list FrameInfo;
  anomalies_ : list Anomaly;
  previousFrame_ : option FrameInfo
}.

Definition maxWindowSize : nat := 300.
Definition maxAnomalies : nat := 100.

(** [push_back], then [pop_front] when the deque is longer than [cap]. *)
Definition push_capped {A : Type} (cap : nat) (x : A) (d : list A) : list A :=
  let d1 := d ++ [x] in
  if (cap <? length d1)%nat then tail d1 else d1.

(** What the analysis thread has done so far: the current data, the data
    as it stood at each release of [dataMutex_] (oldest first), and the
    calls made to the two callbacks. *)
Record run : Type := mkRun {
  now : data;
  released : list data;
  anomaly_calls : list Anomaly;
  frame_calls : list FrameInfo
}.

(** A section under [std::lock_guard]: the data changes, and the result
    is what the next holder of the lock sees. *)
Definition locked (f : data -> data) (r : run) : run :=
  let d := f (now r) in
  mkRun d (released r ++ [d]) (anomaly_calls r) (frame_calls r).

(** The body every rule runs for the anomaly it has built: the locked
    push with eviction, then the callback. *)
Definition report (anomaly : Anomaly) (r : run) : run :=
  let r1 := locked (fun d => mkData (frameWindow_ d)
                                    (push_capped maxAnomalies anomaly
                                                 (anomalies_ d))
                                    (previousFrame_ d)) r in
  mkRun (now r1) (released r1) (anomaly_calls r1 ++ [anomaly])
        (frame_calls r1).

Definition frame_drop_rule (frame : FrameInfo) (r : run) : run :=
  match previousFrame_ (now r) with
  | None => r
  | Some previous =>
      let timeDiff := F64.sub (timestamp frame) (timestamp previous) in
      let expectedDiff := F64.div (F64.of_int 1) (F64.of_int 30) in
      if F64.gtb timeDiff (F64.mul expectedDiff (F64.of_int 2))
      then report (mkAnomaly FRAME_DROP (timestamp frame)
                     ("Frame drop detected: " +:+ to_string_double timeDiff
                      +:+ "s gap")) r
      else r
  end.

Definition bitrate_spike_rule (frame : FrameInfo) (r : run) : run :=
  match previousFrame_ (now r) with
  | None => r
  | Some previous =>
      let currentBitrate := F64.mul (F64.of_int (size frame)) (F64.of_int 8) in
      let previousBitrate :=
        F64.mul (F64.of_int (size previous)) (F64.of_int 8) in
      if F64.gtb currentBitrate (F64.mul previousBitrate (F64.of_int 3))
      then report (mkAnomaly BITRATE_SPIKE (timestamp frame)
                             "Bitrate spike detected") r
      else r
  end.

Definition quality_drop_rule (frame : FrameInfo) (r : run) : run :=
  if 40 <? qp frame
  then report (mkAnomaly QUALITY_DROP (timestamp frame)
                 ("Quality drop detected: QP=" +:+ pretty (qp frame))) r
  else r.

Definition detectAnomalies (frame : FrameInfo) (r : run) : run :=
  quality_drop_rule frame (bitrate_spike_rule frame (frame_drop_rule frame r)).

(** One turn of [analysisLoop] for what [readNextFrame] returned. On
    [None] the thread sleeps and polls again. Writing the frame to the
    export file does not touch the data and is left out. *)
Definition analysis_turn (polled : option FrameInfo) (r : run) : run :=
  match polled with
  | None => r
  | Some frame =>
      let r1 := locked (fun d => mkData (push_capped maxWindowSize frame
                                                     (frameWindow_ d))
                                        (anomalies_ d) (previousFrame_ d)) r in
      let r2 := detectAnomalies frame r1 in
      let r3 := mkRun (now r2) (released r2) (anomaly_calls r2)
                      (frame_calls r2 ++ [frame]) in
      mkRun (mkData (frameWindow_ (now r3)) (anomalies_ (now r3))
                    (Some frame))
            (released r3) (anomaly_calls r3) (frame_calls r3)
  end.

(** [analysisLoop] over the results of the successive polls made while
    the analyzer was running and the stream active. *)
Definition analysisLoop (polls : list (option FrameInfo)) (r : run) : run :=
  foldl (fun acc p => analysis_turn p acc) r polls.

(** A freshly constructed analyzer. *)
Definition initial : run := mkRun (mkData [] [] None) [] [] [].

Definition within_caps (d : data) : Prop :=
  (length (frameWindow_ d) <= maxWindowSize)%nat
  /\ (length (anomalies_ d) <= maxAnomalies)%nat.

(** [int64_t totalSize = 0; for (frame : windowFrames) totalSize += frame.size]. *)
Definition total_size (windowFrames : list FrameInfo) : Z :=
  foldl (fun acc f => CInt.int64_t (acc + size f)) 0 windowFrames.

Definition zero_stats : BitrateStatistics :=
  mkBitrateStatistics F64.zero F64.zero F64.zero F64.zero [].

(** The frames copied out of the window: those whose timestamp is not
    before [startTime]. *)
Definition window_frames (startTime : spec_float) (w : list FrameInfo)
  : list FrameInfo :=
  filter (fun f => F64.geb (timestamp f) startTime = true) w.

Definition getCurrentBitrateStats (windowSize : spec_float) (d : data)
  : BitrateStatistics :=
  match last (frameWindow_ d) with
  | None => zero_stats
  | Some newest =>
      let currentTime := timestamp newest in
      let startTime := F64.sub currentTime windowSize in
      let windowFrames := window_frames startTime (frameWindow_ d) in
      match head windowFrames, last windowFrames with
      | Some front, Some back =>
          let totalSize := total_size windowFrames in
          let duration := F64.sub (timestamp back) (timestamp front) in
          if F64.gtb duration F64.zero
          then
            let average :=
              F64.div (F64.mul (F64.of_int totalSize) (F64.of_int 8))
                      duration in
            mkBitrateStatistics average
                                (F64.mul average (F64.half_of 3))
                                (F64.mul average (F64.half_of 1))
                                F64.zero []
          else zero_stats
      | _, _ => zero_stats
      end
  end.

Definition getCurrentFrameStats (windowSize : spec_float) (d : data)
  : FrameStatistics.stats :=
  match last (frameWindow_ d) with
  | None => FrameStatistics.default
  | Some newest =>
      let currentTime := timestamp newest in
      let startTime := F64.sub currentTime windowSize in
      FrameStatistics.compute (window_frames startTime (frameWindow_ d))
  end.

Definition getDetectedAnomalies (d : data) : list Anomaly := anomalies_ d.

(** What has to hold of a run: the data was within its caps at every
    release of the lock and is so now, and the anomaly log holds the
    latest reports, in order. *)
Definition run_ok (r : run) : Prop :=
  Forall within_caps (released r)
  /\ within_caps (now r)
  /\ anomalies_ (now r)
     = drop (length (anomaly_calls r) - maxAnomalies) (anomaly_calls r).

(** The window holds the latest frames handed to the frame callback. *)
Definition window_latest (r : run) : Prop :=
  frameWindow_ (now r)
  = drop (length (frame_calls r) - maxWindowSize) (frame_calls r).

(** *** The bitrate query, in the words of the specification *)

(** The frames whose timestamp lies within the window, the closed
    interval from [windowSize] seconds before the timestamp of the newest
    frame up to that timestamp. *)
Definition spec_subset (windowSize : spec_float) (w : list FrameInfo)
  : list FrameInfo :=
  match last w with
  | None => []
  | Some newest =>
      filter (fun f => F64.geb (timestamp f)
                               (F64.sub (timestamp newest) windowSize) = true
                       /\ F64.geb (timestamp newest) (timestamp f) = true) w
  end.

(** No frame of the window carries a timestamp later than that of the
    newest frame, as when the frames arrive in the order of their
    timestamps. *)
Definition newest_is_latest (w : list FrameInfo) : Prop :=
  match last w with
  | None => True
  | Some newest =>
      Forall (fun f => F64.geb (timestamp newest) (timestamp f) = true) w
  end.

(** The frames of the window that are not older than [windowSize]
    seconds before the newest frame, whatever their timestamp is
    otherwise. *)
Definition not_older_subset (windowSize : spec_float) (w : list FrameInfo)
  : list FrameInfo :=
  match last w with
  | None => []
  | Some newest =>
      filter (fun f => F64.geb (timestamp f)
                               (F64.sub (timestamp newest) windowSize) = true) w
  end.

Definition sum_sizes (frames : list FrameInfo) : Z :=
  foldr (fun f acc => size f + acc) 0 frames.

(** Total bits: the sum of the frame sizes, times 8. *)
Definition spec_total_bits (subset : list FrameInfo) : spec_float :=
  F64.mul (F64.of_int (sum_sizes subset)) (F64.of_int 8).

(** Elapsed seconds between the first and the last frame of the subset;
    an empty subset spans nothing. *)
Definition spec_elapsed (subset : list FrameInfo) : spec_float :=
  match head subset, last subset with
  | Some first, Some final => F64.sub (timestamp final) (timestamp first)
  | _, _ => F64.zero
  end.

Definition spec_average (subset : list FrameInfo) : spec_float :=
  F64.div (spec_total_bits subset) (spec_elapsed subset).

End Analyzer.
End StreamAnalyzer.

(** "[info] is a frame that [readNextFrame] of one of the two decoders
    returned on a stream whose codec is [codec]." *)
Inductive decoded_frame (codec : AVCodecID) (info : FrameInfo) : Prop :=
| decoded_by_video (E : Type) (eng : DecodeEngine E) (indet : bool * Z)
    (st st' : VideoDecoder.Impl) :
    VideoDecoder.codec_id st = codec ->
    VideoDecoder.readNextFrame indet st = (Returned (Some info), st') ->
    decoded_frame codec info
| decoded_by_stream (E : Type) (eng : DecodeEngine E) (indet : bool * Z)
    (st st' : StreamDecoder.Impl) :
    StreamDecoder.codec_id st = codec ->
    StreamDecoder.readNextFrame indet st = (Some info, st') ->
    decoded_frame codec info.

(** The anomalies of one type among those handed to the callback. *)
Definition of_type (t : AnomalyType) (l : list Anomaly) : list Anomaly :=
  filter (fun a => a_type a = t) l.

(** The anomalies a frame can raise: all carry its timestamp; a frame
    drop and a bitrate spike need a previous frame; a quality drop is
    raised exactly when the QP is above 40. *)
Definition raised_by (frame : FrameInfo) (previous : option FrameInfo)
    (new : list Anomaly) : Prop :=
  Forall (fun a => a_timestamp a = timestamp frame) new
  /\ (length (of_type FRAME_DROP new) <= 1)%nat
  /\ (length (of_type BITRATE_SPIKE new) <= 1)%nat
  /\ (previous = None ->
      of_type FRAME_DROP new = [] /\ of_type BITRATE_SPIKE new = [])
  /\ length (of_type QUALITY_DROP new)
     = (if 40 <? qp frame then 1%nat else 0%nat)
  /\ (length new <= 3)%nat.

(** What [analysisLoop] has done after the frames [hist]. *)
Definition callbacks_after (hist : list FrameInfo) (r : StreamAnalyzer.run)
  : Prop :=
  StreamAnalyzer.frame_calls r = hist
  /\ StreamAnalyzer.previousFrame_ (StreamAnalyzer.now r) = last hist
  /\ Forall (fun a => exists f, f ∈ hist /\ a_timestamp a = timestamp f)
            (StreamAnalyzer.anomaly_calls r)
  /\ length (of_type QUALITY_DROP (StreamAnalyzer.anomaly_calls r))
     = length (filter (fun f => 40 < qp f) hist)
  /\ (length (of_type FRAME_DROP (StreamAnalyzer.anomaly_calls r))
      <= pred (length hist))%nat
  /\ (length (of_type BITRATE_SPIKE (StreamAnalyzer.anomaly_calls r))
      <= pred (length hist))%nat
  /\ (length (StreamAnalyzer.anomaly_calls r) <= 3 * length hist)%nat.

(** ** Reading a file through an engine that holds back pictures *)

(** [packets[k].size], 0 out of range. *)
Definition size_at (packets : list AVPacket) (k : nat) : Z :=
  from_option pkt_size 0 (packets !! k).

(** The number of frames a file of [n] video packets yields through an
    engine that holds back [delay] pictures: all [n] when the delay is at
    most 1; with a delay of 2 or more, [n - delay + 1] when the file has
    more packets than the delay, and otherwise a single frame (none when
    the file has no packet). *)
Definition yield (delay n : nat) : nat :=
  if (delay <=? 1)%nat then n
  else if (delay <? n)%nat then (n - delay + 1)%nat
  else Nat.min n 1.

(** The frames it yields: the pictures of the first packets, each with
    the size of the packet read last before it was returned. *)
Definition delayed_frames (codec : AVCodecID) (time_base : AVRational)
    (indeterminate : bool * Z) (delay : nat) (packets : list AVPacket)
  : list FrameInfo :=
  imap (fun i p =>
          frame_info codec time_base
                     (size_at packets
                              (Nat.min (i + delay) (length packets - 1)))
                     indeterminate (pkt_picture p))
       (take (yield delay (length packets)) packets).

(** [lastPacketSize] after the packets [fed] have been sent. *)
Definition last_size (lps : Z) (fed : list AVPacket) : Z :=
  from_option pkt_size lps (last fed).

(** The decoder while it reads a file through an engine that holds back
    [delay] pictures: the pictures of [mid] are in the engine, the
    packets [rest] are still to be read. *)
Definition reading (delay : nat) (base : @VideoDecoder.Impl DelayEngine)
    (mid rest : list AVPacket) (lps : Z) (ldf : option AVFrame)
  : @VideoDecoder.Impl DelayEngine :=
  VideoDecoder.update base (Item_packet <$> rest)
                      (mkDelayEngine (pkt_picture <$> mid) false delay)
                      false lps ldf.

(** The live decoder while it reads a stream through an engine that
    holds back [delay] pictures: the pictures of [mid] are in the engine,
    the packets [rest] are still to come. *)
Definition live_reading (delay : nat) (base : @StreamDecoder.Impl DelayEngine)
    (mid rest : list AVPacket) (lps : Z) (buf : list FrameInfo)
  : @StreamDecoder.Impl DelayEngine :=
  StreamDecoder.update base (StreamDecoder.Live_packet <$> rest)
                       (mkDelayEngine (pkt_picture <$> mid) false delay)
                       true lps buf.

(** The frame made of the picture of packet [p] when packet [q] was the
    last one read. *)
Definition lagging_frame (codec : AVCodecID) (time_base : AVRational)
    (indeterminate : bool * Z) (p q : AVPacket) : FrameInfo :=
  frame_info codec time_base (pkt_size q) indeterminate (pkt_picture p).

(** The demuxer items the decoder does not skip: read errors and the
    packets of the video stream. *)
Definition on_video_stream (videoStreamIndex : Z) (item : demux_item) : bool :=
  match item with
  | Item_packet p => stream_index p =? videoStreamIndex
  | Item_error _ => true
  end.

Definition video_only (videoStreamIndex : Z) (inp : list demux_item)
  : list demux_item :=
  filter (fun item => on_video_stream videoStreamIndex item = true) inp.

(** The decoder with the packets of the other streams taken out of its
    input. *)
Definition without_other_streams {E : Type} (st : @VideoDecoder.Impl E)
  : @VideoDecoder.Impl E :=
  VideoDecoder.update st
    (video_only (VideoDecoder.videoStreamIndex st) (VideoDecoder.input st))
    (VideoDecoder.codecCtx st) (VideoDecoder.endOfStream st)
    (VideoDecoder.lastPacketSize st) (VideoDecoder.lastDecodedFrame st).

(** ** Concrete inputs *)

Module Inputs.

(** The [n]-th picture of a stream, a P picture with timestamps [n]. *)
Definition picture (n : Z) : AVFrame := mkAVFrame n n AV_PICTURE_TYPE_P 0.

(** The packet that codes it: stream 0, [100 * n] bytes. *)
Definition packet (n : Z) : AVPacket := mkAVPacket 0 (100 * n) (picture n).

(** A file of [packets] on video stream 0 at 30 frames per second, just
    opened with an engine that holds back [delay] pictures. *)
Definition opened (codec : AVCodecID) (delay : nat) (packets : list AVPacket)
  : VideoDecoder.Impl :=
  VideoDecoder.mkImpl (Item_packet <$> packets)
                      (mkDelayEngine [] false delay)
                      codec (mkAVRational 1 30) 0 false 0 None.

(** The same source opened as a live stream. *)
Definition opened_live (codec : AVCodecID) (delay : nat)
    (packets : list AVPacket) : StreamDecoder.Impl :=
  StreamDecoder.mkImpl (StreamDecoder.Live_packet <$> packets)
                       (mkDelayEngine [] false delay)
                       codec (mkAVRational 1 30) 0 true 0 [] 100.

(** What a decoder makes of a picture of the given type and key flag
    that a 10-byte packet coded. *)
Definition decoded_as (codec : AVCodecID) (pict : AVPictureType)
    (key : bool) : FrameInfo :=
  frame_info codec (mkAVRational 1 30) 10 (false, -1)
             (mkAVFrame 0 0 pict (if key then AV_FRAME_FLAG_KEY else 0)).

(** A frame record with the given size and duplicate fields. *)
Definition sized (s : Z) (dup : bool) (group : Z) : FrameInfo :=
  mkFrameInfo 0 0 P_FRAME s 0 false (S754_zero false) dup group.

(** A frame record with the given type and key flag, 10 bytes. *)
Definition typed (t : FrameType) (key : bool) : FrameInfo :=
  mkFrameInfo 0 0 t 10 0 key (S754_zero false) false (-1).

(** A frame record with the given timestamp in seconds and size. *)
Definition at_second (s : Z) (bytes : Z) : FrameInfo :=
  mkFrameInfo s s P_FRAME bytes 0 false (F64.of_int s) false (-1).

(** A pool of one worker on a one-core machine, after task 7 has been
    submitted and the destructor has set [stop_]; and the same pool when
    the destructor returns. *)
Definition pool_stopping : ThreadPool.pool :=
  ThreadPool.mkPool [ThreadPool.Waiting] [7%nat] true 0%N
                    (ThreadPool.Joining 0) [7%nat] [].

Definition pool_destroyed : ThreadPool.pool :=
  ThreadPool.mkPool [ThreadPool.Exited] [] true 0%N
                    (ThreadPool.Joining 1) [7%nat] [7%nat].

(** The same pool while its worker runs task 7, and a pool of one worker
    that has run task 7 and waits for more. *)
Definition pool_running : ThreadPool.pool :=
  ThreadPool.mkPool [ThreadPool.Executing 7%nat] [] true 1%N
                    (ThreadPool.Joining 0) [7%nat] [].

Definition pool_idle : ThreadPool.pool :=
  ThreadPool.mkPool [ThreadPool.Waiting] [] false 0%N
                    ThreadPool.Alive [7%nat] [7%nat].

(** A pool of two workers on a two-core machine to which tasks 1, 2, 3
    and 4 have been submitted: the first worker has run task 1 and waits,
    the second runs task 2, tasks 3 and 4 are queued. *)
Definition pool_busy : ThreadPool.pool :=
  ThreadPool.mkPool [ThreadPool.Waiting; ThreadPool.Executing 2%nat]
                    [3%nat; 4%nat] false 1%N ThreadPool.Alive
                    [1%nat; 2%nat; 3%nat; 4%nat] [1%nat].

(** A pool of one worker to which tasks 1, 2 and 3 have been submitted:
    the worker has run task 1 and runs task 2, task 3 is queued. *)
Definition pool_queued : ThreadPool.pool :=
  ThreadPool.mkPool [ThreadPool.Executing 2%nat] [3%nat] false 1%N
                    ThreadPool.Alive [1%nat; 2%nat; 3%nat] [1%nat].

End Inputs.

(** ** Proof automation *)

(** Closes the cases of a call of [StreamDecoder.readNextFrame]. *)
Ltac effect_cases :=
  match goal with
  | Heq : _ = (_, _) |- _ => injection Heq as <- <-
  end;
  repeat split; simpl; try done; try (by left);
  try (right; by eexists); try (by intros [? ?]);
  try (intros; congruence).
(** * Properties *)

(** ** Machine integers *)

Lemma int_in_range (z : Z) : CInt.in_int z -> CInt.int z = z.
Proof.
  unfold CInt.in_int, CInt.INT_MIN, CInt.INT_MAX, CInt.int, CInt.wrap_signed.
  intros Hz. rewrite Z.mod_small; lia.
Qed.

Lemma int64_in_range (z : Z) : CInt.in_int64 z -> CInt.int64_t z = z.
Proof.
  unfold CInt.in_int64, CInt.int64_t, CInt.wrap_signed.
  intros Hz. rewrite Z.mod_small; lia.
Qed.

Lemma incr_in_range (z : Z) :
  CInt.INT_MIN <= z < CInt.INT_MAX -> CInt.incr z = z + 1.
Proof.
  intros Hz. unfold CInt.incr. apply int_in_range.
  unfold CInt.in_int. lia.
Qed.

(** ** ThreadPool: the number of workers *)

Lemma detectHardwareThreads_pos (hc : N) :
  (1 <= ThreadPool.detectHardwareThreads hc)%N.
Proof.
  unfold ThreadPool.detectHardwareThreads.
  destruct (N.eqb_spec hc 0); lia.
Qed.

Lemma getThreadCount_constructor (hc n : N) :
  ThreadPool.getThreadCount (ThreadPool.ThreadPool hc n)
  = ThreadPool.constructor_numThreads hc n.
Proof.
  unfold ThreadPool.getThreadCount, ThreadPool.ThreadPool. simpl.
  rewrite length_replicate. apply N2Nat.id.
Qed.

(** C10. The pool built for a requested count [n] on a machine reporting
    [hc] hardware threads has [max(1, min(r, hardware))] workers, where
    [r] is the detected count when [n = 0] and [n] otherwise. The formula
    holds with [hardware] read as the detected count
    ([detectHardwareThreads], which is 1 when the machine reports 0) and
    also as the reported count itself. The count is at least 1 and at most
    the detected count. *)
Theorem getThreadCount_is_clamped (hc n : N) :
  let detected := ThreadPool.detectHardwareThreads hc in
  let r := if (n =? 0)%N then detected else n in
  let count := ThreadPool.getThreadCount (ThreadPool.ThreadPool hc n) in
  count = N.max 1 (N.min r detected)
  /\ count = N.max 1 (N.min r hc)
  /\ (1 <= count)%N
  /\ (count <= detected)%N.
Proof.
  intros detected r count.
  assert (Hc : count = N.max (N.min r detected) 1).
  { subst count. rewrite getThreadCount_constructor. reflexivity. }
  pose proof (detectHardwareThreads_pos hc) as Hpos. fold detected in Hpos.
  assert (Hd : detected = if (hc =? 0)%N then 1%N else hc) by reflexivity.
  destruct (N.eqb_spec hc 0) as [Hz | Hnz].
  - subst hc. repeat split; lia.
  - repeat split; lia.
Qed.

(** ** VideoDecoder::readNextFrame *)

Section VideoDecoderFacts.
Context {E : Type} `{DecodeEngine E}.
Variable indeterminate : bool * Z.

(** Once the stream is marked finished, a call returns [None] and leaves
    the decoder as it is. *)
Lemma readNextFrame_finished (st : VideoDecoder.Impl) :
  VideoDecoder.endOfStream st = true ->
  VideoDecoder.readNextFrame indeterminate st = (Returned None, st).
Proof. intros Heos. unfold VideoDecoder.readNextFrame. by rewrite Heos. Qed.

Lemma read_calls_finished (n : nat) (st : VideoDecoder.Impl) :
  VideoDecoder.endOfStream st = true ->
  VideoDecoder.read_calls indeterminate n st = (replicate n (Returned None), st).
Proof.
  intros Heos. induction n as [| n IH]; [done |].
  simpl. rewrite readNextFrame_finished by done. by rewrite IH.
Qed.

(** A call made at the end of input, when the engine asks for more,
    marks the stream finished whatever the engine answers to the flush:
    at most one more frame comes out of the decoder. *)
Lemma readNextFrame_end_of_input (st : VideoDecoder.Impl) (eng1 : E) :
  VideoDecoder.endOfStream st = false ->
  VideoDecoder.input st = [] ->
  avcodec_receive_frame (VideoDecoder.codecCtx st) = (RecvAgain, eng1) ->
  VideoDecoder.endOfStream (VideoDecoder.readNextFrame indeterminate st).2
  = true.
Proof.
  intros Heos Hin Hrecv. unfold VideoDecoder.readNextFrame.
  rewrite Heos, Hin. simpl. rewrite Hrecv.
  destruct (avcodec_send_packet None eng1) as [r2 eng2].
  destruct (avcodec_receive_frame eng2) as [[frame | | | code] eng3]; done.
Qed.

(** Every frame record the loop returns is built by [frame_info] from the
    codec and time base of the decoder. *)
Lemma readNextFrame_loop_frame_info (st : VideoDecoder.Impl)
    (inp : list demux_item) (eng : E) (lps : Z) (ldf : option AVFrame)
    (info : FrameInfo) (st' : VideoDecoder.Impl) :
  VideoDecoder.readNextFrame_loop indeterminate st inp eng lps ldf
  = (Returned (Some info), st') ->
  exists lps' frame,
    info = frame_info (VideoDecoder.codec_id st) (VideoDecoder.time_base st)
                      lps' indeterminate frame.
Proof.
  revert eng lps ldf.
  induction inp as [| item rest IH]; intros eng lps ldf; simpl;
    destruct (avcodec_receive_frame eng) as [[frame | | | code] eng1];
    try (intros [= <- <-]; by eauto); try discriminate.
  - destruct (avcodec_send_packet None eng1) as [r2 eng2].
    destruct (avcodec_receive_frame eng2) as [[frame | | | code] eng3];
      try discriminate.
    intros [= <- <-]; by eauto.
  - destruct item as [packet | code]; [| discriminate].
    destruct (negb _); [by apply IH |].
    destruct (avcodec_send_packet (Some packet) eng1) as [[| | code] eng2];
      try discriminate; by apply IH.
Qed.

Lemma readNextFrame_frame_info (st st' : VideoDecoder.Impl)
    (info : FrameInfo) :
  VideoDecoder.readNextFrame indeterminate st = (Returned (Some info), st') ->
  exists lps' frame,
    info = frame_info (VideoDecoder.codec_id st) (VideoDecoder.time_base st)
                      lps' indeterminate frame.
Proof.
  unfold VideoDecoder.readNextFrame.
  destruct (VideoDecoder.endOfStream st); [discriminate |].
  apply readNextFrame_loop_frame_info.
Qed.

Lemma stream_readNextFrame_frame_info (st st' : StreamDecoder.Impl)
    (info : FrameInfo) :
  StreamDecoder.readNextFrame indeterminate st = (Some info, st') ->
  exists lps' frame,
    info = frame_info (StreamDecoder.codec_id st)
                      (StreamDecoder.time_base st) lps' indeterminate frame.
Proof.
  unfold StreamDecoder.readNextFrame.
  destruct (negb _); [discriminate |].
  destruct (avcodec_receive_frame _) as [[frame | | | code] eng1];
    try discriminate.
  - intros [= <- <-]; by eauto.
  - destruct (StreamDecoder.input st) as [| [packet | | code] rest];
      try discriminate.
    destruct (negb _); [discriminate |].
    destruct (avcodec_send_packet _ _) as [[| | code] eng2];
      try discriminate;
      destruct (avcodec_receive_frame eng2) as [[frame | | | code'] eng3];
      try discriminate; intros [= <- <-]; by eauto.
Qed.

End VideoDecoderFacts.

(** C1, on the code. A file of three video packets is read with an engine
    that holds back two pictures. The first call feeds the three packets
    and returns picture 1. The second call meets the end of input, sends
    the flush signal, marks the stream finished and returns picture 2.
    Every later call returns [None], while picture 3 is still held by the
    engine: it is never returned. *)
Theorem readNextFrame_leaves_held_picture (indeterminate : bool * Z) :
  let st0 := Inputs.opened AV_CODEC_ID_H264 2
               [Inputs.packet 1; Inputs.packet 2; Inputs.packet 3] in
  let info n := frame_info AV_CODEC_ID_H264 (mkAVRational 1 30) 300
                           indeterminate (Inputs.picture n) in
  let run := VideoDecoder.read_calls indeterminate 4 st0 in
  run.1 = [Returned (Some (info 1)); Returned (Some (info 2));
           Returned None; Returned None]
  /\ VideoDecoder.endOfStream run.2 = true
  /\ held (VideoDecoder.codecCtx run.2) = [Inputs.picture 3]
  /\ draining (VideoDecoder.codecCtx run.2) = true.
Proof. destruct indeterminate as [b g]. vm_compute. done. Qed.

(** ** Loops *)

(** The induction principle of a [for] loop: a property that holds on
    entry and that every turn carries from [i] to [i + 1] holds on exit. *)
Lemma for_range_ind {S : Type} (P : nat -> S -> Prop) (a b : nat)
    (body : nat -> S -> S) (s : S) :
  (a <= b)%nat ->
  P a s ->
  (forall i t, (a <= i < b)%nat -> P i t -> P (Datatypes.S i) (body i t)) ->
  P b (for_range a b body s).
Proof.
  intros Hab Ha Hstep. unfold for_range.
  remember (b - a)%nat as n eqn:Hn.
  assert (Hb : b = (a + n)%nat) by lia. subst b. clear Hn Hab.
  revert a s Ha Hstep. induction n as [| n IH]; intros a s Ha Hstep.
  - by rewrite Nat.add_0_r.
  - simpl. replace (a + Datatypes.S n)%nat with (Datatypes.S a + n)%nat by lia.
    apply IH.
    + apply Hstep; [lia | done].
    + intros i t Hi. apply Hstep. lia.
Qed.

(** ** The quantization parameter and the quality rule *)

Lemma frame_info_qp (codec : AVCodecID) (tb : AVRational) (lps : Z)
    (indet : bool * Z) (frame : AVFrame) :
  qp (frame_info codec tb lps indet frame)
  = if decide (codec = AV_CODEC_ID_AV1) then 128 else 0.
Proof. reflexivity. Qed.

Lemma decoded_frame_qp (codec : AVCodecID) (info : FrameInfo) :
  decoded_frame codec info ->
  qp info = if decide (codec = AV_CODEC_ID_AV1) then 128 else 0.
Proof.
  intros [E eng indet st st' Hc Hread | E eng indet st st' Hc Hread].
  - apply readNextFrame_frame_info in Hread as (lps & frame & ->).
    by rewrite frame_info_qp, Hc.
  - apply stream_readNextFrame_frame_info in Hread as (lps & frame & ->).
    by rewrite frame_info_qp, Hc.
Qed.

Section AnomalyFacts.
Variable to_string_double : spec_float -> string.
Local Abbreviation run := StreamAnalyzer.run.

Lemma of_type_snoc (t : AnomalyType) (l : list Anomaly) (a : Anomaly) :
  of_type t (l ++ [a]) = of_type t l ++ (if decide (a_type a = t) then [a] else []).
Proof.
  unfold of_type. by rewrite filter_app.
Qed.

Lemma report_calls (a : Anomaly) (r : run) :
  StreamAnalyzer.anomaly_calls (StreamAnalyzer.report a r)
  = StreamAnalyzer.anomaly_calls r ++ [a].
Proof. reflexivity. Qed.

Lemma frame_drop_rule_quality (frame : FrameInfo) (r : run) :
  of_type QUALITY_DROP
    (StreamAnalyzer.anomaly_calls
       (StreamAnalyzer.frame_drop_rule to_string_double frame r))
  = of_type QUALITY_DROP (StreamAnalyzer.anomaly_calls r).
Proof.
  unfold StreamAnalyzer.frame_drop_rule.
  destruct (StreamAnalyzer.previousFrame_ _); [| done].
  destruct (F64.gtb _ _); [| done].
  rewrite report_calls, of_type_snoc. simpl. by rewrite app_nil_r.
Qed.

Lemma bitrate_spike_rule_quality (frame : FrameInfo) (r : run) :
  of_type QUALITY_DROP
    (StreamAnalyzer.anomaly_calls (StreamAnalyzer.bitrate_spike_rule frame r))
  = of_type QUALITY_DROP (StreamAnalyzer.anomaly_calls r).
Proof.
  unfold StreamAnalyzer.bitrate_spike_rule.
  destruct (StreamAnalyzer.previousFrame_ _); [| done].
  destruct (F64.gtb _ _); [| done].
  rewrite report_calls, of_type_snoc. simpl. by rewrite app_nil_r.
Qed.

(** C6. A frame that either decoder returned carries the quantization
    parameter 128 on an AV1 stream and 0 on a stream of any other codec.
    Hence [detectAnomalies] reports a quality drop for the frame exactly
    when the stream is AV1: the quality-drop reports after the call are
    those before it, followed on AV1 by one report for this frame. *)
Theorem qp_is_fixed_by_codec (codec : AVCodecID) (info : FrameInfo) (r : run) :
  decoded_frame codec info ->
  qp info = (if decide (codec = AV_CODEC_ID_AV1) then 128 else 0)
  /\ of_type QUALITY_DROP
       (StreamAnalyzer.anomaly_calls
          (StreamAnalyzer.detectAnomalies to_string_double info r))
     = of_type QUALITY_DROP (StreamAnalyzer.anomaly_calls r)
       ++ (if decide (codec = AV_CODEC_ID_AV1)
           then [mkAnomaly QUALITY_DROP (timestamp info)
                           "Quality drop detected: QP=128"]
           else []).
Proof.
  intros Hdec. pose proof (decoded_frame_qp _ _ Hdec) as Hqp.
  split; [done |].
  unfold StreamAnalyzer.detectAnomalies, StreamAnalyzer.quality_drop_rule.
  rewrite Hqp. destruct (decide (codec = AV_CODEC_ID_AV1)); simpl.
  - rewrite of_type_snoc. simpl.
    by rewrite bitrate_spike_rule_quality, frame_drop_rule_quality.
  - rewrite app_nil_r.
    by rewrite bitrate_spike_rule_quality, frame_drop_rule_quality.
Qed.

End AnomalyFacts.

(** On an AV1 live stream the first frame read is reported as a quality
    drop. *)
Lemma qp_is_fixed_by_codec_witness :
  let info := frame_info AV_CODEC_ID_AV1 (mkAVRational 1 30) 100 (false, -1)
                         (Inputs.picture 1) in
  decoded_frame AV_CODEC_ID_AV1 info
  /\ qp info = 128
  /\ of_type QUALITY_DROP
       (StreamAnalyzer.anomaly_calls
          (StreamAnalyzer.detectAnomalies (fun _ => "") info
                                          StreamAnalyzer.initial))
     = [mkAnomaly QUALITY_DROP (timestamp info) "Quality drop detected: QP=128"].
Proof.
  intros info.
  assert (Hdec : decoded_frame AV_CODEC_ID_AV1 info).
  { eapply (decoded_by_stream _ _ DelayEngine _ (false, -1)
              (Inputs.opened_live AV_CODEC_ID_AV1 0 [Inputs.packet 1]));
      reflexivity. }
  split; [exact Hdec |].
  exact (qp_is_fixed_by_codec (fun _ => "") AV_CODEC_ID_AV1 info
                              StreamAnalyzer.initial Hdec).
Defined.

(** ** VideoAnalyzer::detectDuplicateFrames *)

Section DuplicateFacts.
Import VideoAnalyzer.
Variable size_tolerance : spec_float.
Variables require_same_qp require_same_type : bool.

Local Abbreviation step := (compare_step size_tolerance require_same_qp require_same_type).
Local Abbreviation rule := (matches size_tolerance require_same_qp require_same_type).

(** A write to the duplicate fields of one element leaves the content
    of the vector as it is. *)
Lemma reset_alter (g : FrameInfo -> FrameInfo) (i : nat) (l : list FrameInfo) :
  (forall f, reset_frame (g f) = reset_frame f) ->
  reset_frame <$> alter g i l = reset_frame <$> l.
Proof.
  intros Hg. revert i. induction l as [| x l IH]; intros [| i]; csimpl; try done.
  - by rewrite Hg.
  - by rewrite IH.
Qed.

Lemma compare_step_content (i : nat) (s : list FrameInfo * Z) :
  reset_frame <$> (step i s).1 = reset_frame <$> s.1.
Proof.
  destruct s as [frames_ c]. unfold compare_step.
  destruct (frames_ !! (i - 1)%nat) as [prev |]; [| done].
  destruct (frames_ !! i) as [current |]; [| done].
  destruct (matches _ _ _ _ _); [| done]. simpl.
  rewrite reset_alter by done.
  destruct (group_at _ _ =? -1); rewrite ?reset_alter; done.
Qed.

(** The rule reads the size, the QP and the type only. *)
Lemma matches_content (a a' b b' : FrameInfo) :
  reset_frame a = reset_frame a' -> reset_frame b = reset_frame b' ->
  rule a b = rule a' b'.
Proof.
  intros Ha Hb.
  assert (size a = size a' /\ qp a = qp a' /\ type a = type a') as (Hs & Hq & Ht).
  { change (size (reset_frame a) = size (reset_frame a')
            /\ qp (reset_frame a) = qp (reset_frame a')
            /\ type (reset_frame a) = type (reset_frame a')).
    by rewrite Ha. }
  assert (size b = size b' /\ qp b = qp b' /\ type b = type b') as (Hs' & Hq' & Ht').
  { change (size (reset_frame b) = size (reset_frame b')
            /\ qp (reset_frame b) = qp (reset_frame b')
            /\ type (reset_frame b) = type (reset_frame b')).
    by rewrite Hb. }
  unfold matches, sizeMatch, qpMatch, typeMatch.
  by rewrite Hs, Hq, Ht, Hs', Hq', Ht'.
Qed.

Lemma reset_twice (l : list FrameInfo) :
  reset_frame <$> (reset_frame <$> l) = reset_frame <$> l.
Proof. rewrite <- list_fmap_compose. apply list_fmap_ext. by intros _ f _. Qed.

Lemma detect_content (frames_ : list FrameInfo) :
  same_content (detect size_tolerance require_same_qp require_same_type frames_).1 frames_.
Proof.
  unfold same_content, detect. destruct frames_ as [| f0 rest]; [done |].
  set (F := f0 :: rest).
  apply (for_range_ind (fun _ s => reset_frame <$> s.1 = reset_frame <$> F)).
  - simpl. lia.
  - exact (reset_twice F).
  - intros i t _ Ht. by rewrite compare_step_content.
Qed.

Lemma same_content_length (a b : list FrameInfo) :
  same_content a b -> length a = length b.
Proof.
  intros Hab. rewrite <- (length_fmap reset_frame a), Hab. apply length_fmap.
Qed.

(** The run depends on the content of the frames only, not on the
    duplicate fields they come with. *)
Lemma detect_same_content (a b : list FrameInfo) :
  same_content a b ->
  detect size_tolerance require_same_qp require_same_type a
  = detect size_tolerance require_same_qp require_same_type b.
Proof.
  intros Hab. pose proof (same_content_length _ _ Hab) as Hlen.
  unfold detect. destruct a as [| a0 a'], b as [| b0 b']; try done.
  by rewrite Hlen, Hab.
Qed.

(** What a turn of the loop does when the rule matches the frames at
    [i - 1] and [i]: it writes these two elements and no other. The
    element at [i] is flagged. The element at [i - 1] is left alone when
    it is in a group already, and else flagged and given the current
    group id. Both the group given to the element at [i] and the test
    that guards [currentGroupId++] read the element at [i - 1] after
    that write. *)
Lemma compare_step_match (i : nat) (frames_ : list FrameInfo) (c : Z)
    (prev current : FrameInfo) :
  (1 <= i)%nat ->
  frames_ !! (i - 1)%nat = Some prev ->
  frames_ !! i = Some current ->
  rule prev current = true ->
  exists prev' current',
    (step i (frames_, c)).1 !! (i - 1)%nat = Some prev'
    /\ (step i (frames_, c)).1 !! i = Some current'
    /\ (forall j, j <> i -> j <> (i - 1)%nat ->
                  (step i (frames_, c)).1 !! j = frames_ !! j)
    /\ isDuplicate current' = true
    /\ (duplicateGroupId prev <> -1 -> prev' = prev)
    /\ (duplicateGroupId prev = -1 ->
        isDuplicate prev' = true /\ duplicateGroupId prev' = c)
    /\ duplicateGroupId current'
       = (if duplicateGroupId prev' =? -1 then c else duplicateGroupId prev')
    /\ (step i (frames_, c)).2
       = (if duplicateGroupId prev' =? -1 then CInt.incr c else c).
Proof.
  intros Hi Hprev Hcur Hrule. unfold compare_step.
  rewrite Hprev, Hcur, Hrule. cbv zeta.
  assert (Hne : i <> (i - 1)%nat) by lia.
  assert (Hg1 : group_at (alter (set_isDuplicate true) i frames_) (i - 1)
                = duplicateGroupId prev).
  { unfold group_at. by rewrite list_lookup_alter_ne, Hprev. }
  rewrite Hg1.
  destruct (Z.eqb_spec (duplicateGroupId prev) (-1)) as [Hm | Hm].
  - (* the element at i - 1 is in no group *)
    set (frames2 := alter (set_duplicateGroupId c) (i - 1)%nat
                      (alter (set_isDuplicate true) (i - 1)%nat
                         (alter (set_isDuplicate true) i frames_))).
    assert (H2 : frames2 !! (i - 1)%nat
                 = Some (set_duplicateGroupId c (set_isDuplicate true prev))).
    { unfold frames2.
      by rewrite !list_lookup_alter_eq, list_lookup_alter_ne, Hprev. }
    assert (Hg2 : group_at frames2 (i - 1) = c).
    { unfold group_at. by rewrite H2. }
    assert (Hg3 : forall g, group_at (alter (set_duplicateGroupId g) i frames2)
                                     (i - 1) = c).
    { intros g. unfold group_at. by rewrite list_lookup_alter_ne, H2. }
    rewrite Hg2, Hg3.
    exists (set_duplicateGroupId c (set_isDuplicate true prev)).
    eexists. cbn [fst snd].
    split; [by rewrite list_lookup_alter_ne, H2 |].
    split.
    { rewrite list_lookup_alter_eq. unfold frames2.
      rewrite !list_lookup_alter_ne by lia.
      by rewrite list_lookup_alter_eq, Hcur. }
    split.
    { intros j Hj Hj'. unfold frames2.
      by rewrite !list_lookup_alter_ne by lia. }
    repeat split; try done.
    simpl. by destruct (c =? -1).
  - (* the element at i - 1 is in a group *)
    assert (Hg3 : forall g,
               group_at (alter (set_duplicateGroupId g) i
                           (alter (set_isDuplicate true) i frames_)) (i - 1)
               = duplicateGroupId prev).
    { intros g. unfold group_at.
      by rewrite !list_lookup_alter_ne, Hprev by lia. }
    rewrite Hg3, !Hg1.
    destruct (Z.eqb_spec (duplicateGroupId prev) (-1)) as [| _]; [done |].
    exists prev. eexists. cbn [fst snd negb].
    split; [by rewrite !list_lookup_alter_ne by lia |].
    split; [by rewrite !list_lookup_alter_eq, Hcur |].
    split; [intros j Hj Hj'; by rewrite !list_lookup_alter_ne by lia |].
    repeat split; try done;
      by destruct (Z.eqb_spec (duplicateGroupId prev) (-1)).
Qed.

Lemma compare_step_no_match (i : nat) (frames_ : list FrameInfo) (c : Z)
    (prev current : FrameInfo) :
  frames_ !! (i - 1)%nat = Some prev ->
  frames_ !! i = Some current ->
  rule prev current = false ->
  step i (frames_, c) = (frames_, c).
Proof. intros Hprev Hcur Hrule. unfold compare_step. by rewrite Hprev, Hcur, Hrule. Qed.

Local Abbreviation pairs := (pair_matches size_tolerance require_same_qp require_same_type).
Local Abbreviation seen := (paired_before size_tolerance require_same_qp require_same_type).

Lemma paired_before_first (F : list FrameInfo) (j : nat) : seen F 1%nat j = false.
Proof.
  unfold paired_before. destruct j as [| j'].
  - rewrite bool_decide_eq_false_2 by lia. done.
  - rewrite !bool_decide_eq_false_2 by lia. done.
Qed.

Lemma paired_before_all (F : list FrameInfo) (j : nat) :
  (j < length F)%nat ->
  seen F (length F) j = paired size_tolerance require_same_qp require_same_type F j.
Proof.
  intros Hj. unfold paired_before, paired. f_equal.
  - destruct j as [| j']; [done |]. by rewrite bool_decide_eq_true_2 by lia.
  - destruct (decide (j + 1 < length F)%nat) as [Hlt | Hge].
    + by rewrite bool_decide_eq_true_2.
    + rewrite bool_decide_eq_false_2 by done. unfold pair_matches.
      rewrite (lookup_ge_None_2 F (j + 1)) by lia.
      by destruct (F !! j).
Qed.

Lemma paired_before_other (F : list FrameInfo) (k j : nat) :
  (1 <= k)%nat -> j <> k -> j <> (k - 1)%nat ->
  seen F (S k) j = seen F k j.
Proof.
  intros Hk Hj Hj'. unfold paired_before. f_equal.
  - destruct j as [| j']; [done |]. f_equal. apply bool_decide_ext. lia.
  - f_equal. apply bool_decide_ext. lia.
Qed.

Lemma paired_before_no_match (F : list FrameInfo) (k j : nat) :
  (1 <= k)%nat -> pairs F (k - 1)%nat = false ->
  seen F (S k) j = seen F k j.
Proof.
  intros Hk Hno.
  destruct (decide (j = k)) as [-> | Hj];
    [| destruct (decide (j = (k - 1)%nat)) as [-> | Hj']].
  - unfold paired_before. destruct k as [| k']; [lia |].
    replace (S k' - 1)%nat with k' in Hno by lia. rewrite Hno.
    rewrite !andb_false_r. f_equal. f_equal. apply bool_decide_ext. lia.
  - unfold paired_before. rewrite Hno, !andb_false_r, !orb_false_r.
    destruct (k - 1)%nat as [| j'] eqn:Hk1; [done |].
    f_equal. apply bool_decide_ext. lia.
  - by apply paired_before_other.
Qed.

Lemma paired_before_match_second (F : list FrameInfo) (k : nat) :
  (1 <= k)%nat -> pairs F (k - 1)%nat = true -> seen F (S k) k = true.
Proof.
  intros Hk Hyes. unfold paired_before. destruct k as [| k']; [lia |].
  replace (S k' - 1)%nat with k' in Hyes by lia.
  by rewrite Hyes, bool_decide_eq_true_2 by lia.
Qed.

Lemma paired_before_match_first (F : list FrameInfo) (k : nat) :
  (1 <= k)%nat -> pairs F (k - 1)%nat = true -> seen F (S k) (k - 1)%nat = true.
Proof.
  intros Hk Hyes. unfold paired_before.
  rewrite Hyes, (bool_decide_eq_true_2 (k - 1 + 1 < S k)%nat) by lia.
  apply orb_true_r.
Qed.

Local Abbreviation loop_state := (VideoAnalyzer.loop_state size_tolerance require_same_qp require_same_type).

Lemma lookup_same_content (a b : list FrameInfo) (j : nat) (x : FrameInfo) :
  same_content a b -> a !! j = Some x ->
  exists y, b !! j = Some y /\ reset_frame x = reset_frame y.
Proof.
  intros Hab Hx.
  assert (Hl : (reset_frame <$> b) !! j = Some (reset_frame x)).
  { rewrite <- Hab, list_lookup_fmap, Hx. done. }
  rewrite list_lookup_fmap in Hl.
  destruct (b !! j) as [y |]; [| done].
  exists y. split; [done |]. simpl in Hl. congruence.
Qed.

Lemma loop_state_step (F : list FrameInfo) (k : nat) (s : list FrameInfo * Z) :
  (1 <= k < length F)%nat ->
  loop_state F k s -> loop_state F (S k) (step k s).
Proof.
  intros Hk (Hc & Hcontent & Hflags). destruct s as [frames_ c].
  simpl in Hc, Hcontent, Hflags. subst c.
  assert (Hlen : length frames_ = length F).
  { by apply same_content_length. }
  destruct (lookup_lt_is_Some_2 frames_ (k - 1)) as [prev Hprev]; [lia |].
  destruct (lookup_lt_is_Some_2 frames_ k) as [current Hcur]; [lia |].
  destruct (lookup_same_content _ _ _ _ Hcontent Hprev) as (p0 & Hp0 & Hrp).
  destruct (lookup_same_content _ _ _ _ Hcontent Hcur) as (c0 & Hc0 & Hrc).
  assert (Hpair : pairs F (k - 1)%nat = rule prev current).
  { unfold pair_matches. replace (k - 1 + 1)%nat with k by lia.
    rewrite Hp0, Hc0. symmetry. by apply matches_content. }
  destruct (rule prev current) eqn:Hrule.
  - (* the rule matches *)
    destruct (compare_step_match k frames_ 0 prev current)
      as (prev' & current' & Hl1 & Hl2 & Hl3 & Hd & Hkeep & Hnew & Hg & Hc');
      [lia | done | done | done |].
    destruct (Hflags _ _ Hprev) as [Hfp Hgp].
    assert (Hprev' : isDuplicate prev' = true /\ duplicateGroupId prev' = 0).
    { destruct (decide (duplicateGroupId prev = -1)) as [Hm | Hm].
      - by apply Hnew.
      - rewrite (Hkeep Hm). destruct (isDuplicate prev); done. }
    destruct Hprev' as [Hdp' Hgp'].
    split; [| split].
    + rewrite Hc', Hgp'. done.
    + by rewrite compare_step_content.
    + intros j f Hj.
      destruct (decide (j = k)) as [-> | Hjk];
        [| destruct (decide (j = (k - 1)%nat)) as [-> | Hjk']].
      * rewrite Hl2 in Hj. injection Hj as <-.
        rewrite Hd, Hg, Hgp', paired_before_match_second by (lia || done).
        done.
      * rewrite Hl1 in Hj. injection Hj as <-.
        rewrite Hdp', Hgp', paired_before_match_first by (lia || done).
        done.
      * rewrite Hl3 in Hj by done.
        rewrite paired_before_other by (lia || done). by apply Hflags.
  - (* the rule does not match *)
    rewrite (compare_step_no_match k frames_ 0 prev current) by done.
    split; [done | split; [done |]].
    intros j f Hj. rewrite paired_before_no_match by (lia || done).
    by apply Hflags.
Qed.

(** What the function computes: the frame at [j] ends flagged exactly
    when the rule pairs it with the frame before or after it, and every
    flagged frame ends in group 0; [currentGroupId] is 0 at the end. The
    other fields of the frames are not written. *)
Lemma detect_spec (F : list FrameInfo) :
  let R := detect size_tolerance require_same_qp require_same_type F in
  R.2 = 0
  /\ same_content R.1 F
  /\ forall j r, R.1 !! j = Some r ->
       isDuplicate r = paired size_tolerance require_same_qp require_same_type F j
       /\ duplicateGroupId r = (if isDuplicate r then 0 else -1).
Proof.
  intros R. split; [| split; [apply detect_content |]].
  - subst R. unfold detect. destruct F as [| f0 rest]; [done |].
    set (F := f0 :: rest).
    apply (for_range_ind (loop_state F)); [simpl; lia | | ].
    + split; [done | split; [exact (reset_twice F) |]].
      cbn [fst]. intros j f Hj. rewrite paired_before_first.
      apply list_lookup_fmap_Some in Hj as (f' & -> & _). done.
    + intros i t Hi Ht. by apply loop_state_step.
  - intros j r Hj. subst R. revert Hj. unfold detect.
    destruct F as [| f0 rest]; [done |]. set (F := f0 :: rest). intros Hj.
    assert (Hst : loop_state F (length F)
              (for_range 1 (length F) step (reset_frame <$> F, 0))).
    { apply (for_range_ind (loop_state F)); [simpl; lia | | ].
      + split; [done | split; [exact (reset_twice F) |]].
        cbn [fst]. intros j' f Hj'. rewrite paired_before_first.
        apply list_lookup_fmap_Some in Hj' as (f' & -> & _). done.
      + intros i t Hi Ht. by apply loop_state_step. }
    destruct Hst as (_ & Hcontent & Hflags).
    destruct (Hflags _ _ Hj) as [Hd Hg]. split; [| done].
    rewrite Hd. apply paired_before_all.
    apply lookup_lt_Some in Hj.
    by rewrite (same_content_length _ _ Hcontent) in Hj.
Qed.


Lemma detect_flags (F : list FrameInfo) :
  flags (detectDuplicateFrames size_tolerance require_same_qp
                               require_same_type F)
  = flags_by_rule size_tolerance require_same_qp require_same_type F.
Proof.
  destruct (detect_spec F) as (_ & Hcontent & Hflags).
  pose proof (same_content_length _ _ Hcontent) as Hlen.
  unfold detectDuplicateFrames, flags, flags_by_rule.
  apply list_eq. intros j. rewrite !list_lookup_fmap.
  destruct (decide (j < length F)%nat) as [Hlt | Hge].
  - rewrite lookup_seq_lt by done. simpl.
    destruct (lookup_lt_is_Some_2
                (detect size_tolerance require_same_qp require_same_type F).1 j)
      as [r Hr]; [lia |].
    rewrite Hr. simpl. destruct (Hflags _ _ Hr) as [Hd Hg].
    by rewrite Hg, Hd.
  - rewrite lookup_seq_ge by lia.
    by rewrite (lookup_ge_None_2 _ j) by lia.
Qed.

End DuplicateFacts.

(** C4. Running the detection again on its own result, with the same
    configuration, gives that result again, flags and group ids included.
    The result is that of the run on the frames with their flags reset,
    so it is also the result after any earlier run, whatever the
    configuration of that run was. *)
Theorem detectDuplicateFrames_idempotent (size_tolerance : spec_float)
    (require_same_qp require_same_type : bool) (frames_ : list FrameInfo) :
  let detect_ := VideoAnalyzer.detectDuplicateFrames
                   size_tolerance require_same_qp require_same_type in
  detect_ (detect_ frames_) = detect_ frames_
  /\ VideoAnalyzer.flags (detect_ (detect_ frames_))
     = VideoAnalyzer.flags (detect_ frames_)
  /\ detect_ (VideoAnalyzer.reset_frame <$> frames_) = detect_ frames_
  /\ forall (tolerance' : spec_float) (same_qp' same_type' : bool),
       detect_ (VideoAnalyzer.detectDuplicateFrames tolerance' same_qp'
                                                    same_type' frames_)
       = detect_ frames_.
Proof.
  intros detect_.
  assert (Hprior : forall tolerance' same_qp' same_type',
             detect_ (VideoAnalyzer.detectDuplicateFrames tolerance' same_qp'
                                                          same_type' frames_)
             = detect_ frames_).
  { intros tolerance' same_qp' same_type'. subst detect_.
    unfold VideoAnalyzer.detectDuplicateFrames. f_equal.
    apply detect_same_content, detect_content. }
  repeat split.
  - apply Hprior.
  - f_equal. apply Hprior.
  - subst detect_. unfold VideoAnalyzer.detectDuplicateFrames. f_equal.
    apply detect_same_content. apply reset_twice.
  - apply Hprior.
Qed.

(** C7, on the code. For four frames of sizes 1000, 1005, 1200 and 1203,
    whatever their other fields, a run with tolerance 1.0 and neither QP
    nor type required flags all four frames and puts all four in group 0:
    the second pair does not get a group id of its own, and the group
    counter is still 0 at the end. *)
Theorem scenario_C_single_group (f0 f1 f2 f3 : FrameInfo) :
  let frames_ := [set_size 1000 f0; set_size 1005 f1;
                  set_size 1200 f2; set_size 1203 f3] in
  let run := VideoAnalyzer.detect (F32.of_int 1) false false frames_ in
  VideoAnalyzer.flags run.1 = [(true, 0); (true, 0); (true, 0); (true, 0)]
  /\ run.2 = 0.
Proof.
  destruct f0, f1, f2, f3. vm_compute. done.
Qed.

(** C3, as stated, fails. Two frames of 1000 and 1005 bytes are flagged
    as duplicates by a run with tolerance 1.0. A run on the result with
    the negative tolerance -1.0 is carried out: it clears the flag and the
    group id of both frames. *)
Lemma negative_tolerance_is_carried_out :
  let tolerance := F32.of_int (-1) in
  let flagged := VideoAnalyzer.detectDuplicateFrames (F32.of_int 1) true true
                   [Inputs.sized 1000 false (-1); Inputs.sized 1005 false (-1)] in
  SFltb tolerance (S754_zero false) = true
  /\ VideoAnalyzer.flags flagged = [(true, 0); (true, 0)]
  /\ VideoAnalyzer.flags
       (VideoAnalyzer.detectDuplicateFrames tolerance true true flagged)
     = [(false, -1); (false, -1)]
  /\ VideoAnalyzer.flags
       (VideoAnalyzer.detectDuplicateFrames tolerance true true flagged)
     <> VideoAnalyzer.flags flagged.
Proof. vm_compute. repeat split; discriminate. Qed.

(** C3, amended. The function checks none of its arguments. For every
    tolerance, negative values, infinities and NaN included, the call is
    carried out like any other: the frames keep their number and every
    field but the two duplicate fields, and a frame ends flagged exactly
    when the matching rule, evaluated with that tolerance, pairs it with
    the frame before or after it. *)
Theorem detectDuplicateFrames_any_tolerance (size_tolerance : spec_float)
    (require_same_qp require_same_type : bool) (frames_ : list FrameInfo) :
  let after := VideoAnalyzer.detectDuplicateFrames
                 size_tolerance require_same_qp require_same_type frames_ in
  length after = length frames_
  /\ VideoAnalyzer.same_content after frames_
  /\ isDuplicate <$> after
     = VideoAnalyzer.paired size_tolerance require_same_qp require_same_type
                            frames_ <$> seq 0 (length frames_).
Proof.
  intros after.
  assert (Hcontent : VideoAnalyzer.same_content after frames_)
    by apply detect_content.
  split; [by apply same_content_length | split; [done |]].
  pose proof (detect_flags size_tolerance require_same_qp require_same_type
                           frames_) as Hflags.
  fold after in Hflags.
  apply (f_equal (fmap fst)) in Hflags.
  unfold VideoAnalyzer.flags, VideoAnalyzer.flags_by_rule in Hflags.
  rewrite <- !list_fmap_compose in Hflags. exact Hflags.
Qed.

(** ** GOPAnalyzer::detectGOPBoundaries *)

Section GOPFacts.
Import GOPAnalyzer.

Lemma count_type_app (t : FrameType) (l k : list FrameInfo) :
  count_type t (l ++ k) = (count_type t l + count_type t k)%nat.
Proof. unfold count_type. by rewrite filter_app, length_app. Qed.

Lemma count_type_one (t : FrameType) (f : FrameInfo) :
  count_type t [f] = if decide (type f = t) then 1%nat else 0%nat.
Proof.
  unfold count_type. rewrite filter_cons, filter_nil.
  by destruct (decide (type f = t)).
Qed.

(** Every frame has one of the four types. *)
Lemma count_type_total (l : list FrameInfo) :
  (count_type I_FRAME l + count_type P_FRAME l + count_type B_FRAME l
   + count_type UNKNOWN l)%nat = length l.
Proof.
  induction l as [| f l IH]; [done |].
  change (f :: l) with ([f] ++ l). rewrite !count_type_app, !count_type_one.
  rewrite length_app. simpl length. rewrite <- IH.
  destruct (type f); simpl; lia.
Qed.

Lemma count_type_le (t : FrameType) (l : list FrameInfo) :
  (count_type t l <= length l)%nat.
Proof. apply length_filter. Qed.

Lemma slice_length (frames : list FrameInfo) (a b : nat) :
  (a <= b <= length frames)%nat -> length (slice frames a b) = (b - a)%nat.
Proof. intros Hab. unfold slice. rewrite length_take, length_drop. lia. Qed.

Lemma slice_snoc (frames : list FrameInfo) (a j : nat) (f : FrameInfo) :
  (a <= j)%nat -> frames !! j = Some f ->
  slice frames a (S j) = slice frames a j ++ [f].
Proof.
  intros Haj Hf. unfold slice.
  replace (S j - a)%nat with (S (j - a)) by lia.
  apply take_S_r. rewrite lookup_drop. by replace (a + (j - a))%nat with j by lia.
Qed.

Lemma slice_empty (frames : list FrameInfo) (a : nat) : slice frames a a = [].
Proof. unfold slice. by rewrite Nat.sub_diag. Qed.


Lemma sum_frameCount_snoc (gops : list GOPInfo) (g : GOPInfo) :
  sum_frameCount (gops ++ [g]) = sum_frameCount gops + frameCount g.
Proof.
  unfold sum_frameCount. induction gops as [| h gops IH]; simpl; lia.
Qed.

Lemma sum_uncounted_snoc (gops : list GOPInfo) (g : GOPInfo) :
  sum_uncounted (gops ++ [g]) = sum_uncounted gops + uncounted g.
Proof.
  unfold sum_uncounted. induction gops as [| h gops IH]; simpl; lia.
Qed.

Lemma detectGOPBoundaries_unfold (fs : list FrameInfo) (gops : list GOPInfo) :
  fs <> [] ->
  detectGOPBoundaries fs gops
  = let s := for_range 1 (length fs) (boundary_step fs) (mkScan gops 0 0) in
    if (gopStart_ s <? length fs)%nat
    then gops_ s ++ [make_gop fs (gopIndex_ s) (gopStart_ s) (length fs)]
    else gops_ s.
Proof. by destruct fs. Qed.

Variable frames : list FrameInfo.
Hypothesis frames_fit : Z.of_nat (length frames) <= CInt.INT_MAX.

(** The counting loop counts the frames of each type in its range. *)
Lemma make_gop_counts (index : Z) (a b : nat) :
  (a <= b <= length frames)%nat ->
  let g := make_gop frames index a b in
  frameCount g = Z.of_nat (b - a)
  /\ iFrameCount g = Z.of_nat (count_type I_FRAME (slice frames a b))
  /\ pFrameCount g = Z.of_nat (count_type P_FRAME (slice frames a b))
  /\ bFrameCount g = Z.of_nat (count_type B_FRAME (slice frames a b)).
Proof.
  intros Hab g. subst g. unfold make_gop.
  apply (for_range_ind (fun j g =>
           frameCount g = Z.of_nat (b - a)
           /\ iFrameCount g = Z.of_nat (count_type I_FRAME (slice frames a j))
           /\ pFrameCount g = Z.of_nat (count_type P_FRAME (slice frames a j))
           /\ bFrameCount g = Z.of_nat (count_type B_FRAME (slice frames a j))));
    [lia | |].
  - rewrite slice_empty. simpl. repeat split.
    rewrite int_in_range; [lia |].
    unfold CInt.in_int, CInt.INT_MIN, CInt.INT_MAX in *. lia.
  - intros j g Hj (Hfc & Hi & Hp & Hb).
    destruct (lookup_lt_is_Some_2 frames j) as [f Hf]; [lia |].
    unfold count_frame. rewrite Hf.
    rewrite (slice_snoc frames a j f) by (lia || done).
    rewrite !count_type_app, !count_type_one.
    pose proof (count_type_le I_FRAME (slice frames a j)) as Hli.
    pose proof (count_type_le P_FRAME (slice frames a j)) as Hlp.
    pose proof (count_type_le B_FRAME (slice frames a j)) as Hlb.
    rewrite slice_length in Hli, Hlp, Hlb by lia.
    unfold CInt.INT_MAX in frames_fit.
    destruct (type f); simpl; repeat split; try done; try lia;
      rewrite incr_in_range;
      unfold CInt.INT_MIN, CInt.INT_MAX; lia.
Qed.

(** The frames of a segment that none of its three counters counts are
    its frames of unknown type. *)
Lemma make_gop_uncounted (index : Z) (a b : nat) :
  (a <= b <= length frames)%nat ->
  uncounted (make_gop frames index a b)
  = Z.of_nat (count_type UNKNOWN (slice frames a b)).
Proof.
  intros Hab. destruct (make_gop_counts index a b Hab) as (Hfc & Hi & Hp & Hb).
  unfold uncounted. rewrite Hfc, Hi, Hp, Hb.
  pose proof (count_type_total (slice frames a b)) as Htot.
  rewrite slice_length in Htot by done. lia.
Qed.

Local Abbreviation scan_state := (GOPAnalyzer.scan_state frames).

Lemma count_unknown_extend (a b : nat) :
  (a <= b)%nat ->
  (count_type UNKNOWN (take a frames) + count_type UNKNOWN (slice frames a b))%nat
  = count_type UNKNOWN (take b frames).
Proof.
  intros Hab. rewrite <- count_type_app. unfold slice.
  rewrite take_take_drop. by replace (a + (b - a))%nat with b by lia.
Qed.

Lemma scan_state_push (index : Z) (s : scan) (i b : nat) :
  (b <= length frames)%nat -> (gopStart_ s < b)%nat ->
  scan_state i s ->
  let gops := gops_ s ++ [make_gop frames index (gopStart_ s) b] in
  sum_frameCount gops = Z.of_nat b
  /\ Forall (fun g => 0 <= uncounted g) gops
  /\ sum_uncounted gops = Z.of_nat (count_type UNKNOWN (take b frames)).
Proof.
  intros Hb Hlt (_ & Hsum & Hall & Hunc) gops. subst gops.
  assert (Hab : (gopStart_ s <= b <= length frames)%nat) by lia.
  destruct (make_gop_counts index (gopStart_ s) b Hab) as (Hfc & _).
  pose proof (make_gop_uncounted index (gopStart_ s) b Hab) as Hu.
  rewrite sum_frameCount_snoc, sum_uncounted_snoc, Hfc, Hu, Hsum, Hunc.
  split; [lia |]. split.
  - apply Forall_app. split; [done |]. apply Forall_singleton. lia.
  - rewrite <- (count_unknown_extend (gopStart_ s) b) by lia. lia.
Qed.

Lemma scan_state_step (i : nat) (s : scan) :
  (1 <= i < length frames)%nat ->
  scan_state i s -> scan_state (S i) (boundary_step frames i s).
Proof.
  intros Hi Hs. unfold boundary_step.
  destruct (frames !! i) as [f |]; [| destruct Hs as (? & ?); split; [lia | done]].
  destruct (starts_gop f).
  - destruct (scan_state_push (gopIndex_ s) s i i) as (Hsum & Hall & Hunc);
      [lia | by destruct Hs | done |].
    split; [simpl; lia | done].
  - destruct Hs as (? & ?); split; [lia | done].
Qed.

Lemma detectGOPBoundaries_sums :
  let gops := detectGOPBoundaries frames [] in
  sum_frameCount gops = Z.of_nat (length frames)
  /\ Forall (fun g => 0 <= uncounted g) gops
  /\ sum_uncounted gops = Z.of_nat (count_type UNKNOWN frames).
Proof.
  intros gops. subst gops.
  destruct (decide (frames = [])) as [Hnil | Hcons]; [by rewrite Hnil |].
  rewrite detectGOPBoundaries_unfold by done. cbv zeta.
  assert (Hlen : (1 <= length frames)%nat).
  { destruct frames; [done | simpl; lia]. }
  assert (Hs : scan_state (length frames)
            (for_range 1 (length frames) (boundary_step frames) (mkScan [] 0 0))).
  { apply (for_range_ind scan_state); [done | |].
    - repeat split; simpl; (lia || constructor).
    - intros i s Hi. by apply scan_state_step. }
  set (s := for_range 1 (length frames) (boundary_step frames) (mkScan [] 0 0)) in *.
  assert (Hlt : (gopStart_ s < length frames)%nat) by by destruct Hs.
  rewrite (proj2 (Nat.ltb_lt _ _) Hlt).
  destruct (scan_state_push (gopIndex_ s) s (length frames) (length frames))
    as (Hsum & Hall & Hunc); [lia | done | done |].
  rewrite take_ge in Hunc by lia. done.
Qed.

End GOPFacts.

(** Counts that are never negative add up to zero exactly when each of
    them is zero. *)
Lemma sum_uncounted_zero (gops : list GOPInfo) :
  Forall (fun g => 0 <= GOPAnalyzer.uncounted g) gops ->
  Forall (fun g => frameCount g
                   = iFrameCount g + pFrameCount g + bFrameCount g) gops
  <-> GOPAnalyzer.sum_uncounted gops = 0.
Proof.
  unfold GOPAnalyzer.sum_uncounted.
  induction 1 as [| g gops Hg Hall IH]; simpl; [done |].
  assert (Hrest : 0 <= foldr (fun g acc => GOPAnalyzer.uncounted g + acc) 0 gops).
  { clear IH. induction Hall as [| h gops Hh _ IH']; simpl; lia. }
  rewrite Forall_cons, IH. unfold GOPAnalyzer.uncounted in *. lia.
Qed.

(** Scenario B of the specification: [I P P I P B P] with the key flag on
    the two I frames gives two segments, of 3 and of 4 frames. *)
Example scenario_B :
  let I := Inputs.typed I_FRAME true in
  let P := Inputs.typed P_FRAME false in
  let B := Inputs.typed B_FRAME false in
  GOPAnalyzer.analyze_frames [I; P; P; I; P; B; P]
  = [mkGOPInfo 0 0 0 3 1 2 0 30 false; mkGOPInfo 1 0 0 4 1 2 1 40 false].
Proof. reflexivity. Qed.

(** C2. The segmentation breaks the invariant
    [frameCount == iFrameCount + pFrameCount + bFrameCount] that the
    repository's own test asserts of every GOP. An H.264 stream whose
    second picture is a switching picture (SP) decodes to an I frame
    followed by a frame of type [UNKNOWN]. The one segment made of them
    has 2 frames, of which the three counters count 1: the counting
    switch leaves the frame of unknown type out. *)
Lemma unknown_frame_is_not_counted :
  let frames := [Inputs.decoded_as AV_CODEC_ID_H264 AV_PICTURE_TYPE_I true;
                 Inputs.decoded_as AV_CODEC_ID_H264 AV_PICTURE_TYPE_SP false] in
  type <$> frames = [I_FRAME; UNKNOWN]
  /\ ~ Forall (fun g => frameCount g
                        = iFrameCount g + pFrameCount g + bFrameCount g)
             (GOPAnalyzer.detectGOPBoundaries frames []).
Proof.
  split; [reflexivity |]. intros Hall.
  apply Forall_cons in Hall as [Hg _]. vm_compute in Hg. discriminate.
Qed.

(** How far the counters are off. For an input of at most [INT_MAX]
    frames, the frame counts of the segments add up to the number of
    input frames. In every segment the three per-type counters add up to
    at most the frame count, and over all segments the frames they leave
    out are as many as the input has frames of type [UNKNOWN]: the
    equality [frameCount == iFrameCount + pFrameCount + bFrameCount]
    holds in every segment when no input frame is of unknown type, and
    fails in some segment otherwise. *)
Theorem gop_counts_add_up (frames : list FrameInfo) :
  Z.of_nat (length frames) <= CInt.INT_MAX ->
  let gops := GOPAnalyzer.detectGOPBoundaries frames [] in
  GOPAnalyzer.sum_frameCount gops = Z.of_nat (length frames)
  /\ Forall (fun g => iFrameCount g + pFrameCount g + bFrameCount g
                      <= frameCount g) gops
  /\ GOPAnalyzer.sum_uncounted gops
     = Z.of_nat (GOPAnalyzer.count_type UNKNOWN frames)
  /\ (Forall (fun g => frameCount g
                       = iFrameCount g + pFrameCount g + bFrameCount g) gops
      <-> GOPAnalyzer.count_type UNKNOWN frames = 0%nat).
Proof.
  intros Hfit gops.
  destruct (detectGOPBoundaries_sums frames Hfit) as (Hsum & Hall & Hunc).
  split; [done | split; [| split; [done |]]].
  - eapply Forall_impl; [exact Hall |].
    intros g Hg. unfold GOPAnalyzer.uncounted in Hg. lia.
  - subst gops. rewrite (sum_uncounted_zero _ Hall), Hunc. lia.
Qed.

(** The seven frames of scenario B with an SP picture decoded in between:
    eight frames in two segments, one frame left out by the counters. *)
Lemma gop_counts_add_up_witness :
  let frames :=
    [Inputs.typed I_FRAME true; Inputs.typed P_FRAME false;
     Inputs.decoded_as AV_CODEC_ID_H264 AV_PICTURE_TYPE_SP false;
     Inputs.typed P_FRAME false; Inputs.typed I_FRAME true;
     Inputs.typed P_FRAME false; Inputs.typed B_FRAME false;
     Inputs.typed P_FRAME false] in
  let gops := GOPAnalyzer.detectGOPBoundaries frames [] in
  GOPAnalyzer.sum_frameCount gops = 8
  /\ Forall (fun g => iFrameCount g + pFrameCount g + bFrameCount g
                      <= frameCount g) gops
  /\ GOPAnalyzer.sum_uncounted gops = 1
  /\ (Forall (fun g => frameCount g
                       = iFrameCount g + pFrameCount g + bFrameCount g) gops
      <-> 1%nat = 0%nat).
Proof.
  intros frames.
  apply (gop_counts_add_up frames). vm_compute. discriminate.
Defined.

(** ** StreamAnalyzer: the window and the anomaly log *)

Section WindowFacts.
Import StreamAnalyzer.
Variable to_string_double : spec_float -> string.

Lemma tail_is_drop {A : Type} (l : list A) : tail l = drop 1 l.
Proof. by destruct l. Qed.

Lemma push_capped_length {A : Type} (cap : nat) (x : A) (d : list A) :
  (length d <= cap)%nat -> (length (push_capped cap x d) <= cap)%nat.
Proof.
  intros Hd. unfold push_capped.
  destruct (Nat.ltb_spec cap (length (d ++ [x]))) as [Hover | Hfit]; [| done].
  rewrite tail_is_drop, length_drop, length_app. simpl. lia.
Qed.

(** The newest entry is kept: it is the last one after the push. *)
Lemma push_capped_last {A : Type} (cap : nat) (x : A) (d : list A) :
  (1 <= cap)%nat -> last (push_capped cap x d) = Some x.
Proof.
  intros Hcap. unfold push_capped.
  destruct (Nat.ltb_spec cap (length (d ++ [x]))) as [Hover | Hfit];
    [| apply last_snoc].
  destruct d as [| y d]; [simpl in Hover; lia |]. simpl. apply last_snoc.
Qed.

(** On overflow the entry that goes is the oldest one. *)
Lemma push_capped_full {A : Type} (cap : nat) (x y : A) (d : list A) :
  length (y :: d) = cap -> push_capped cap x (y :: d) = d ++ [x].
Proof.
  intros Hd. unfold push_capped.
  destruct (Nat.ltb_spec cap (length ((y :: d) ++ [x]))) as [Hover | Hfit];
    [done |].
  rewrite length_app in Hfit. simpl in *. lia.
Qed.

(** A capped deque that holds the latest entries of a history holds the
    latest entries of the longer history after a push. *)
Lemma push_capped_latest {A : Type} (cap : nat) (x : A) (l : list A) :
  (1 <= cap)%nat ->
  push_capped cap x (drop (length l - cap) l)
  = drop (length (l ++ [x]) - cap) (l ++ [x]).
Proof.
  intros Hcap. unfold push_capped.
  rewrite <- (drop_app_le l [x]) by lia.
  rewrite tail_is_drop, drop_drop, length_drop, !length_app. simpl.
  destruct (Nat.ltb_spec cap (length l + 1 - (length l - cap))) as [Hover | Hfit];
    f_equal; lia.
Qed.

Lemma report_ok (a : Anomaly) (r : run) : run_ok r -> run_ok (report a r).
Proof.
  intros (Hrel & [Hw Ha] & Hlog). unfold report, locked. simpl.
  assert (Hnow : within_caps
            (mkData (frameWindow_ (now r))
                    (push_capped maxAnomalies a (anomalies_ (now r)))
                    (previousFrame_ (now r)))).
  { split; [done |]. simpl. by apply push_capped_length. }
  split; [| split; [done |]].
  - apply Forall_app. split; [done |]. by apply Forall_singleton.
  - rewrite Hlog. apply push_capped_latest. unfold maxAnomalies. lia.
Qed.

(** Each rule leaves the run as it is or reports one anomaly. *)
Lemma frame_drop_rule_cases (frame : FrameInfo) (r : run) :
  frame_drop_rule to_string_double frame r = r
  \/ exists a, frame_drop_rule to_string_double frame r = report a r.
Proof.
  unfold frame_drop_rule. destruct (previousFrame_ _); [| by left].
  destruct (F64.gtb _ _); [right; by eexists | by left].
Qed.

Lemma bitrate_spike_rule_cases (frame : FrameInfo) (r : run) :
  bitrate_spike_rule frame r = r
  \/ exists a, bitrate_spike_rule frame r = report a r.
Proof.
  unfold bitrate_spike_rule. destruct (previousFrame_ _); [| by left].
  destruct (F64.gtb _ _); [right; by eexists | by left].
Qed.

Lemma quality_drop_rule_cases (frame : FrameInfo) (r : run) :
  quality_drop_rule frame r = r
  \/ exists a, quality_drop_rule frame r = report a r.
Proof.
  unfold quality_drop_rule. destruct (40 <? qp frame); [right; by eexists | by left].
Qed.

(** What the reports of [detectAnomalies] leave untouched stays as it was:
    a property of runs that every report keeps is kept by the call. *)
Lemma detectAnomalies_keeps (P : run -> Prop) (frame : FrameInfo) (r : run) :
  (forall a r', P r' -> P (report a r')) ->
  P r -> P (detectAnomalies to_string_double frame r).
Proof.
  intros Hrep Hr. unfold detectAnomalies.
  set (r1 := frame_drop_rule to_string_double frame r).
  assert (H1 : P r1).
  { subst r1. destruct (frame_drop_rule_cases frame r) as [-> | [a ->]]; auto. }
  set (r2 := bitrate_spike_rule frame r1).
  assert (H2 : P r2).
  { subst r2. destruct (bitrate_spike_rule_cases frame r1) as [-> | [a ->]]; auto. }
  destruct (quality_drop_rule_cases frame r2) as [-> | [a ->]]; auto.
Qed.

Lemma analysis_turn_ok (polled : option FrameInfo) (r : run) :
  run_ok r /\ window_latest r ->
  run_ok (analysis_turn to_string_double polled r)
  /\ window_latest (analysis_turn to_string_double polled r)
  /\ frame_calls (analysis_turn to_string_double polled r)
     = frame_calls r ++ option_list polled.
Proof.
  intros [(Hrel & [Hw Ha] & Hlog) Hwin].
  destruct polled as [frame |];
    [| simpl; rewrite app_nil_r; by repeat split].
  unfold analysis_turn.
  set (r1 := locked _ r).
  assert (H1 : run_ok r1
               /\ frameWindow_ (now r1)
                  = drop (length (frame_calls r ++ [frame]) - maxWindowSize)
                         (frame_calls r ++ [frame])
               /\ frame_calls r1 = frame_calls r).
  { subst r1. unfold locked. simpl. split; [| split; [| done]].
    - assert (Hnow : within_caps
                (mkData (push_capped maxWindowSize frame (frameWindow_ (now r)))
                        (anomalies_ (now r)) (previousFrame_ (now r)))).
      { split; [| done]. simpl. by apply push_capped_length. }
      split; [| split; [done | done]].
      apply Forall_app. split; [done |]. by apply Forall_singleton.
    - rewrite Hwin. apply push_capped_latest. unfold maxWindowSize. lia. }
  assert (H2 : let r2 := detectAnomalies to_string_double frame r1 in
               run_ok r2
               /\ frameWindow_ (now r2)
                  = drop (length (frame_calls r ++ [frame]) - maxWindowSize)
                         (frame_calls r ++ [frame])
               /\ frame_calls r2 = frame_calls r).
  { apply (detectAnomalies_keeps
             (fun r2 => run_ok r2
                        /\ frameWindow_ (now r2)
                           = drop (length (frame_calls r ++ [frame])
                                   - maxWindowSize)
                                  (frame_calls r ++ [frame])
                        /\ frame_calls r2 = frame_calls r)); [| done].
    intros a r' (Hok & Hwin' & Hcalls). split; [by apply report_ok |]. done. }
  cbv zeta in H2. destruct H2 as ((Hrel2 & [Hw2 Ha2] & Hlog2) & Hwin2 & Hcalls2).
  simpl. split; [| split].
  - split; [done | split; [by split | done]].
  - unfold window_latest. simpl. by rewrite Hcalls2.
  - by rewrite Hcalls2.
Qed.

Lemma analysisLoop_ok (polls : list (option FrameInfo)) (r : run) :
  run_ok r /\ window_latest r ->
  run_ok (analysisLoop to_string_double polls r)
  /\ window_latest (analysisLoop to_string_double polls r)
  /\ frame_calls (analysisLoop to_string_double polls r)
     = frame_calls r ++ omap id polls.
Proof.
  revert r. induction polls as [| p polls IH]; intros r Hr.
  - simpl. rewrite app_nil_r. by destruct Hr.
  - destruct (analysis_turn_ok p r Hr) as (Hok & Hwin & Hcalls).
    destruct (IH _ (conj Hok Hwin)) as (Hok' & Hwin' & Hcalls').
    unfold analysisLoop in *. simpl. split; [done | split; [done |]].
    rewrite Hcalls', Hcalls, <- app_assoc. f_equal. by destruct p.
Qed.

End WindowFacts.

(** C5. Whatever the polls of the analysis loop returned, and however
    many there were: at every release of the data mutex, and at the end,
    the window holds at most 300 frames and the anomaly log at most 100
    entries. The window is the sequence of the frames read with all but
    the latest 300 removed from its front, and the log is the sequence of
    the anomalies reported with all but the latest 100 removed from its
    front: what overflows is the oldest entry, and the newest is kept. *)
Theorem window_and_log_are_capped (to_string_double : spec_float -> string)
    (polls : list (option FrameInfo)) :
  let r := StreamAnalyzer.analysisLoop to_string_double polls
                                       StreamAnalyzer.initial in
  let frames := omap id polls in
  let reports := StreamAnalyzer.anomaly_calls r in
  Forall (fun d => (length (StreamAnalyzer.frameWindow_ d) <= 300)%nat
                   /\ (length (StreamAnalyzer.anomalies_ d) <= 100)%nat)
         (StreamAnalyzer.released r ++ [StreamAnalyzer.now r])
  /\ StreamAnalyzer.frameWindow_ (StreamAnalyzer.now r)
     = drop (length frames - 300) frames
  /\ StreamAnalyzer.anomalies_ (StreamAnalyzer.now r)
     = drop (length reports - 100) reports.
Proof.
  intros r frames reports.
  destruct (analysisLoop_ok to_string_double polls StreamAnalyzer.initial)
    as ((Hrel & Hnow & Hlog) & Hwin & Hcalls).
  { repeat split; simpl; (lia || constructor). }
  fold r in Hrel, Hnow, Hlog, Hwin, Hcalls. simpl in Hcalls.
  split; [| split].
  - apply Forall_app. split; [exact Hrel |]. by apply Forall_singleton.
  - unfold StreamAnalyzer.window_latest in Hwin. by rewrite Hcalls in Hwin.
  - exact Hlog.
Qed.

(** Three hundred and two frames one second apart, each four times the
    size of the one before and with QP 41: every frame is reported by
    every rule that applies to it, 904 reports in all. The window ends
    with the last 300 frames and the log with the last 100 reports. *)
Example long_run_is_capped :
  let frame (i : nat) :=
    mkFrameInfo (Z.of_nat i) (Z.of_nat i) P_FRAME (4 ^ Z.of_nat i) 41 false
                (F64.of_int (Z.of_nat i)) false (-1) in
  let r := StreamAnalyzer.analysisLoop (fun _ => "")
             (Some <$> (frame <$> seq 0 302)) StreamAnalyzer.initial in
  length (StreamAnalyzer.anomaly_calls r) = 904%nat
  /\ length (StreamAnalyzer.frameWindow_ (StreamAnalyzer.now r)) = 300%nat
  /\ length (StreamAnalyzer.anomalies_ (StreamAnalyzer.now r)) = 100%nat
  /\ pts <$> head (StreamAnalyzer.frameWindow_ (StreamAnalyzer.now r)) = Some 2.
Proof. vm_compute. done. Qed.

(** ** StreamAnalyzer::getCurrentBitrateStats *)

Section BitrateFacts.
Import StreamAnalyzer.

(** The [int64_t] accumulator does not wrap as long as it has room for
    the [int] sizes still to be added. *)
Lemma total_size_from (l : list FrameInfo) (acc : Z) :
  Forall (fun f => CInt.in_int (size f)) l ->
  Z.abs acc + Z.of_nat (length l) * 2 ^ 31 < 2 ^ 63 ->
  foldl (fun a f => CInt.int64_t (a + size f)) acc l = acc + sum_sizes l.
Proof.
  revert acc. induction l as [| f l IH]; intros acc Hall Hroom; simpl.
  - lia.
  - apply Forall_cons in Hall as [Hf Hall].
    unfold CInt.in_int, CInt.INT_MIN, CInt.INT_MAX in Hf.
    rewrite length_cons in Hroom.
    rewrite int64_in_range by (unfold CInt.in_int64; lia).
    rewrite IH by (done || lia). lia.
Qed.

Lemma total_size_exact (l : list FrameInfo) :
  Forall (fun f => CInt.in_int (size f)) l ->
  (length l <= maxWindowSize)%nat ->
  total_size l = sum_sizes l.
Proof.
  intros Hall Hlen. unfold total_size. rewrite total_size_from; [lia | done |].
  unfold maxWindowSize in Hlen. simpl Z.abs. lia.
Qed.

(** A duration that passes the test [duration > 0] is not a zero. *)
Lemma gtb_zero_not_zero (x : spec_float) :
  F64.gtb x F64.zero = true -> forall s, x <> S754_zero s.
Proof. intros Hx s ->. by destruct s. Qed.

(** When no frame of the window is later than the newest one, the frames
    copied out are those of the closed interval that ends at the newest
    timestamp. *)
Lemma window_frames_closed_interval (startTime newest : spec_float)
    (w : list FrameInfo) :
  Forall (fun f => F64.geb newest (timestamp f) = true) w ->
  window_frames startTime w
  = filter (fun f => F64.geb (timestamp f) startTime = true
                     /\ F64.geb newest (timestamp f) = true) w.
Proof.
  intros Hall. unfold window_frames.
  induction w as [| f w IH]; [done |].
  apply Forall_cons in Hall as [Hf Hall].
  rewrite !filter_cons, IH by done.
  destruct (decide (F64.geb (timestamp f) startTime = true)) as [Hin | Hout].
  - by rewrite decide_True.
  - rewrite decide_False; [done |]. by intros [? _].
Qed.

End BitrateFacts.

(** C8, as stated, fails. Three frames arrive stamped 3, 10 and 5
    seconds, of 1000, 5000 and 1000 bytes. For the last 2 seconds the
    frames whose timestamp lies within the window, from second 3 to
    second 5, are the first and the third: 16000 bits over 2 seconds,
    8000 bits per second. The query returns 28000: it has counted the
    frame stamped 10 as well, for it tests the timestamps against the
    start of the window only. *)
Lemma later_frame_is_counted :
  let d := StreamAnalyzer.mkData
             [Inputs.at_second 3 1000; Inputs.at_second 10 5000;
              Inputs.at_second 5 1000] [] None in
  let subset := StreamAnalyzer.spec_subset (F64.of_int 2)
                  (StreamAnalyzer.frameWindow_ d) in
  let stats := StreamAnalyzer.getCurrentBitrateStats (F64.of_int 2) d in
  subset = [Inputs.at_second 3 1000; Inputs.at_second 5 1000]
  /\ F64.gtb (StreamAnalyzer.spec_elapsed subset) F64.zero = true
  /\ StreamAnalyzer.spec_average subset = F64.of_int 8000
  /\ averageBitrate stats = F64.of_int 28000
  /\ averageBitrate stats <> StreamAnalyzer.spec_average subset.
Proof. vm_compute. repeat split; discriminate. Qed.

(** C8, amended. For a window within its caps whose frame sizes are [int]
    values and in which no frame is stamped later than the newest one:
    take the frames whose timestamp lies within the window, from
    [windowSize] seconds before the timestamp of the newest frame up to
    that timestamp, and the time elapsed between the first and the last
    of them. When that time is greater than zero, the average bitrate
    returned is the sum of their sizes times 8, divided by that time, and
    the divisor is not a zero. When it is not (a single frame, an empty
    subset, an empty window, a negative or undefined span), all the
    statistics returned are zero and nothing is divided. *)
Theorem bitrate_is_bits_over_elapsed (windowSize : spec_float)
    (d : StreamAnalyzer.data) :
  StreamAnalyzer.within_caps d ->
  Forall (fun f => CInt.in_int (size f)) (StreamAnalyzer.frameWindow_ d) ->
  StreamAnalyzer.newest_is_latest (StreamAnalyzer.frameWindow_ d) ->
  let subset := StreamAnalyzer.spec_subset windowSize
                  (StreamAnalyzer.frameWindow_ d) in
  let elapsed := StreamAnalyzer.spec_elapsed subset in
  let stats := StreamAnalyzer.getCurrentBitrateStats windowSize d in
  if F64.gtb elapsed F64.zero
  then averageBitrate stats = StreamAnalyzer.spec_average subset
       /\ (forall s, elapsed <> S754_zero s)
  else stats = StreamAnalyzer.zero_stats.
Proof.
  intros [Hcap _] Hsizes Horder subset elapsed stats.
  subst stats elapsed subset.
  unfold StreamAnalyzer.getCurrentBitrateStats, StreamAnalyzer.spec_subset.
  unfold StreamAnalyzer.newest_is_latest in Horder.
  destruct (last (StreamAnalyzer.frameWindow_ d)) as [newest |]; [| done].
  rewrite <- (window_frames_closed_interval
                (F64.sub (timestamp newest) windowSize) (timestamp newest)
                (StreamAnalyzer.frameWindow_ d) Horder).
  set (windowFrames := StreamAnalyzer.window_frames _ _).
  assert (Hlen : (length windowFrames <= StreamAnalyzer.maxWindowSize)%nat).
  { etrans; [apply length_filter | done]. }
  assert (Hall : Forall (fun f => CInt.in_int (size f)) windowFrames).
  { apply Forall_forall. intros f Hf.
    apply list_elem_of_filter in Hf as [_ Hf].
    revert f Hf. by apply Forall_forall. }
  unfold StreamAnalyzer.spec_elapsed, StreamAnalyzer.spec_average,
    StreamAnalyzer.spec_elapsed, StreamAnalyzer.spec_total_bits.
  destruct (head windowFrames) as [front |]; [| done].
  destruct (last windowFrames) as [back |]; [| done].
  destruct (F64.gtb (F64.sub (timestamp back) (timestamp front)) F64.zero)
    eqn:Hpos; [| done].
  split; [| by apply gtb_zero_not_zero].
  simpl. by rewrite total_size_exact.
Qed.

(** Three frames of 1000 bytes at seconds 0, 1 and 2, asked for the last
    5 seconds and for the last half second. *)
Lemma bitrate_is_bits_over_elapsed_witness :
  let d := StreamAnalyzer.mkData
             [Inputs.at_second 0 1000; Inputs.at_second 1 1000;
              Inputs.at_second 2 1000] [] None in
  (averageBitrate (StreamAnalyzer.getCurrentBitrateStats (F64.of_int 5) d)
   = F64.of_int 12000
   /\ forall s, F64.of_int 2 <> S754_zero s)
  /\ StreamAnalyzer.getCurrentBitrateStats (F64.half_of 1) d
     = StreamAnalyzer.zero_stats.
Proof.
  intros d.
  assert (Hcaps : StreamAnalyzer.within_caps d).
  { split; vm_compute; lia. }
  assert (Hsizes : Forall (fun f => CInt.in_int (size f))
                          (StreamAnalyzer.frameWindow_ d)).
  { repeat constructor; vm_compute; discriminate. }
  assert (Horder : StreamAnalyzer.newest_is_latest
                     (StreamAnalyzer.frameWindow_ d)).
  { repeat constructor. }
  split.
  - exact (bitrate_is_bits_over_elapsed (F64.of_int 5) d Hcaps Hsizes Horder).
  - exact (bitrate_is_bits_over_elapsed (F64.half_of 1) d Hcaps Hsizes Horder).
Defined.

(** ** ThreadPool: shutdown *)

Section PoolFacts.
Import ThreadPool.

Lemma flying_insert (ws : list worker) (i : nat) (w w' : worker) :
  ws !! i = Some w ->
  flying (<[i := w']> ws) ++ in_flight w ≡ₚ in_flight w' ++ flying ws.
Proof.
  unfold flying. revert i. induction ws as [| x ws IH]; intros [| i] Hw;
    try done; simpl in Hw.
  - injection Hw as ->. csimpl.
    rewrite <- !app_assoc. f_equiv. apply Permutation_app_comm.
  - csimpl. rewrite <- app_assoc, (IH i Hw).
    rewrite !app_assoc. f_equiv. apply Permutation_app_comm.
Qed.

Lemma weights_insert (ws : list worker) (i : nat) (w w' : worker) :
  ws !! i = Some w ->
  (weights (<[i := w']> ws) + worker_weight w
   = weights ws + worker_weight w')%nat.
Proof.
  revert i. induction ws as [| x ws IH]; intros [| i] Hw; try done;
    simpl in Hw.
  - injection Hw as ->. simpl. lia.
  - simpl. specialize (IH i Hw). lia.
Qed.

Lemma exited_insert (ws : list worker) (i : nat) (w' : worker) :
  Exited ∈ <[i := w']> ws -> w' = Exited \/ Exited ∈ ws.
Proof.
  intros Hin. apply list_elem_of_lookup in Hin as [j Hj].
  apply list_lookup_insert_Some in Hj as [(_ & -> & _) | [_ Hj]].
  - by left.
  - right. by eapply list_elem_of_lookup_2.
Qed.

Lemma joined_insert (ws : list worker) (i k : nat) (w w' : worker) :
  ws !! i = Some w -> w <> Exited ->
  (forall j, (j < k)%nat -> ws !! j = Some Exited) ->
  forall j, (j < k)%nat -> <[i := w']> ws !! j = Some Exited.
Proof.
  intros Hw Hne Hall j Hj. rewrite list_lookup_insert_ne; [by apply Hall |].
  intros ->. rewrite (Hall _ Hj) in Hw. by injection Hw as <-.
Qed.

(** What the head of the worker loop does once its wait is over: with
    [stop_] set and nothing queued the worker returns, and otherwise it
    takes the task at the front of the queue. *)
Lemma worker_take_cases (p : pool) :
  wait_predicate p = true ->
  (stop_ p = true /\ tasks_ p = []
   /\ worker_take p = (Exited, [], activeTasks_ p))
  \/ (exists t rest, tasks_ p = t :: rest
       /\ worker_take p = (Executing t, rest, (activeTasks_ p + 1)%N)).
Proof.
  unfold wait_predicate, worker_take. intros Hpred.
  destruct (tasks_ p) as [| t rest].
  - rewrite bool_decide_eq_true_2 in * by done. simpl in Hpred.
    rewrite orb_false_r in Hpred. rewrite Hpred. by left.
  - rewrite bool_decide_eq_false_2 by done. rewrite andb_false_r.
    right. by exists t, rest.
Qed.

(** A new pool is consistent. *)
Lemma consistent_new (hc n : N) : consistent (ThreadPool hc n).
Proof.
  unfold consistent, ThreadPool. simpl. split; [| split; [| split]].
  - assert (Hnone : forall m, flying (replicate m Waiting) = []).
    { intros m. unfold flying. induction m as [| m IH]; [done | by csimpl]. }
    by rewrite Hnone.
  - split; [done | intros Hne; by destruct Hne].
  - done.
  - intros Hin. by apply elem_of_replicate_inv in Hin.
Qed.

Lemma consistent_step (p p' : pool) :
  consistent p -> step p p' -> consistent p'.
Proof.
  intros (Hcons & Hstop & Hjoin & Hexit) Hstep.
  destruct Hstep as [p t p' Hsub | p i Hw Hpred | p i t Hw | p i t Hw
                     | p Halive | p k Hk Hw].
  - (* submit *)
    unfold submit in Hsub. destruct (stop_ p) eqn:Hs; [done |].
    injection Hsub as <-. unfold consistent. simpl.
    split; [| split; [done | split; [done |]]].
    + rewrite Hcons, !app_assoc. done.
    + intros Hin. destruct (Hexit Hin) as [? _]. congruence.
  - (* the head of the worker loop *)
    destruct (worker_take_cases p Hpred)
      as [(Hs & Ht & ->) | (t & rest & Ht & ->)]; simpl.
    + (* stop and nothing queued: the worker returns *)
      unfold consistent, set_worker. simpl.
      split; [| split; [done | split; [| done]]].
      * pose proof (flying_insert _ i _ Exited Hw) as Hf. simpl in Hf.
        rewrite app_nil_r in Hf. by rewrite Hf, <- Ht.
      * intros k Hk. destruct (Hjoin k Hk) as [Hle Hall].
        rewrite length_insert. split; [done |].
        by apply (joined_insert _ i k Waiting).
    + (* a task is queued: the worker takes it *)
      unfold consistent, set_worker. simpl.
      split; [| split; [done | split]].
      * pose proof (flying_insert _ i _ (Executing t) Hw) as Hf.
        simpl in Hf. rewrite app_nil_r in Hf.
        rewrite Hcons, Hf, Ht. f_equiv. simpl.
        by rewrite Permutation_middle.
      * intros k Hk. destruct (Hjoin k Hk) as [Hle Hall].
        rewrite length_insert. split; [done |].
        by apply (joined_insert _ i k Waiting).
      * intros Hin. apply exited_insert in Hin as [| Hin]; [done |].
        destruct (Hexit Hin) as [_ Hq]. by rewrite Ht in Hq.
  - (* the task body *)
    unfold consistent, set_worker. simpl.
    split; [| split; [done | split]].
    + pose proof (flying_insert _ i _ (Finishing t) Hw) as Hf. simpl in Hf.
      rewrite Hcons, <- Hf, <- !app_assoc. f_equiv.
      rewrite !app_assoc. f_equiv. apply Permutation_app_comm.
    + intros k Hk. destruct (Hjoin k Hk) as [Hle Hall].
      rewrite length_insert. split; [done |].
      by apply (joined_insert _ i k (Executing t)).
    + intros Hin. apply exited_insert in Hin as [| Hin]; [done | by apply Hexit].
  - (* the locked section after the task *)
    unfold consistent, set_worker. simpl.
    split; [| split; [done | split]].
    + pose proof (flying_insert _ i _ Waiting Hw) as Hf. simpl in Hf.
      rewrite app_nil_r in Hf. by rewrite Hf.
    + intros k Hk. destruct (Hjoin k Hk) as [Hle Hall].
      rewrite length_insert. split; [done |].
      by apply (joined_insert _ i k (Finishing t)).
    + intros Hin. apply exited_insert in Hin as [| Hin]; [done | by apply Hexit].
  - (* the destructor sets stop_ *)
    unfold consistent. simpl. split; [done | split; [done | split]].
    + intros k [= <-]. split; [lia | intros i Hi; lia].
    + intros Hin. split; [done |]. by apply Hexit.
  - (* the destructor joins a worker *)
    unfold consistent. simpl. split; [done | split; [| split; [| done]]].
    + rewrite Hk in Hstop. split; [by intros _ | intros _; by apply Hstop].
    + intros k' [= <-]. destruct (Hjoin k Hk) as [Hle Hall].
      split; [by apply lookup_lt_Some in Hw |].
      intros i Hi. destruct (decide (i = k)) as [-> | Hne]; [done |].
      apply Hall. lia.
Qed.

Lemma reachable_consistent (hc n : N) (p : pool) :
  reachable (ThreadPool hc n) p -> consistent p.
Proof.
  induction 1 as [| p p' _ IH Hstep]; [apply consistent_new |].
  by apply (consistent_step p).
Qed.


Lemma reachable_workers (hc n : N) (p : pool) :
  reachable (ThreadPool hc n) p ->
  length (workers_ p) = N.to_nat (constructor_numThreads hc n).
Proof.
  induction 1 as [| p p' _ IH Hstep].
  - simpl. apply length_replicate.
  - rewrite <- IH.
    destruct Hstep as [p t p' Hsub | p i Hw Hpred | p i t Hw | p i t Hw
                       | p Halive | p k Hk Hw]; simpl;
      rewrite ?length_insert; try done.
    unfold submit in Hsub. destruct (stop_ p); [done |]. by injection Hsub as <-.
Qed.

Lemma constructor_numThreads_pos (hc n : N) :
  (1 <= N.to_nat (constructor_numThreads hc n))%nat.
Proof. unfold constructor_numThreads. lia. Qed.

(** A worker returns only in a state with [stop_] set and the queue
    empty. *)
Lemma worker_exit_condition (p p' : pool) (i : nat) (w : worker) :
  step p p' ->
  workers_ p !! i = Some w -> w <> Exited ->
  workers_ p' !! i = Some Exited ->
  stop_ p = true /\ tasks_ p = [].
Proof.
  intros Hstep Hw Hne Hw'.
  destruct Hstep as [p t p' Hsub | p j Hj Hpred | p j t Hj | p j t Hj
                     | p Halive | p k Hk Hj]; simpl in Hw'.
  - unfold submit in Hsub. destruct (stop_ p); [done |].
    injection Hsub as <-. simpl in Hw'. congruence.
  - apply list_lookup_insert_Some in Hw' as [(_ & Htake & _) | [_ Hw']];
      [| congruence].
    destruct (worker_take_cases p Hpred)
      as [(Hs & Ht & _) | (t & rest & _ & Heq)]; [done |].
    rewrite Heq in Htake. done.
  - apply list_lookup_insert_Some in Hw' as [(_ & ? & _) | [_ Hw']];
      [done | congruence].
  - apply list_lookup_insert_Some in Hw' as [(_ & ? & _) | [_ Hw']];
      [done | congruence].
  - congruence.
  - congruence.
Qed.

(** When the destructor has returned, every worker has returned, the
    queue is empty and the tasks run are the tasks accepted. *)
Lemma destroyed_drained (p : pool) :
  consistent p -> (1 <= length (workers_ p))%nat -> destroyed p ->
  Forall (eq Exited) (workers_ p)
  /\ tasks_ p = []
  /\ executed p ≡ₚ accepted p.
Proof.
  intros (Hcons & Hstop & Hjoin & Hexit) Hlen Hd.
  destruct (Hjoin _ Hd) as [_ Hall].
  assert (Hws : Forall (eq Exited) (workers_ p)).
  { apply Forall_lookup. intros i w Hw.
    rewrite (Hall i) in Hw by by apply lookup_lt_Some in Hw. congruence. }
  assert (Hq : tasks_ p = []).
  { apply Hexit. apply (list_elem_of_lookup_2 _ 0%nat). apply Hall. lia. }
  split; [done | split; [done |]].
  assert (Hfly : flying (workers_ p) = []).
  { unfold flying. clear -Hws. induction Hws as [| w ws <- _ IH]; [done |].
    by csimpl. }
  by rewrite Hcons, Hfly, Hq, !app_nil_r.
Qed.

(** A stopped pool whose destructor has not returned can take a step:
    the worker the destructor waits for is never blocked. *)
Lemma shutdown_progress (p : pool) :
  consistent p -> stop_ p = true -> ~ destroyed p -> exists p', step p p'.
Proof.
  intros (_ & Hstop & Hjoin & _) Hs Hnd.
  destruct (destructor_ p) as [| k] eqn:Hk.
  { by destruct (proj1 Hstop Hs). }
  destruct (Hjoin k eq_refl) as [Hle _].
  assert (Hlt : (k < length (workers_ p))%nat).
  { destruct (decide (k = length (workers_ p))) as [-> | Hne]; [| lia].
    by destruct Hnd. }
  destruct (lookup_lt_is_Some_2 _ _ Hlt) as [w Hw].
  destruct w as [| t | t |].
  - eexists. apply (step_take p k Hw). unfold wait_predicate. by rewrite Hs.
  - eexists. apply (step_run p k t Hw).
  - eexists. apply (step_finish p k t Hw).
  - eexists. apply (step_join p k Hk Hw).
Qed.

(** Every step of a stopped pool brings the return of the destructor
    nearer, and leaves the pool stopped. *)
Lemma shutdown_decreases (p p' : pool) :
  consistent p -> stop_ p = true -> step p p' ->
  stop_ p' = true /\ (distance p' < distance p)%nat.
Proof.
  intros (_ & Hstop & Hjoin & _) Hs Hstep. unfold distance.
  destruct Hstep as [p t p' Hsub | p i Hw Hpred | p i t Hw | p i t Hw
                     | p Halive | p k Hk Hw]; simpl.
  - unfold submit in Hsub. by rewrite Hs in Hsub.
  - split; [done |]. rewrite length_insert.
    pose proof (weights_insert _ i _ (worker_take p).1.1 Hw) as Hwt.
    destruct (worker_take_cases p Hpred)
      as [(_ & Ht & Heq) | (t & rest & Ht & Heq)];
      rewrite Heq in *; simpl in *; rewrite Ht; simpl; lia.
  - split; [done |]. rewrite length_insert.
    pose proof (weights_insert _ i _ (Finishing t) Hw) as Hwt. simpl in Hwt. lia.
  - split; [done |]. rewrite length_insert.
    pose proof (weights_insert _ i _ Waiting Hw) as Hwt. simpl in Hwt. lia.
  - destruct (proj1 Hstop Hs Halive).
  - split; [done |]. rewrite Hk. simpl.
    apply lookup_lt_Some in Hw. lia.
Qed.

Lemma shutdown_inevitable (hc n : N) (p : pool) :
  reachable (ThreadPool hc n) p -> stop_ p = true -> inevitably destroyed p.
Proof.
  remember (S (distance p)) as m eqn:Hm.
  assert (Hlt : (distance p < m)%nat) by lia. clear Hm.
  revert p Hlt. induction m as [| m IH]; intros p Hlt Hreach Hs; [lia |].
  destruct (decide (destroyed p)) as [Hd | Hnd]; [by apply inev_now |].
  pose proof (reachable_consistent _ _ _ Hreach) as Hcons.
  apply inev_later; [by apply shutdown_progress |].
  intros p' Hstep.
  destruct (shutdown_decreases p p' Hcons Hs Hstep) as [Hs' Hdec].
  apply IH; [lia | by eapply reach_step | done].
Qed.

End PoolFacts.

(** C9. The pool is a transition system: each locked section and each
    task body is one action of one thread, and a blocking call is an
    action that is enabled when the call can return; task bodies end.
    For every state [p] the pool can reach from its construction:
    - no task is lost or run twice: the tasks accepted by [submit] are
      those run, those dequeued and about to run, and those queued;
    - a worker returns only from a state in which [stop_] is set and the
      queue is empty;
    - once [stop_] is set, under every schedule the destructor returns;
    - when the destructor returns, every worker has returned (the
      destructor has joined each of them), the queue is empty, and the
      tasks run are exactly the tasks accepted. *)
Theorem shutdown_drains_the_queue (hc n : N) (p : ThreadPool.pool) :
  ThreadPool.reachable (ThreadPool.ThreadPool hc n) p ->
  ThreadPool.accepted p
    ≡ₚ ThreadPool.executed p ++ ThreadPool.flying (ThreadPool.workers_ p)
        ++ ThreadPool.tasks_ p
  /\ (forall p' i w,
        ThreadPool.step p p' ->
        ThreadPool.workers_ p !! i = Some w -> w <> ThreadPool.Exited ->
        ThreadPool.workers_ p' !! i = Some ThreadPool.Exited ->
        ThreadPool.stop_ p = true /\ ThreadPool.tasks_ p = [])
  /\ (ThreadPool.stop_ p = true ->
      ThreadPool.inevitably ThreadPool.destroyed p)
  /\ (ThreadPool.destroyed p ->
      Forall (eq ThreadPool.Exited) (ThreadPool.workers_ p)
      /\ ThreadPool.tasks_ p = []
      /\ ThreadPool.executed p ≡ₚ ThreadPool.accepted p).
Proof.
  intros Hreach.
  pose proof (reachable_consistent _ _ _ Hreach) as Hcons.
  split; [by destruct Hcons | split; [| split]].
  - intros p' i w. apply worker_exit_condition.
  - by apply (shutdown_inevitable hc n).
  - apply destroyed_drained; [done |].
    rewrite (reachable_workers hc n p Hreach).
    apply constructor_numThreads_pos.
Qed.

(** A pool of one worker: task 7 is submitted and the pool is destroyed.
    From the state in which [stop_] has just been set, with the task
    still queued, the destructor returns under every schedule; and in the
    state in which it has returned the worker has returned, the queue is
    empty and task 7 has run. *)
Lemma shutdown_drains_the_queue_witness :
  ThreadPool.reachable (ThreadPool.ThreadPool 1 1) Inputs.pool_stopping
  /\ ThreadPool.inevitably ThreadPool.destroyed Inputs.pool_stopping
  /\ ThreadPool.reachable (ThreadPool.ThreadPool 1 1) Inputs.pool_destroyed
  /\ Forall (eq ThreadPool.Exited) (ThreadPool.workers_ Inputs.pool_destroyed)
  /\ ThreadPool.tasks_ Inputs.pool_destroyed = []
  /\ ThreadPool.executed Inputs.pool_destroyed
     ≡ₚ ThreadPool.accepted Inputs.pool_destroyed.
Proof.
  set (p0 := ThreadPool.ThreadPool 1 1).
  set (p1 := ThreadPool.mkPool [ThreadPool.Waiting] [7%nat] false 0%N
                               ThreadPool.Alive [7%nat] []).
  set (p3 := ThreadPool.mkPool [ThreadPool.Executing 7%nat] [] true 1%N
                               (ThreadPool.Joining 0) [7%nat] []).
  set (p4 := ThreadPool.mkPool [ThreadPool.Finishing 7%nat] [] true 1%N
                               (ThreadPool.Joining 0) [7%nat] [7%nat]).
  set (p5 := ThreadPool.mkPool [ThreadPool.Waiting] [] true 0%N
                               (ThreadPool.Joining 0) [7%nat] [7%nat]).
  set (p6 := ThreadPool.mkPool [ThreadPool.Exited] [] true 0%N
                               (ThreadPool.Joining 0) [7%nat] [7%nat]).
  assert (H1 : ThreadPool.reachable p0 p1).
  { apply (ThreadPool.reach_step p0 p0); [apply ThreadPool.reach_init |].
    apply (ThreadPool.step_submit p0 7%nat). reflexivity. }
  assert (H2 : ThreadPool.reachable p0 Inputs.pool_stopping).
  { apply (ThreadPool.reach_step p0 p1 _ H1).
    exact (ThreadPool.step_stop p1 eq_refl). }
  assert (H3 : ThreadPool.reachable p0 p3).
  { apply (ThreadPool.reach_step p0 _ _ H2).
    exact (ThreadPool.step_take Inputs.pool_stopping 0 eq_refl eq_refl). }
  assert (H4 : ThreadPool.reachable p0 p4).
  { apply (ThreadPool.reach_step p0 _ _ H3).
    exact (ThreadPool.step_run p3 0 7%nat eq_refl). }
  assert (H5 : ThreadPool.reachable p0 p5).
  { apply (ThreadPool.reach_step p0 _ _ H4).
    exact (ThreadPool.step_finish p4 0 7%nat eq_refl). }
  assert (H6 : ThreadPool.reachable p0 p6).
  { apply (ThreadPool.reach_step p0 _ _ H5).
    exact (ThreadPool.step_take p5 0 eq_refl eq_refl). }
  assert (H7 : ThreadPool.reachable p0 Inputs.pool_destroyed).
  { apply (ThreadPool.reach_step p0 _ _ H6).
    exact (ThreadPool.step_join p6 0 eq_refl eq_refl). }
  split; [exact H2 |].
  split.
  { exact (proj1 (proj2 (proj2 (shutdown_drains_the_queue 1 1 _ H2))) eq_refl). }
  split; [exact H7 |].
  exact (proj2 (proj2 (proj2 (shutdown_drains_the_queue 1 1 _ H7))) eq_refl).
Defined.

(** * Further properties of the code *)

(** ** ThreadPool: the active count, [waitAll] and the order of the queue *)

Section PoolMoreFacts.
Import ThreadPool.

Lemma busy_count_insert (ws : list worker) (i : nat) (w w' : worker) :
  ws !! i = Some w ->
  (busy_count (<[i := w']> ws) + (if busy w then 1 else 0)
   = busy_count ws + (if busy w' then 1 else 0))%nat.
Proof.
  unfold busy_count. revert i.
  induction ws as [| x ws IH]; intros [| i] Hw; try done; simpl in Hw.
  - injection Hw as ->. simpl. rewrite !filter_cons.
    destruct (busy w), (busy w'); simpl; lia.
  - simpl. rewrite !filter_cons. specialize (IH i Hw).
    destruct (decide (busy x = true)); simpl; lia.
Qed.

Lemma busy_count_le (ws : list worker) : (busy_count ws <= length ws)%nat.
Proof. apply length_filter. Qed.

Lemma busy_none_flying (ws : list worker) : busy_count ws = 0%nat -> flying ws = [].
Proof.
  unfold busy_count, flying. induction ws as [| w ws IH]; [done |].
  rewrite filter_cons. csimpl.
  destruct w; simpl; try done; intros Hc; by rewrite IH.
Qed.

(** [activeTasks_] is the number of workers that hold a task. *)
Lemma active_count_step (p p' : pool) :
  activeTasks_ p = N.of_nat (busy_count (workers_ p)) ->
  step p p' ->
  activeTasks_ p' = N.of_nat (busy_count (workers_ p')).
Proof.
  intros Hact Hstep.
  destruct Hstep as [p t p' Hsub | p i Hw Hpred | p i t Hw | p i t Hw
                     | p Halive | p k Hk Hw]; simpl; try done.
  - unfold submit in Hsub. destruct (stop_ p); [done |]. by injection Hsub as <-.
  - pose proof (busy_count_insert _ i _ (worker_take p).1.1 Hw) as Hb.
    destruct (worker_take_cases p Hpred)
      as [(_ & _ & Heq) | (t & rest & _ & Heq)];
      rewrite Heq in *; simpl in *; lia.
  - pose proof (busy_count_insert _ i _ (Finishing t) Hw) as Hb.
    simpl in Hb. lia.
  - pose proof (busy_count_insert _ i _ Waiting Hw) as Hb.
    simpl in Hb. lia.
Qed.


Lemma reachable_active_count (hc n : N) (p : pool) :
  reachable (ThreadPool hc n) p ->
  activeTasks_ p = N.of_nat (busy_count (workers_ p)).
Proof.
  induction 1 as [| p p' _ IH Hstep]; [| by apply (active_count_step p)].
  simpl. unfold busy_count.
  induction (N.to_nat _) as [| m IHm]; [done |].
  simpl. by rewrite filter_cons.
Qed.

(** The queue holds the accepted tasks that no worker has taken yet, in
    the order of their submission; the tasks taken are those run or in
    flight. *)
Lemma queue_is_suffix_step (p p' : pool) :
  (exists taken, accepted p = taken ++ tasks_ p
                 /\ taken ≡ₚ executed p ++ flying (workers_ p)) ->
  step p p' ->
  exists taken, accepted p' = taken ++ tasks_ p'
                /\ taken ≡ₚ executed p' ++ flying (workers_ p').
Proof.
  intros (taken & Hacc & Hperm) Hstep.
  destruct Hstep as [p t p' Hsub | p i Hw Hpred | p i t Hw | p i t Hw
                     | p Halive | p k Hk Hw]; simpl.
  - unfold submit in Hsub. destruct (stop_ p); [done |]. injection Hsub as <-.
    simpl. exists taken. by rewrite Hacc, app_assoc.
  - destruct (worker_take_cases p Hpred)
      as [(_ & Ht & ->) | (t & rest & Ht & ->)]; simpl.
    + exists taken. rewrite <- Ht. split; [done |].
      pose proof (flying_insert _ i _ Exited Hw) as Hf. simpl in Hf.
      rewrite app_nil_r in Hf. by rewrite Hf.
    + exists (taken ++ [t]). split.
      * by rewrite Hacc, Ht, <- app_assoc.
      * pose proof (flying_insert _ i _ (Executing t) Hw) as Hf. simpl in Hf.
        rewrite app_nil_r in Hf. rewrite Hf, Hperm.
        rewrite <- app_assoc. f_equiv. apply Permutation_app_comm.
  - exists taken. split; [done |].
    pose proof (flying_insert _ i _ (Finishing t) Hw) as Hf. simpl in Hf.
    rewrite Hperm, <- Hf, <- !app_assoc. f_equiv. apply Permutation_app_comm.
  - exists taken. split; [done |].
    pose proof (flying_insert _ i _ Waiting Hw) as Hf. simpl in Hf.
    rewrite app_nil_r in Hf. by rewrite Hf.
  - by exists taken.
  - by exists taken.
Qed.

(** With a single worker the accepted tasks are, in this order, those
    run, the one in flight and those queued. *)
Lemma single_worker_step (p p' : pool) :
  length (workers_ p) = 1%nat ->
  accepted p = executed p ++ flying (workers_ p) ++ tasks_ p ->
  step p p' ->
  accepted p' = executed p' ++ flying (workers_ p') ++ tasks_ p'.
Proof.
  intros Hlen Hacc Hstep.
  assert (Hone : forall w, flying [w] = in_flight w).
  { intros w. unfold flying. csimpl. apply app_nil_r. }
  destruct (workers_ p) as [| w [| w2 ws]] eqn:Hws; try done.
  assert (Hzero : forall i x, [w] !! i = Some x -> i = 0%nat /\ x = w).
  { intros [| i] x Hx; [by injection Hx as <- | done]. }
  rewrite Hone in Hacc.
  destruct Hstep as [p t p' Hsub | p i Hw Hpred | p i t Hw | p i t Hw
                     | p Halive | p k Hk Hw];
    try (rewrite Hws in Hw; apply Hzero in Hw as [-> <-]);
    cbn [set_worker workers_ tasks_ accepted executed]; rewrite ?Hws.
  - unfold submit in Hsub. destruct (stop_ p); [done |]. injection Hsub as <-.
    cbn [workers_ tasks_ accepted executed]. rewrite Hws, Hone, Hacc.
    by rewrite !app_assoc.
  - change (<[0%nat := (worker_take p).1.1]> [Waiting])
      with [(worker_take p).1.1]. rewrite Hone.
    destruct (worker_take_cases p Hpred)
      as [(_ & Ht & ->) | (t & rest & Ht & ->)]; simpl.
    + by rewrite Hacc, Ht.
    + by rewrite Hacc, Ht.
  - change (<[0%nat := Finishing t]> [Executing t]) with [Finishing t].
    rewrite Hone, Hacc. simpl. by rewrite <- app_assoc.
  - change (<[0%nat := Waiting]> [Finishing t]) with [Waiting].
    rewrite Hone, Hacc. done.
  - by rewrite Hone.
  - by rewrite Hone.
Qed.

End PoolMoreFacts.

(** The states of a pool of one worker that task 7 goes through. *)
Lemma reachable_pool_running :
  ThreadPool.reachable (ThreadPool.ThreadPool 1 1) Inputs.pool_running.
Proof.
  set (p0 := ThreadPool.ThreadPool 1 1).
  set (p1 := ThreadPool.mkPool [ThreadPool.Waiting] [7%nat] false 0%N
                               ThreadPool.Alive [7%nat] []).
  assert (H1 : ThreadPool.reachable p0 p1).
  { apply (ThreadPool.reach_step p0 p0); [apply ThreadPool.reach_init |].
    apply (ThreadPool.step_submit p0 7%nat). reflexivity. }
  assert (H2 : ThreadPool.reachable p0 Inputs.pool_stopping).
  { apply (ThreadPool.reach_step p0 p1 _ H1).
    exact (ThreadPool.step_stop p1 eq_refl). }
  apply (ThreadPool.reach_step p0 _ _ H2).
  exact (ThreadPool.step_take Inputs.pool_stopping 0 eq_refl eq_refl).
Qed.

Lemma reachable_pool_idle :
  ThreadPool.reachable (ThreadPool.ThreadPool 1 1) Inputs.pool_idle.
Proof.
  set (p0 := ThreadPool.ThreadPool 1 1).
  set (p1 := ThreadPool.mkPool [ThreadPool.Waiting] [7%nat] false 0%N
                               ThreadPool.Alive [7%nat] []).
  set (p2 := ThreadPool.mkPool [ThreadPool.Executing 7%nat] [] false 1%N
                               ThreadPool.Alive [7%nat] []).
  set (p3 := ThreadPool.mkPool [ThreadPool.Finishing 7%nat] [] false 1%N
                               ThreadPool.Alive [7%nat] [7%nat]).
  assert (H1 : ThreadPool.reachable p0 p1).
  { apply (ThreadPool.reach_step p0 p0); [apply ThreadPool.reach_init |].
    apply (ThreadPool.step_submit p0 7%nat). reflexivity. }
  assert (H2 : ThreadPool.reachable p0 p2).
  { apply (ThreadPool.reach_step p0 p1 _ H1).
    exact (ThreadPool.step_take p1 0 eq_refl eq_refl). }
  assert (H3 : ThreadPool.reachable p0 p3).
  { apply (ThreadPool.reach_step p0 p2 _ H2).
    exact (ThreadPool.step_run p2 0 7%nat eq_refl). }
  apply (ThreadPool.reach_step p0 p3 _ H3).
  exact (ThreadPool.step_finish p3 0 7%nat eq_refl).
Qed.

Lemma reachable_pool_busy :
  ThreadPool.reachable (ThreadPool.ThreadPool 2 2) Inputs.pool_busy.
Proof.
  set (p0 := ThreadPool.ThreadPool 2 2).
  set (W := ThreadPool.Waiting).
  set (p1 := ThreadPool.mkPool [W; W] [1%nat] false 0%N ThreadPool.Alive
                               [1%nat] []).
  set (p2 := ThreadPool.mkPool [W; W] [1%nat; 2%nat] false 0%N
                               ThreadPool.Alive [1%nat; 2%nat] []).
  set (p3 := ThreadPool.mkPool [W; W] [1%nat; 2%nat; 3%nat] false 0%N
                               ThreadPool.Alive [1%nat; 2%nat; 3%nat] []).
  set (p4 := ThreadPool.mkPool [W; W] [1%nat; 2%nat; 3%nat; 4%nat] false 0%N
                               ThreadPool.Alive
                               [1%nat; 2%nat; 3%nat; 4%nat] []).
  set (p5 := ThreadPool.mkPool [ThreadPool.Executing 1%nat; W]
                               [2%nat; 3%nat; 4%nat] false 1%N
                               ThreadPool.Alive
                               [1%nat; 2%nat; 3%nat; 4%nat] []).
  set (p6 := ThreadPool.mkPool [ThreadPool.Executing 1%nat;
                                ThreadPool.Executing 2%nat]
                               [3%nat; 4%nat] false 2%N ThreadPool.Alive
                               [1%nat; 2%nat; 3%nat; 4%nat] []).
  set (p7 := ThreadPool.mkPool [ThreadPool.Finishing 1%nat;
                                ThreadPool.Executing 2%nat]
                               [3%nat; 4%nat] false 2%N ThreadPool.Alive
                               [1%nat; 2%nat; 3%nat; 4%nat] [1%nat]).
  assert (H1 : ThreadPool.reachable p0 p1).
  { apply (ThreadPool.reach_step p0 p0); [apply ThreadPool.reach_init |].
    apply (ThreadPool.step_submit p0 1%nat). reflexivity. }
  assert (H2 : ThreadPool.reachable p0 p2).
  { apply (ThreadPool.reach_step p0 p1 _ H1).
    apply (ThreadPool.step_submit p1 2%nat). reflexivity. }
  assert (H3 : ThreadPool.reachable p0 p3).
  { apply (ThreadPool.reach_step p0 p2 _ H2).
    apply (ThreadPool.step_submit p2 3%nat). reflexivity. }
  assert (H4 : ThreadPool.reachable p0 p4).
  { apply (ThreadPool.reach_step p0 p3 _ H3).
    apply (ThreadPool.step_submit p3 4%nat). reflexivity. }
  assert (H5 : ThreadPool.reachable p0 p5).
  { apply (ThreadPool.reach_step p0 p4 _ H4).
    exact (ThreadPool.step_take p4 0 eq_refl eq_refl). }
  assert (H6 : ThreadPool.reachable p0 p6).
  { apply (ThreadPool.reach_step p0 p5 _ H5).
    exact (ThreadPool.step_take p5 1 eq_refl eq_refl). }
  assert (H7 : ThreadPool.reachable p0 p7).
  { apply (ThreadPool.reach_step p0 p6 _ H6).
    exact (ThreadPool.step_run p6 0 1%nat eq_refl). }
  apply (ThreadPool.reach_step p0 p7 _ H7).
  exact (ThreadPool.step_finish p7 0 1%nat eq_refl).
Qed.

Lemma reachable_pool_queued :
  ThreadPool.reachable (ThreadPool.ThreadPool 1 1) Inputs.pool_queued.
Proof.
  set (p0 := ThreadPool.ThreadPool 1 1).
  set (W := ThreadPool.Waiting).
  set (p1 := ThreadPool.mkPool [W] [1%nat] false 0%N ThreadPool.Alive
                               [1%nat] []).
  set (p2 := ThreadPool.mkPool [W] [1%nat; 2%nat] false 0%N
                               ThreadPool.Alive [1%nat; 2%nat] []).
  set (p3 := ThreadPool.mkPool [ThreadPool.Executing 1%nat] [2%nat] false 1%N
                               ThreadPool.Alive [1%nat; 2%nat] []).
  set (p4 := ThreadPool.mkPool [ThreadPool.Executing 1%nat] [2%nat; 3%nat]
                               false 1%N ThreadPool.Alive
                               [1%nat; 2%nat; 3%nat] []).
  set (p5 := ThreadPool.mkPool [ThreadPool.Finishing 1%nat] [2%nat; 3%nat]
                               false 1%N ThreadPool.Alive
                               [1%nat; 2%nat; 3%nat] [1%nat]).
  set (p6 := ThreadPool.mkPool [W] [2%nat; 3%nat] false 0%N ThreadPool.Alive
                               [1%nat; 2%nat; 3%nat] [1%nat]).
  assert (H1 : ThreadPool.reachable p0 p1).
  { apply (ThreadPool.reach_step p0 p0); [apply ThreadPool.reach_init |].
    apply (ThreadPool.step_submit p0 1%nat). reflexivity. }
  assert (H2 : ThreadPool.reachable p0 p2).
  { apply (ThreadPool.reach_step p0 p1 _ H1).
    apply (ThreadPool.step_submit p1 2%nat). reflexivity. }
  assert (H3 : ThreadPool.reachable p0 p3).
  { apply (ThreadPool.reach_step p0 p2 _ H2).
    exact (ThreadPool.step_take p2 0 eq_refl eq_refl). }
  assert (H4 : ThreadPool.reachable p0 p4).
  { apply (ThreadPool.reach_step p0 p3 _ H3).
    apply (ThreadPool.step_submit p3 3%nat). reflexivity. }
  assert (H5 : ThreadPool.reachable p0 p5).
  { apply (ThreadPool.reach_step p0 p4 _ H4).
    exact (ThreadPool.step_run p4 0 1%nat eq_refl). }
  assert (H6 : ThreadPool.reachable p0 p6).
  { apply (ThreadPool.reach_step p0 p5 _ H5).
    exact (ThreadPool.step_finish p5 0 1%nat eq_refl). }
  apply (ThreadPool.reach_step p0 p6 _ H6).
  exact (ThreadPool.step_take p6 0 eq_refl eq_refl).
Qed.

(** X1. In every state a pool can reach, [activeTasks_] is the number of
    workers that have dequeued a task and not yet passed the locked
    section after it; it never exceeds the number of workers, and the
    decrement never takes it below zero. *)
Theorem activeTasks_counts_busy_workers (hc n : N) (p : ThreadPool.pool) :
  ThreadPool.reachable (ThreadPool.ThreadPool hc n) p ->
  ThreadPool.activeTasks_ p
  = N.of_nat (ThreadPool.busy_count (ThreadPool.workers_ p))
  /\ (ThreadPool.activeTasks_ p <= ThreadPool.getThreadCount p)%N.
Proof.
  intros Hreach. pose proof (reachable_active_count hc n p Hreach) as Hact.
  split; [done |]. rewrite Hact. unfold ThreadPool.getThreadCount.
  pose proof (busy_count_le (ThreadPool.workers_ p)). lia.
Qed.

Lemma activeTasks_counts_busy_workers_witness :
  ThreadPool.activeTasks_ Inputs.pool_running = 1%N
  /\ (1 <= ThreadPool.getThreadCount Inputs.pool_running)%N.
Proof.
  exact (activeTasks_counts_busy_workers 1 1 Inputs.pool_running
                                         reachable_pool_running).
Defined.

(** X2. Whenever the predicate of [waitAll] holds (the queue is empty and
    [activeTasks_] is 0) in a state a pool can reach, every task accepted
    so far has been run, once. *)
Theorem waitAll_returns_after_all_tasks (hc n : N) (p : ThreadPool.pool) :
  ThreadPool.reachable (ThreadPool.ThreadPool hc n) p ->
  ThreadPool.waitAll_predicate p = true ->
  ThreadPool.executed p ≡ₚ ThreadPool.accepted p.
Proof.
  intros Hreach Hpred.
  destruct (reachable_consistent hc n p Hreach) as (Hcons & _).
  pose proof (reachable_active_count hc n p Hreach) as Hact.
  unfold ThreadPool.waitAll_predicate in Hpred.
  apply andb_true_iff in Hpred as [Hq Ha].
  apply bool_decide_eq_true_1 in Hq. apply N.eqb_eq in Ha.
  rewrite Hcons, Hq, busy_none_flying, !app_nil_r; [done | lia].
Qed.

Lemma waitAll_returns_after_all_tasks_witness :
  ThreadPool.executed Inputs.pool_idle ≡ₚ ThreadPool.accepted Inputs.pool_idle.
Proof.
  exact (waitAll_returns_after_all_tasks 1 1 Inputs.pool_idle
                                         reachable_pool_idle eq_refl).
Defined.

(** X3. Tasks leave the queue first in, first out: in every state a pool
    can reach, the accepted tasks, in the order of their submission, are
    some tasks already taken by workers followed by exactly the queue;
    the tasks taken are those run and those in flight. *)
Theorem queue_is_first_in_first_out (hc n : N) (p : ThreadPool.pool) :
  ThreadPool.reachable (ThreadPool.ThreadPool hc n) p ->
  exists taken,
    ThreadPool.accepted p = taken ++ ThreadPool.tasks_ p
    /\ taken ≡ₚ ThreadPool.executed p
                 ++ ThreadPool.flying (ThreadPool.workers_ p).
Proof.
  induction 1 as [| p p' _ IH Hstep]; [| by apply (queue_is_suffix_step p)].
  exists []. split; [done |]. simpl.
  unfold ThreadPool.flying.
  induction (N.to_nat _) as [| m IHm]; [done | by csimpl].
Qed.

Lemma queue_is_first_in_first_out_witness :
  exists taken,
    ThreadPool.accepted Inputs.pool_busy
    = taken ++ ThreadPool.tasks_ Inputs.pool_busy
    /\ taken ≡ₚ ThreadPool.executed Inputs.pool_busy
                 ++ ThreadPool.flying (ThreadPool.workers_ Inputs.pool_busy).
Proof.
  exact (queue_is_first_in_first_out 2 2 Inputs.pool_busy
                                     reachable_pool_busy).
Defined.

(** X4. A pool that has a single worker runs its tasks in the order of
    their submission: in every state it can reach, the accepted tasks
    are, in this order, the tasks run, the task in flight if any, and the
    queue. *)
Theorem single_worker_runs_in_order (hc n : N) (p : ThreadPool.pool) :
  ThreadPool.getThreadCount (ThreadPool.ThreadPool hc n) = 1%N ->
  ThreadPool.reachable (ThreadPool.ThreadPool hc n) p ->
  ThreadPool.accepted p
  = ThreadPool.executed p ++ ThreadPool.flying (ThreadPool.workers_ p)
    ++ ThreadPool.tasks_ p.
Proof.
  intros Hone Hreach. rewrite getThreadCount_constructor in Hone.
  induction Hreach as [| p p' Hreach IH Hstep].
  - simpl. rewrite Hone. done.
  - apply (single_worker_step p); [| done | done].
    rewrite (reachable_workers hc n p Hreach), Hone. done.
Qed.

Lemma single_worker_runs_in_order_witness :
  ThreadPool.accepted Inputs.pool_queued
  = ThreadPool.executed Inputs.pool_queued
    ++ ThreadPool.flying (ThreadPool.workers_ Inputs.pool_queued)
    ++ ThreadPool.tasks_ Inputs.pool_queued.
Proof.
  exact (single_worker_runs_in_order 1 1 Inputs.pool_queued eq_refl
                                     reachable_pool_queued).
Defined.

(** ** StreamDecoder: the frame buffer, [stop] and the input *)

Section StreamDecoderFacts.
Context {E : Type} `{DecodeEngine E}.
Variable indeterminate : bool * Z.
Local Abbreviation Impl := (@StreamDecoder.Impl E).
Local Abbreviation readNextFrame := (StreamDecoder.readNextFrame indeterminate).
Local Abbreviation read_calls := (StreamDecoder.read_calls indeterminate).

(** What a call leaves of the decoder: the buffer cap is kept; the buffer
    is pushed the frame returned, if any; the input loses at most its
    first item. *)
Lemma readNextFrame_effect (st st' : Impl) (r : option FrameInfo) :
  readNextFrame st = (r, st') ->
  StreamDecoder.maxBufferSize st' = StreamDecoder.maxBufferSize st
  /\ StreamDecoder.frameBuffer st'
     = match r with
       | Some info => StreamDecoder.buffer_push st info
       | None => StreamDecoder.frameBuffer st
       end
  /\ (StreamDecoder.input st' = StreamDecoder.input st
      \/ exists item, StreamDecoder.input st = item :: StreamDecoder.input st')
  /\ (StreamDecoder.streamActive st = false -> r = None /\ st' = st)
  /\ (is_Some r -> StreamDecoder.streamActive st' = true)
  /\ (StreamDecoder.streamActive st' = true ->
      StreamDecoder.streamActive st = true).
Proof.
  unfold StreamDecoder.readNextFrame. intros Heq.
  destruct (StreamDecoder.streamActive st) eqn:Hact; simpl in Heq;
    [| by effect_cases].
  destruct (avcodec_receive_frame _) as [[frame | | | code] eng1];
    try by effect_cases.
  destruct (StreamDecoder.input st) as [| [packet | | code] rest] eqn:Hin;
    try by effect_cases.
  destruct (negb _); [by effect_cases |].
  destruct (avcodec_send_packet _ _) as [[| | code] eng2];
    try (destruct (avcodec_receive_frame eng2) as [[frame | | | code'] eng3]);
    by effect_cases.
Qed.


Lemma read_calls_inactive (n : nat) (st : Impl) :
  StreamDecoder.streamActive st = false ->
  read_calls n st = (replicate n None, st).
Proof.
  intros Hact. induction n as [| n IH]; [done |].
  simpl. unfold StreamDecoder.readNextFrame at 1. rewrite Hact. simpl.
  by rewrite IH.
Qed.

Lemma buffer_push_capped (st : Impl) (info : FrameInfo) :
  StreamDecoder.buffer_push st info
  = StreamAnalyzer.push_capped (StreamDecoder.maxBufferSize st) info
      (StreamDecoder.frameBuffer st).
Proof. reflexivity. Qed.


(** The buffer is the tail of the frames handed out so far. *)
Lemma read_calls_buffer (n : nat) (st : Impl) (hist : list FrameInfo) :
  (1 <= StreamDecoder.maxBufferSize st)%nat ->
  StreamDecoder.frameBuffer st
  = drop (length hist - StreamDecoder.maxBufferSize st) hist ->
  StreamDecoder.maxBufferSize (read_calls n st).2
  = StreamDecoder.maxBufferSize st
  /\ StreamDecoder.frameBuffer (read_calls n st).2
     = drop (length (hist ++ omap id (read_calls n st).1)
             - StreamDecoder.maxBufferSize st)
            (hist ++ omap id (read_calls n st).1).
Proof.
  revert st hist. induction n as [| n IH]; intros st hist Hcap Hbuf.
  { simpl. by rewrite app_nil_r. }
  simpl. destruct (readNextFrame st) as [r st1] eqn:Hcall.
  destruct (readNextFrame_effect _ _ _ Hcall) as (Hmax & Hpush & _).
  destruct (read_calls n st1) as [rs st2] eqn:Hrest. simpl.
  destruct r as [info |]; simpl.
  - destruct (IH st1 (hist ++ [info])) as [Hmax2 Hbuf2].
    + by rewrite Hmax.
    + rewrite Hpush, Hmax, buffer_push_capped, Hbuf.
      by apply push_capped_latest.
    + rewrite Hrest in Hmax2, Hbuf2. simpl in Hmax2, Hbuf2.
      rewrite Hmax in Hmax2, Hbuf2. rewrite <- app_assoc in Hbuf2. done.
  - destruct (IH st1 hist) as [Hmax2 Hbuf2].
    + by rewrite Hmax.
    + by rewrite Hpush, Hmax.
    + rewrite Hrest in Hmax2, Hbuf2. simpl in Hmax2, Hbuf2.
      by rewrite Hmax in Hmax2, Hbuf2.
Qed.

End StreamDecoderFacts.

(** X5. StreamDecoder::readNextFrame / getBufferStatus: from an empty
    buffer of capacity at least 1, after any number of calls the frame
    buffer holds exactly the most recent [maxBufferSize] frames the calls
    returned, oldest first, and [getBufferStatus] reports as
    [bufferedFrames] the smaller of the number of frames returned and the
    capacity. *)
Theorem stream_buffer_holds_latest_frames {E : Type} `{DecodeEngine E}
    (indeterminate : bool * Z) (n : nat) (st : @StreamDecoder.Impl E) :
  (1 <= StreamDecoder.maxBufferSize st)%nat ->
  StreamDecoder.frameBuffer st = [] ->
  let run := StreamDecoder.read_calls indeterminate n st in
  let frames := omap id run.1 in
  StreamDecoder.frameBuffer run.2
  = drop (length frames - StreamDecoder.maxBufferSize st) frames
  /\ bufferedFrames (StreamDecoder.getBufferStatus run.2)
     = min (length frames) (StreamDecoder.maxBufferSize st).
Proof.
  intros Hcap Hempty run frames.
  destruct (read_calls_buffer indeterminate n st [] Hcap) as [Hmax Hbuf];
    [by rewrite Hempty |].
  simpl in Hbuf. fold run in Hbuf. fold frames in Hbuf.
  split; [done |].
  unfold StreamDecoder.getBufferStatus. simpl. fold run. rewrite Hbuf.
  rewrite length_drop. lia.
Qed.

Lemma stream_buffer_holds_latest_frames_witness :
  let st := Inputs.opened_live AV_CODEC_ID_H264 0
              [Inputs.packet 1; Inputs.packet 2] in
  let run := StreamDecoder.read_calls (false, -1) 3 st in
  let frames := omap id run.1 in
  StreamDecoder.frameBuffer run.2
  = drop (length frames - StreamDecoder.maxBufferSize st) frames
  /\ bufferedFrames (StreamDecoder.getBufferStatus run.2)
     = min (length frames) (StreamDecoder.maxBufferSize st).
Proof.
  exact (stream_buffer_holds_latest_frames (false, -1) 3
           (Inputs.opened_live AV_CODEC_ID_H264 0
              [Inputs.packet 1; Inputs.packet 2])
           ltac:(simpl; lia) eq_refl).
Defined.

(** X6. StreamDecoder::stop / readNextFrame: once [stop] has been called,
    every later call of [readNextFrame] returns no frame and leaves the
    decoder, its input and its buffer as they are. *)
Theorem stream_stop_is_final {E : Type} `{DecodeEngine E}
    (indeterminate : bool * Z) (n : nat) (st : @StreamDecoder.Impl E) :
  StreamDecoder.read_calls indeterminate n (StreamDecoder.stop st)
  = (replicate n None, StreamDecoder.stop st).
Proof. by apply read_calls_inactive. Qed.

(** X7. StreamDecoder::readNextFrame: a call never waits for the source:
    it takes at most one item off the input, whatever the engine answers;
    and a stream that is active after the call was active before it. *)
Theorem stream_call_reads_at_most_one_item {E : Type} `{DecodeEngine E}
    (indeterminate : bool * Z) (st : @StreamDecoder.Impl E) :
  let st' := (StreamDecoder.readNextFrame indeterminate st).2 in
  (StreamDecoder.input st' = StreamDecoder.input st
   \/ exists item, StreamDecoder.input st = item :: StreamDecoder.input st')
  /\ Bool.le (StreamDecoder.isStreamActive st')
             (StreamDecoder.isStreamActive st).
Proof.
  destruct (StreamDecoder.readNextFrame indeterminate st) as [r st'] eqn:Hcall.
  destruct (readNextFrame_effect _ _ _ _ Hcall)
    as (_ & _ & Hin & _ & _ & Hact).
  simpl. split; [done |]. unfold StreamDecoder.isStreamActive.
  destruct (StreamDecoder.streamActive st'); [| done].
  simpl. by apply Hact.
Qed.

(** X8. StreamDecoder::readNextFrame: when a call returns a frame, the
    stream was active and stays active, and, the capacity being at least
    1, the frame is the newest entry of the frame buffer. *)
Theorem stream_returned_frame_is_buffered {E : Type} `{DecodeEngine E}
    (indeterminate : bool * Z) (st st' : @StreamDecoder.Impl E)
    (info : FrameInfo) :
  (1 <= StreamDecoder.maxBufferSize st)%nat ->
  StreamDecoder.readNextFrame indeterminate st = (Some info, st') ->
  StreamDecoder.isStreamActive st = true
  /\ StreamDecoder.isStreamActive st' = true
  /\ last (StreamDecoder.frameBuffer st') = Some info.
Proof.
  intros Hcap Hcall.
  destruct (readNextFrame_effect _ _ _ _ Hcall)
    as (_ & Hpush & _ & _ & Hon & Hact).
  unfold StreamDecoder.isStreamActive.
  assert (Hst' : StreamDecoder.streamActive st' = true) by (apply Hon; eauto).
  repeat split; [by apply Hact | done |].
  rewrite Hpush, buffer_push_capped. by apply push_capped_last.
Qed.

Lemma stream_returned_frame_is_buffered_witness :
  let st := Inputs.opened_live AV_CODEC_ID_H264 0 [Inputs.packet 1] in
  let call := StreamDecoder.readNextFrame (false, -1) st in
  exists info,
    call.1 = Some info
    /\ StreamDecoder.isStreamActive st = true
    /\ StreamDecoder.isStreamActive call.2 = true
    /\ last (StreamDecoder.frameBuffer call.2) = Some info.
Proof.
  eexists. split; [reflexivity |].
  exact (stream_returned_frame_is_buffered (false, -1)
           (Inputs.opened_live AV_CODEC_ID_H264 0 [Inputs.packet 1]) _ _
           ltac:(simpl; lia) eq_refl).
Defined.


(** ** The decoders' thread count *)

(** X9. VideoDecoder and StreamDecoder constructors: on a machine that
    reports fewer than 2^31 hardware threads, the thread count kept is
    between 1 and the hardware count (1 when that is unknown); a positive
    request is cut down to the hardware count, and a request of 0 or a
    negative one, which the conversion to [unsigned int] makes large,
    gives the hardware count. Both constructors compute the same
    number. *)
Theorem decoder_thread_count_is_clamped (hardware_concurrency threadCount : Z) :
  0 <= hardware_concurrency < 2 ^ 31 ->
  CInt.in_int threadCount ->
  let count :=
    VideoDecoder.constructor_threadCount hardware_concurrency threadCount in
  1 <= count <= Z.max 1 hardware_concurrency
  /\ count = (if 0 <? threadCount
              then Z.min threadCount (Z.max 1 hardware_concurrency)
              else Z.max 1 hardware_concurrency)
  /\ StreamDecoder.constructor_threadCount hardware_concurrency threadCount
     = count.
Proof.
  intros Hhc Hn count.
  assert (Hcount : count = (if 0 <? threadCount
              then Z.min threadCount (Z.max 1 hardware_concurrency)
              else Z.max 1 hardware_concurrency)).
  { unfold count, VideoDecoder.constructor_threadCount.
    unfold CInt.in_int, CInt.INT_MIN, CInt.INT_MAX in Hn.
    destruct (Z.eqb_spec threadCount 0) as [-> | Hnz].
    - simpl. rewrite int_in_range
        by (unfold CInt.in_int, CInt.INT_MIN, CInt.INT_MAX; lia).
      destruct (Z.eqb_spec hardware_concurrency 0); lia.
    - cbv zeta. unfold CInt.unsigned_int.
      destruct (Z.ltb_spec 0 threadCount) as [Hpos | Hneg].
      + rewrite Z.mod_small by lia.
        rewrite int_in_range
          by (unfold CInt.in_int, CInt.INT_MIN, CInt.INT_MAX;
              destruct (Z.eqb_spec hardware_concurrency 0); lia).
        destruct (Z.eqb_spec hardware_concurrency 0); lia.
      + assert (Hwrap : threadCount mod 2 ^ 32 = threadCount + 2 ^ 32).
        { symmetry. apply (Z.mod_unique _ _ (-1)); lia. }
        rewrite Hwrap.
        rewrite int_in_range
          by (unfold CInt.in_int, CInt.INT_MIN, CInt.INT_MAX;
              destruct (Z.eqb_spec hardware_concurrency 0); lia).
        destruct (Z.eqb_spec hardware_concurrency 0); lia. }
  split; [| split; [done | done]].
  rewrite Hcount. destruct (0 <? threadCount) eqn:Hpos; [| lia].
  apply Z.ltb_lt in Hpos. lia.
Qed.

Lemma decoder_thread_count_is_clamped_witness :
  let count := VideoDecoder.constructor_threadCount 8 (-1) in
  1 <= count <= Z.max 1 8
  /\ count = (if 0 <? -1 then Z.min (-1) (Z.max 1 8) else Z.max 1 8)
  /\ StreamDecoder.constructor_threadCount 8 (-1) = count.
Proof.
  exact (decoder_thread_count_is_clamped 8 (-1)
           ltac:(lia) ltac:(unfold CInt.in_int, CInt.INT_MIN, CInt.INT_MAX; lia)).
Defined.

(** ** GOPAnalyzer: where the segments are cut, and their lengths *)

Section GOPCutFacts.
Import GOPAnalyzer.

(** The counting loop leaves the fields set before it as they are. *)
Lemma count_loop_fields (frames : list FrameInfo) (l : list nat) (g : GOPInfo) :
  let g' := foldl (fun acc i => count_frame frames i acc) g l in
  gopIndex g' = gopIndex g /\ startPts g' = startPts g
  /\ endPts g' = endPts g /\ isOpenGOP g' = isOpenGOP g.
Proof.
  revert g. induction l as [| j l IH]; intros g; [done |].
  simpl. destruct (IH (count_frame frames j g)) as (-> & -> & -> & ->).
  unfold count_frame. destruct (frames !! j) as [f |]; [| done].
  by destruct (type f).
Qed.

Lemma make_gop_fields (frames : list FrameInfo) (index : Z) (a b : nat) :
  let g := make_gop frames index a b in
  gopIndex g = index
  /\ startPts g = pts_at frames a
  /\ endPts g = pts_at frames (b - 1)
  /\ isOpenGOP g = false.
Proof. apply count_loop_fields. Qed.

Lemma starts_at_lookup (frames : list FrameInfo) (i : nat) (f : FrameInfo) :
  frames !! i = Some f -> starts_at frames i = starts_gop f.
Proof. intros Hf. unfold starts_at. by rewrite Hf. Qed.

Lemma cut_segments_snoc (frames : list FrameInfo) (gops : list GOPInfo)
    (g : GOPInfo) :
  cut_segments frames gops ->
  cut_segment frames (bool_decide (gops = [])) g ->
  cut_segments frames (gops ++ [g]).
Proof.
  destruct gops as [| g0 rest]; simpl.
  - intros _ Hg. split; [done | constructor].
  - intros [Hg0 Hrest] Hg. split; [done |].
    apply Forall_app. split; [done |]. by apply Forall_singleton.
Qed.

Lemma scan_cuts_push (frames : list FrameInfo) (s : scan) (i b : nat) :
  (gopStart_ s < b)%nat -> (b <= i)%nat -> (b <= length frames)%nat ->
  scan_cuts frames i s ->
  (forall j, (gopStart_ s < j < b)%nat -> starts_at frames j = false) ->
  cut_segments frames
    (gops_ s ++ [make_gop frames (gopIndex_ s) (gopStart_ s) b]).
Proof.
  intros Hlt Hbi Hb (_ & _ & Hcuts & Hstart & _) Hinner.
  apply cut_segments_snoc; [done |].
  exists (gopIndex_ s), (gopStart_ s), b.
  split; [done |]. split; [lia |]. split; [| done].
  destruct (decide (gops_ s = [])) as [Hnil | Hcons].
  - by rewrite bool_decide_eq_true_2.
  - by rewrite bool_decide_eq_false_2.
Qed.

Lemma scan_cuts_step (frames : list FrameInfo) (i : nat) (s : scan) :
  (1 <= i < length frames)%nat ->
  scan_cuts frames i s -> scan_cuts frames (S i) (boundary_step frames i s).
Proof.
  intros Hi Hs.
  destruct (lookup_lt_is_Some_2 frames i) as [f Hf]; [lia |].
  pose proof (starts_at_lookup frames i f Hf) as Hat.
  pose proof Hs as (Hlt & Hinner & Hcuts & Hstart & Hlen).
  unfold boundary_step. rewrite Hf.
  destruct (starts_gop f) eqn:Hkey.
  - split; [simpl; lia |]. split; [simpl; intros j Hj; lia |].
    split; [simpl; apply (scan_cuts_push frames s i i); (lia || done) |].
    split.
    + cbn [gops_ gopStart_]. destruct (decide (gops_ s ++ _ = [])) as [Hnil | _]; [| by rewrite Hat].
      by destruct (gops_ s).
    + simpl. rewrite length_app, (slice_snoc frames 1 i f) by (lia || done).
      rewrite filter_app, length_app, filter_cons, filter_nil.
      rewrite decide_True by by rewrite Hkey. simpl. lia.
  - split; [lia |]. split.
    { intros j Hj. destruct (decide (j = i)) as [-> | Hne];
        [by rewrite Hat | apply Hinner; lia]. }
    split; [done |]. split; [done |].
    rewrite (slice_snoc frames 1 i f) by (lia || done).
    rewrite filter_app, length_app, filter_cons, filter_nil.
    rewrite decide_False by (rewrite Hkey; intros []). simpl. lia.
Qed.

(** Where [detectGOPBoundaries] cuts: a first segment from frame 0, then
    one segment from each later key I-frame, each up to the frame before
    the next one, the last up to the last frame. *)
Lemma detectGOPBoundaries_cuts (frames : list FrameInfo) :
  frames <> [] ->
  let gops := detectGOPBoundaries frames [] in
  cut_segments frames gops
  /\ length gops = S (length (filter starts_gop (drop 1 frames)))
  /\ exists index a, last gops = Some (make_gop frames index a (length frames)).
Proof.
  intros Hcons gops. subst gops.
  rewrite detectGOPBoundaries_unfold by done. cbv zeta.
  assert (Hlen : (1 <= length frames)%nat).
  { destruct frames; [done | simpl; lia]. }
  assert (Hs : scan_cuts frames (length frames)
            (for_range 1 (length frames) (boundary_step frames) (mkScan [] 0 0))).
  { apply (for_range_ind (scan_cuts frames)); [done | |].
    - split; [simpl; lia |]. split; [simpl; intros j Hj; lia |].
      split; [done |]. split; [done |]. by rewrite slice_empty.
    - intros i s Hi. by apply scan_cuts_step. }
  set (s := for_range 1 (length frames) (boundary_step frames) (mkScan [] 0 0)) in *.
  pose proof Hs as (Hlt & Hinner & Hcuts & Hstart & Hcount).
  rewrite (proj2 (Nat.ltb_lt _ _) Hlt).
  split; [apply (scan_cuts_push frames s (length frames)); (lia || done) |].
  split.
  - rewrite length_app, Hcount. unfold slice.
    rewrite take_ge by (rewrite length_drop; lia). simpl. lia.
  - exists (gopIndex_ s), (gopStart_ s). by rewrite last_snoc.
Qed.

End GOPCutFacts.

(** X10. GOPAnalyzer::analyze: the number of GOPs found is one more than
    the number of key I-frames after the first frame; no GOP is found
    when there is no frame. *)
Theorem gop_count_is_key_frames_plus_one (frames : list FrameInfo) :
  length (GOPAnalyzer.analyze_frames frames)
  = match frames with
    | [] => 0%nat
    | _ :: rest => S (length (filter GOPAnalyzer.starts_gop rest))
    end.
Proof.
  destruct frames as [| f rest]; [done |].
  unfold GOPAnalyzer.analyze_frames.
  destruct (detectGOPBoundaries_cuts (f :: rest)) as (_ & Hlen & _); [done |].
  by rewrite Hlen.
Qed.

Section GOPSegmentFacts.
Import GOPAnalyzer.
Variable frames : list FrameInfo.
Hypothesis frames_fit : Z.of_nat (length frames) <= CInt.INT_MAX.

Lemma slice_cons (a b : nat) (f : FrameInfo) :
  (a < b)%nat -> frames !! a = Some f ->
  slice frames a b = f :: slice frames (S a) b.
Proof.
  intros Hab Hf. unfold slice.
  rewrite (drop_S _ _ _ Hf).
  replace (b - a)%nat with (S (b - S a)) by lia. done.
Qed.

Lemma slice_lookup (a b k : nat) (f : FrameInfo) :
  slice frames a b !! k = Some f ->
  (a + k < b)%nat /\ frames !! (a + k)%nat = Some f.
Proof.
  unfold slice. intros Hk.
  apply lookup_take_Some in Hk as [Hk Hlt].
  rewrite lookup_drop in Hk. split; [lia | done].
Qed.

(** What the record of a segment says of its frames. *)
Lemma cut_segment_counts (first : bool) (g : GOPInfo) :
  cut_segment frames first g ->
  exists a b,
    (a < b <= length frames)%nat
    /\ (if first then a = 0%nat else starts_at frames a = true)
    /\ (forall j, (a < j < b)%nat -> starts_at frames j = false)
    /\ frameCount g = Z.of_nat (b - a)
    /\ iFrameCount g = Z.of_nat (count_type I_FRAME (slice frames a b))
    /\ pFrameCount g = Z.of_nat (count_type P_FRAME (slice frames a b))
    /\ bFrameCount g = Z.of_nat (count_type B_FRAME (slice frames a b))
    /\ startPts g = pts_at frames a
    /\ endPts g = pts_at frames (b - 1)
    /\ isOpenGOP g = false.
Proof.
  intros (index & a & b & -> & Hab & Hfirst & Hinner).
  exists a, b.
  destruct (make_gop_counts frames frames_fit index a b) as (? & ? & ? & ?);
    [lia |].
  destruct (make_gop_fields frames index a b) as (? & ? & ? & ?).
  repeat split; (done || lia).
Qed.

Lemma keyed_segment_has_I_frame (g : GOPInfo) :
  cut_segment frames false g -> 1 <= iFrameCount g.
Proof.
  intros Hg.
  destruct (cut_segment_counts false g Hg)
    as (a & b & Hab & Hkey & _ & _ & -> & _).
  unfold starts_at in Hkey.
  destruct (frames !! a) as [f |] eqn:Hf; [| done]. simpl in Hkey.
  rewrite (slice_cons a b f) by (lia || done).
  change (f :: slice frames (S a) b) with ([f] ++ slice frames (S a) b).
  rewrite count_type_app, count_type_one.
  unfold starts_gop in Hkey. apply andb_true_iff in Hkey as [Htype _].
  apply bool_decide_eq_true in Htype. rewrite decide_True by done. lia.
Qed.

End GOPSegmentFacts.

(** X11. GOPAnalyzer::analyze: for at most INT_MAX frames, the GOPs are
    numbered 0, 1, 2, ... in the order found. *)
Theorem gop_indices_are_consecutive (frames : list FrameInfo) :
  Z.of_nat (length frames) <= CInt.INT_MAX ->
  gopIndex <$> GOPAnalyzer.analyze_frames frames
  = Z.of_nat <$> seq 0 (length (GOPAnalyzer.analyze_frames frames)).
Proof.
  intros Hfit. destruct (decide (frames = [])) as [-> | Hcons]; [done |].
  assert (Hrun : GOPAnalyzer.analyze_frames frames
                 = GOPAnalyzer.detectGOPBoundaries frames []) by by destruct frames.
  rewrite Hrun, detectGOPBoundaries_unfold by done. cbv zeta.
  assert (Hlen : (1 <= length frames)%nat).
  { destruct frames; [done | simpl; lia]. }
  set (P := fun (i : nat) (s : GOPAnalyzer.scan) =>
    (length (GOPAnalyzer.gops_ s) < i)%nat
    /\ GOPAnalyzer.gopIndex_ s = Z.of_nat (length (GOPAnalyzer.gops_ s))
    /\ gopIndex <$> GOPAnalyzer.gops_ s
       = Z.of_nat <$> seq 0 (length (GOPAnalyzer.gops_ s))).
  assert (Hpush : forall s a b,
    GOPAnalyzer.gopIndex_ s = Z.of_nat (length (GOPAnalyzer.gops_ s)) ->
    gopIndex <$> GOPAnalyzer.gops_ s
    = Z.of_nat <$> seq 0 (length (GOPAnalyzer.gops_ s)) ->
    let gops := GOPAnalyzer.gops_ s
                ++ [GOPAnalyzer.make_gop frames (GOPAnalyzer.gopIndex_ s) a b] in
    gopIndex <$> gops = Z.of_nat <$> seq 0 (length gops)).
  { intros s a b Hidx Hall gops. subst gops.
    destruct (make_gop_fields frames (GOPAnalyzer.gopIndex_ s) a b) as (Hi & _).
    rewrite length_app, fmap_app, Hall. simpl length.
    rewrite Nat.add_1_r, seq_S, fmap_app. simpl.
    by rewrite Hi, Hidx. }
  assert (Hs : P (length frames)
            (for_range 1 (length frames) (GOPAnalyzer.boundary_step frames)
                       (GOPAnalyzer.mkScan [] 0 0))).
  { apply (for_range_ind P); [done | by (repeat split; simpl; lia) |].
    intros i s Hi (Hlt & Hidx & Hall). unfold GOPAnalyzer.boundary_step.
    destruct (frames !! i) as [f |]; [| repeat split; (lia || done)].
    destruct (GOPAnalyzer.starts_gop f); [| repeat split; (lia || done)].
    split; [simpl; rewrite length_app; simpl; lia |].
    split; [| by apply Hpush].
    simpl. rewrite length_app, Hidx. simpl.
    rewrite incr_in_range; unfold CInt.INT_MIN, CInt.INT_MAX in *; lia. }
  set (s := for_range 1 (length frames) (GOPAnalyzer.boundary_step frames)
                      (GOPAnalyzer.mkScan [] 0 0)) in *.
  destruct Hs as (_ & Hidx & Hall).
  destruct (_ <? _)%nat; [by apply Hpush | done].
Qed.

Lemma gop_indices_are_consecutive_witness :
  let frames := [Inputs.typed I_FRAME true; Inputs.typed P_FRAME false;
                 Inputs.typed I_FRAME true] in
  gopIndex <$> GOPAnalyzer.analyze_frames frames
  = Z.of_nat <$> seq 0 (length (GOPAnalyzer.analyze_frames frames)).
Proof.
  exact (gop_indices_are_consecutive
           [Inputs.typed I_FRAME true; Inputs.typed P_FRAME false;
            Inputs.typed I_FRAME true]
           ltac:(vm_compute; discriminate)).
Defined.

(** X12. GOPAnalyzer::analyze: for at most INT_MAX frames, every GOP has
    at least one frame, counters that are not negative and is never
    marked as open; every GOP after the first starts at a key I-frame and
    so counts at least one I-frame; the first GOP starts at the pts of
    the first frame and the last one ends at the pts of the last frame. *)
Theorem gops_are_nonempty_and_keyed (frames : list FrameInfo) :
  Z.of_nat (length frames) <= CInt.INT_MAX ->
  let gops := GOPAnalyzer.analyze_frames frames in
  Forall (fun g => 1 <= frameCount g <= Z.of_nat (length frames)
                   /\ 0 <= iFrameCount g /\ 0 <= pFrameCount g
                   /\ 0 <= bFrameCount g /\ isOpenGOP g = false) gops
  /\ Forall (fun g => 1 <= iFrameCount g) (tail gops)
  /\ startPts <$> head gops = pts <$> head frames
  /\ endPts <$> last gops = pts <$> last frames.
Proof.
  intros Hfit gops. subst gops.
  destruct (decide (frames = [])) as [-> | Hcons]; [by repeat constructor |].
  assert (Hrun : GOPAnalyzer.analyze_frames frames
                 = GOPAnalyzer.detectGOPBoundaries frames []) by by destruct frames.
  rewrite Hrun.
  destruct (detectGOPBoundaries_cuts frames Hcons)
    as (Hcuts & _ & index & a & Hlast).
  assert (Hone : forall first g,
    GOPAnalyzer.cut_segment frames first g ->
    1 <= frameCount g <= Z.of_nat (length frames)
    /\ 0 <= iFrameCount g /\ 0 <= pFrameCount g
    /\ 0 <= bFrameCount g /\ isOpenGOP g = false).
  { intros first g Hg.
    destruct (cut_segment_counts frames Hfit first g Hg)
      as (a' & b' & Hab & _ & _ & -> & -> & -> & -> & _ & _ & ->).
    repeat split; lia. }
  destruct (GOPAnalyzer.detectGOPBoundaries frames []) as [| g0 rest] eqn:Hgops;
    [done |].
  destruct Hcuts as [Hg0 Hrest]. split; [| split; [| split]].
  - constructor; [by apply (Hone true) |].
    eapply Forall_impl; [exact Hrest |]. intros g. by apply (Hone false).
  - simpl. eapply Forall_impl; [exact Hrest |].
    intros g. by apply keyed_segment_has_I_frame.
  - destruct (cut_segment_counts frames Hfit true g0 Hg0)
      as (a' & b' & _ & -> & _ & _ & _ & _ & _ & Hpts & _).
    simpl. rewrite Hpts. unfold GOPAnalyzer.pts_at.
    by destruct frames.
  - rewrite Hlast. simpl.
    destruct (make_gop_fields frames index a (length frames))
      as (_ & _ & -> & _).
    unfold GOPAnalyzer.pts_at. rewrite last_lookup.
    replace (Nat.pred (length frames)) with (length frames - 1)%nat by lia.
    destruct (lookup_lt_is_Some_2 frames (length frames - 1)) as [f Hf].
    { destruct frames; [done | simpl; lia]. }
    by rewrite Hf.
Qed.

Lemma gops_are_nonempty_and_keyed_witness :
  let frames := [Inputs.typed I_FRAME true; Inputs.typed P_FRAME false;
                 Inputs.typed I_FRAME true] in
  let gops := GOPAnalyzer.analyze_frames frames in
  Forall (fun g => 1 <= frameCount g <= Z.of_nat (length frames)
                   /\ 0 <= iFrameCount g /\ 0 <= pFrameCount g
                   /\ 0 <= bFrameCount g /\ isOpenGOP g = false) gops
  /\ Forall (fun g => 1 <= iFrameCount g) (tail gops)
  /\ startPts <$> head gops = pts <$> head frames
  /\ endPts <$> last gops = pts <$> last frames.
Proof.
  exact (gops_are_nonempty_and_keyed
           [Inputs.typed I_FRAME true; Inputs.typed P_FRAME false;
            Inputs.typed I_FRAME true]
           ltac:(vm_compute; discriminate)).
Defined.

Section GOPLengthFacts.
Import GOPAnalyzer.

Lemma foldl_max_bounds (gops : list GOPInfo) (m : Z) :
  let r := foldl (fun maxLen gop => Z.max maxLen (frameCount gop)) m gops in
  m <= r
  /\ Forall (fun g => frameCount g <= r) gops
  /\ (r = m \/ Exists (fun g => frameCount g = r) gops).
Proof.
  revert m. induction gops as [| g gops IH]; intros m; simpl.
  { split; [lia |]. split; [constructor | by left]. }
  destruct (IH (Z.max m (frameCount g))) as (Hle & Hall & Hex).
  split; [lia |]. split; [constructor; [lia | done] |].
  destruct Hex as [Heq | Hex]; [| right; by constructor 2].
  destruct (Z.max_spec m (frameCount g)) as [[_ Hm] | [_ Hm]].
  - right. constructor 1. lia.
  - left. lia.
Qed.

Lemma foldl_min_bounds (gops : list GOPInfo) (m : Z) :
  let r := foldl (fun minLen gop => Z.min minLen (frameCount gop)) m gops in
  r <= m
  /\ Forall (fun g => r <= frameCount g) gops
  /\ (r = m \/ Exists (fun g => frameCount g = r) gops).
Proof.
  revert m. induction gops as [| g gops IH]; intros m; simpl.
  { split; [lia |]. split; [constructor | by left]. }
  destruct (IH (Z.min m (frameCount g))) as (Hle & Hall & Hex).
  split; [lia |]. split; [constructor; [lia | done] |].
  destruct Hex as [Heq | Hex]; [| right; by constructor 2].
  destruct (Z.min_spec m (frameCount g)) as [[_ Hm] | [_ Hm]].
  - left. lia.
  - right. constructor 1. lia.
Qed.

Lemma foldl_total (gops : list GOPInfo) (acc : Z) :
  Forall (fun g => 0 <= frameCount g) gops ->
  0 <= acc -> acc + sum_frameCount gops <= CInt.INT_MAX ->
  foldl (fun total gop => CInt.int (total + frameCount gop)) acc gops
  = acc + sum_frameCount gops.
Proof.
  intros Hall. revert acc.
  induction Hall as [| g gops Hg Hall IH]; intros acc Hacc Hsum; simpl in *;
    [lia |].
  assert (Hrest : 0 <= sum_frameCount gops).
  { clear IH Hsum. unfold sum_frameCount.
    induction Hall as [| h gops Hh _ IH']; simpl; lia. }
  fold (sum_frameCount gops) in Hsum.
  rewrite int_in_range
    by (unfold CInt.in_int, CInt.INT_MIN, CInt.INT_MAX in *; lia).
  rewrite IH by lia. fold (sum_frameCount gops). lia.
Qed.

End GOPLengthFacts.

Lemma analyze_frames_lengths (frames : list FrameInfo) :
  Z.of_nat (length frames) <= CInt.INT_MAX ->
  Forall (fun g => 1 <= frameCount g <= Z.of_nat (length frames))
         (GOPAnalyzer.analyze_frames frames).
Proof.
  intros Hfit.
  destruct (decide (frames = [])) as [-> | Hcons]; [by constructor |].
  assert (Hrun : GOPAnalyzer.analyze_frames frames
                 = GOPAnalyzer.detectGOPBoundaries frames []) by by destruct frames.
  rewrite Hrun.
  destruct (detectGOPBoundaries_cuts frames Hcons) as (Hcuts & _).
  assert (Hone : forall first g,
    GOPAnalyzer.cut_segment frames first g ->
    1 <= frameCount g <= Z.of_nat (length frames)).
  { intros first g Hg.
    destruct (cut_segment_counts frames Hfit first g Hg)
      as (a' & b' & Hab & _ & _ & -> & _). lia. }
  destruct (GOPAnalyzer.detectGOPBoundaries frames []) as [| g0 rest];
    [constructor |].
  destruct Hcuts as [Hg0 Hrest].
  constructor; [by apply (Hone true) |].
  eapply Forall_impl; [exact Hrest |]. intros g. by apply (Hone false).
Qed.

(** X13. GOPAnalyzer::getMinGOPLength, getMaxGOPLength,
    getAverageGOPLength after analyze: for at least one and at most
    INT_MAX frames, the minimum and the maximum are frame counts of GOPs
    found, every GOP's frame count lies between them, both lie between 1
    and the number of frames, and the average is the number of frames
    divided, in double precision, by the number of GOPs. *)
Theorem gop_length_statistics (frames : list FrameInfo) :
  frames <> [] ->
  Z.of_nat (length frames) <= CInt.INT_MAX ->
  let gops := GOPAnalyzer.analyze_frames frames in
  let minLen := GOPAnalyzer.getMinGOPLength gops in
  let maxLen := GOPAnalyzer.getMaxGOPLength gops in
  1 <= minLen /\ minLen <= maxLen /\ maxLen <= Z.of_nat (length frames)
  /\ Forall (fun g => minLen <= frameCount g <= maxLen) gops
  /\ Exists (fun g => frameCount g = minLen) gops
  /\ Exists (fun g => frameCount g = maxLen) gops
  /\ GOPAnalyzer.getAverageGOPLength gops
     = F64.div (F64.of_int (Z.of_nat (length frames)))
               (F64.of_int (Z.of_nat (length gops))).
Proof.
  intros Hcons Hfit gops minLen maxLen.
  pose proof (analyze_frames_lengths frames Hfit) as Hall. fold gops in Hall.
  assert (Hrun : gops = GOPAnalyzer.detectGOPBoundaries frames [])
    by by (unfold gops; destruct frames).
  destruct (detectGOPBoundaries_sums frames Hfit) as (Hsum & _).
  rewrite <- Hrun in Hsum.
  destruct (detectGOPBoundaries_cuts frames Hcons) as (_ & Hlen & _).
  rewrite <- Hrun in Hlen.
  subst minLen maxLen. clear Hrun.
  destruct gops as [| g0 rest]; [done |]. clear Hlen.
  unfold GOPAnalyzer.getMinGOPLength, GOPAnalyzer.getMaxGOPLength,
    GOPAnalyzer.getAverageGOPLength.
  destruct (foldl_max_bounds (g0 :: rest) 0) as (Hmax0 & Hmax & Hmaxex).
  destruct (foldl_min_bounds (g0 :: rest) (frameCount g0))
    as (Hmin0 & Hmin & Hminex).
  set (maxLen := foldl _ 0 (g0 :: rest)) in *.
  set (minLen := foldl _ (frameCount g0) (g0 :: rest)) in *.
  assert (Hg0 : 1 <= frameCount g0 <= Z.of_nat (length frames))
    by by inversion Hall.
  assert (Hg0max : frameCount g0 <= maxLen) by by inversion Hmax.
  assert (Hminex' : Exists (fun g => frameCount g = minLen) (g0 :: rest)).
  { destruct Hminex as [Heq | Hex]; [by constructor 1 | done]. }
  assert (Hmaxex' : Exists (fun g => frameCount g = maxLen) (g0 :: rest)).
  { destruct Hmaxex as [Heq | Hex]; [lia | done]. }
  assert (Hin : forall x, Exists (fun g => frameCount g = x) (g0 :: rest) ->
                          1 <= x <= Z.of_nat (length frames)).
  { intros x Hex. apply Exists_exists in Hex as (g & Hg & <-).
    rewrite Forall_forall in Hall. by apply Hall. }
  pose proof (Hin _ Hminex') as Hminr. pose proof (Hin _ Hmaxex') as Hmaxr.
  split; [lia |]. split; [lia |]. split; [lia |]. split.
  { rewrite Forall_forall in Hmin, Hmax |- *. intros g Hg.
    split; [by apply Hmin | by apply Hmax]. }
  split; [done |]. split; [done |].
  cbv zeta. rewrite foldl_total.
  - by rewrite Hsum.
  - eapply Forall_impl; [exact Hall |]. simpl. lia.
  - done.
  - by rewrite Hsum.
Qed.

Lemma gop_length_statistics_witness :
  let frames := [Inputs.typed I_FRAME true; Inputs.typed P_FRAME false;
                 Inputs.typed I_FRAME true] in
  let gops := GOPAnalyzer.analyze_frames frames in
  let minLen := GOPAnalyzer.getMinGOPLength gops in
  let maxLen := GOPAnalyzer.getMaxGOPLength gops in
  1 <= minLen /\ minLen <= maxLen /\ maxLen <= Z.of_nat (length frames)
  /\ Forall (fun g => minLen <= frameCount g <= maxLen) gops
  /\ Exists (fun g => frameCount g = minLen) gops
  /\ Exists (fun g => frameCount g = maxLen) gops
  /\ GOPAnalyzer.getAverageGOPLength gops
     = F64.div (F64.of_int (Z.of_nat (length frames)))
               (F64.of_int (Z.of_nat (length gops))).
Proof.
  exact (gop_length_statistics
           [Inputs.typed I_FRAME true; Inputs.typed P_FRAME false;
            Inputs.typed I_FRAME true]
           ltac:(discriminate) ltac:(vm_compute; discriminate)).
Defined.

(** ** AV1 streams *)

Lemma av1_frame_type (info : FrameInfo) :
  decoded_frame AV_CODEC_ID_AV1 info ->
  type info = if isKeyFrame info then I_FRAME else P_FRAME.
Proof.
  intros [E eng indet st st' Hc Hread | E eng indet st st' Hc Hread].
  - apply readNextFrame_frame_info in Hread as (lps & frame & ->).
    simpl. rewrite Hc. by rewrite decide_True.
  - apply stream_readNextFrame_frame_info in Hread as (lps & frame & ->).
    simpl. rewrite Hc. by rewrite decide_True.
Qed.

(** X14. detectFrameType of both decoders: a frame decoded from an AV1
    stream is an I-frame when its key flag is set and a P-frame
    otherwise, whatever picture type the engine reports; it is never a
    B-frame nor of unknown type. *)
Theorem av1_type_follows_key_flag (info : FrameInfo) :
  decoded_frame AV_CODEC_ID_AV1 info ->
  type info = if isKeyFrame info then I_FRAME else P_FRAME.
Proof. apply av1_frame_type. Qed.

Lemma av1_type_follows_key_flag_witness :
  let info := frame_info AV_CODEC_ID_AV1 (mkAVRational 1 30) 200 (false, -1)
                (mkAVFrame 2 2 AV_PICTURE_TYPE_B AV_FRAME_FLAG_KEY) in
  decoded_frame AV_CODEC_ID_AV1 info
  /\ type info = if isKeyFrame info then I_FRAME else P_FRAME.
Proof.
  intros info.
  assert (Hdec : decoded_frame AV_CODEC_ID_AV1 info).
  { eapply (decoded_by_stream _ _ DelayEngine _ (false, -1)
              (Inputs.opened_live AV_CODEC_ID_AV1 0
                 [mkAVPacket 0 200
                    (mkAVFrame 2 2 AV_PICTURE_TYPE_B AV_FRAME_FLAG_KEY)]));
      reflexivity. }
  split; [exact Hdec |].
  exact (av1_type_follows_key_flag info Hdec).
Defined.

Lemma count_type_none (t : FrameType) (l : list FrameInfo) :
  Forall (fun f => type f <> t) l -> GOPAnalyzer.count_type t l = 0%nat.
Proof.
  induction 1 as [| f l Hf Hall IH]; [done |].
  change (f :: l) with ([f] ++ l).
  rewrite count_type_app, count_type_one, IH. by rewrite decide_False.
Qed.

Lemma slice_Forall (P : FrameInfo -> Prop) (frames : list FrameInfo)
    (a b : nat) :
  Forall P frames -> Forall P (GOPAnalyzer.slice frames a b).
Proof. intros Hall. unfold GOPAnalyzer.slice. by apply Forall_take, Forall_drop. Qed.

(** When every I-frame is a key frame and no frame is a B-frame or of
    unknown type, a segment counts its I- and P-frames only, and one
    I-frame at most: its first frame. *)
Lemma closed_segment_counts (frames : list FrameInfo) (first : bool)
    (g : GOPInfo) :
  Z.of_nat (length frames) <= CInt.INT_MAX ->
  Forall (fun f => type f = if isKeyFrame f then I_FRAME else P_FRAME) frames ->
  GOPAnalyzer.cut_segment frames first g ->
  frameCount g = iFrameCount g + pFrameCount g
  /\ bFrameCount g = 0
  /\ iFrameCount g <= 1
  /\ (first = false -> iFrameCount g = 1).
Proof.
  intros Hfit Htypes Hg.
  destruct (cut_segment_counts frames Hfit first g Hg)
    as (a & b & Hab & Hfirst & Hinner & Hfc & Hi & Hp & Hb & _).
  pose proof (count_type_total (GOPAnalyzer.slice frames a b)) as Htot.
  rewrite slice_length in Htot by lia.
  assert (HnoB : GOPAnalyzer.count_type B_FRAME (GOPAnalyzer.slice frames a b)
                 = 0%nat).
  { apply count_type_none, slice_Forall.
    eapply Forall_impl; [exact Htypes |]. simpl. intros f ->.
    by destruct (isKeyFrame f). }
  assert (HnoU : GOPAnalyzer.count_type UNKNOWN (GOPAnalyzer.slice frames a b)
                 = 0%nat).
  { apply count_type_none, slice_Forall.
    eapply Forall_impl; [exact Htypes |]. simpl. intros f ->.
    by destruct (isKeyFrame f). }
  destruct (lookup_lt_is_Some_2 frames a) as [f Hf]; [lia |].
  assert (Hrest : GOPAnalyzer.count_type I_FRAME
                    (GOPAnalyzer.slice frames (S a) b) = 0%nat).
  { apply count_type_none, Forall_lookup. intros k x Hk.
    apply slice_lookup in Hk as [Hlt Hx].
    pose proof (Hinner (S a + k)%nat ltac:(lia)) as Hno.
    unfold GOPAnalyzer.starts_at in Hno. rewrite Hx in Hno. simpl in Hno.
    rewrite Forall_lookup in Htypes. specialize (Htypes _ _ Hx).
    unfold GOPAnalyzer.starts_gop in Hno. intros HI.
    rewrite bool_decide_eq_true_2 in Hno by done. simpl in Hno.
    rewrite Hno in Htypes. congruence. }
  pose proof Hi as Hi0.
  rewrite (slice_cons frames a b f) in Hi by (lia || done).
  change (f :: GOPAnalyzer.slice frames (S a) b)
    with ([f] ++ GOPAnalyzer.slice frames (S a) b) in Hi.
  rewrite count_type_app, count_type_one, Hrest in Hi.
  split; [lia |]. split; [lia |]. split.
  - destruct (decide (type f = I_FRAME)); simpl in Hi; lia.
  - intros ->. unfold GOPAnalyzer.starts_at in Hfirst. rewrite Hf in Hfirst.
    simpl in Hfirst. unfold GOPAnalyzer.starts_gop in Hfirst.
    apply andb_true_iff in Hfirst as [Htype _].
    apply bool_decide_eq_true in Htype.
    rewrite decide_True in Hi by done. simpl in Hi. lia.
Qed.

(** X15. GOPAnalyzer::analyze on frames decoded from an AV1 stream (at
    most INT_MAX of them): every GOP's frame count is the sum of its I-
    and P-frame counts, no GOP counts a B-frame, the first GOP counts at
    most one I-frame and every later GOP exactly one. *)
Theorem av1_gops_have_one_I_frame (frames : list FrameInfo) :
  Z.of_nat (length frames) <= CInt.INT_MAX ->
  Forall (decoded_frame AV_CODEC_ID_AV1) frames ->
  let gops := GOPAnalyzer.analyze_frames frames in
  Forall (fun g => frameCount g = iFrameCount g + pFrameCount g
                   /\ bFrameCount g = 0 /\ iFrameCount g <= 1) gops
  /\ Forall (fun g => iFrameCount g = 1) (tail gops).
Proof.
  intros Hfit Hdec gops. subst gops.
  destruct (decide (frames = [])) as [-> | Hcons]; [by repeat constructor |].
  assert (Hrun : GOPAnalyzer.analyze_frames frames
                 = GOPAnalyzer.detectGOPBoundaries frames []) by by destruct frames.
  rewrite Hrun.
  destruct (detectGOPBoundaries_cuts frames Hcons) as (Hcuts & _).
  assert (Htypes : Forall (fun f => type f = if isKeyFrame f then I_FRAME
                                             else P_FRAME) frames).
  { eapply Forall_impl; [exact Hdec |]. intros f.
    apply av1_frame_type. }
  destruct (GOPAnalyzer.detectGOPBoundaries frames []) as [| g0 rest];
    [by repeat constructor |].
  destruct Hcuts as [Hg0 Hrest]. split.
  - constructor.
    + destruct (closed_segment_counts frames true g0 Hfit Htypes Hg0)
        as (? & ? & ? & _). done.
    + eapply Forall_impl; [exact Hrest |]. intros g Hg.
      destruct (closed_segment_counts frames false g Hfit Htypes Hg)
        as (? & ? & ? & _). done.
  - simpl. eapply Forall_impl; [exact Hrest |]. intros g Hg.
    destruct (closed_segment_counts frames false g Hfit Htypes Hg)
      as (_ & _ & _ & Hone). by apply Hone.
Qed.

Lemma av1_gops_have_one_I_frame_witness :
  let frames := [Inputs.decoded_as AV_CODEC_ID_AV1 AV_PICTURE_TYPE_P false;
                 Inputs.decoded_as AV_CODEC_ID_AV1 AV_PICTURE_TYPE_I true;
                 Inputs.decoded_as AV_CODEC_ID_AV1 AV_PICTURE_TYPE_B false;
                 Inputs.decoded_as AV_CODEC_ID_AV1 AV_PICTURE_TYPE_P true;
                 Inputs.decoded_as AV_CODEC_ID_AV1 AV_PICTURE_TYPE_P false] in
  let gops := GOPAnalyzer.analyze_frames frames in
  length gops = 3%nat
  /\ Forall (fun g => frameCount g = iFrameCount g + pFrameCount g
                      /\ bFrameCount g = 0 /\ iFrameCount g <= 1) gops
  /\ Forall (fun g => iFrameCount g = 1) (tail gops).
Proof.
  intros frames.
  assert (Hdec : forall pict key,
             decoded_frame AV_CODEC_ID_AV1
                           (Inputs.decoded_as AV_CODEC_ID_AV1 pict key)).
  { intros pict key.
    eapply (decoded_by_stream _ _ DelayEngine _ (false, -1)
              (Inputs.opened_live AV_CODEC_ID_AV1 0
                 [mkAVPacket 0 10
                    (mkAVFrame 0 0 pict
                               (if key then AV_FRAME_FLAG_KEY else 0))]));
      reflexivity. }
  split; [reflexivity |].
  exact (av1_gops_have_one_I_frame frames ltac:(vm_compute; discriminate)
           ltac:(repeat constructor; apply Hdec)).
Defined.

(** ** FrameStatistics::compute *)

Section FrameStatisticsFacts.
Import FrameStatistics.
Local Abbreviation count_type := GOPAnalyzer.count_type.
Local Abbreviation loop := (foldl (fun s frame => count_frame frame s)).

Lemma count_type_cons (t : FrameType) (f : FrameInfo) (l : list FrameInfo) :
  count_type t (f :: l)
  = ((if decide (type f = t) then 1 else 0) + count_type t l)%nat.
Proof.
  change (f :: l) with ([f] ++ l). by rewrite count_type_app, count_type_one.
Qed.

(** The loop counts the frames of each type, as long as no counter
    leaves the range of [int]. *)
Lemma loop_counts (l : list FrameInfo) (s : sums) :
  0 <= iFrames (stats_ s) -> 0 <= pFrames (stats_ s) ->
  0 <= bFrames (stats_ s) ->
  iFrames (stats_ s) + Z.of_nat (length l) <= CInt.INT_MAX ->
  pFrames (stats_ s) + Z.of_nat (length l) <= CInt.INT_MAX ->
  bFrames (stats_ s) + Z.of_nat (length l) <= CInt.INT_MAX ->
  let r := stats_ (loop s l) in
  totalFrames r = totalFrames (stats_ s)
  /\ iFrames r = iFrames (stats_ s) + Z.of_nat (count_type I_FRAME l)
  /\ pFrames r = pFrames (stats_ s) + Z.of_nat (count_type P_FRAME l)
  /\ bFrames r = bFrames (stats_ s) + Z.of_nat (count_type B_FRAME l).
Proof.
  revert s. induction l as [| f l IH]; intros s Hi Hp Hb Hir Hpr Hbr.
  { simpl. unfold GOPAnalyzer.count_type. simpl. lia. }
  rewrite length_cons in Hir, Hpr, Hbr.
  unfold CInt.INT_MAX in *.
  rewrite !count_type_cons.
  simpl foldl. cbv zeta.
  pose proof (count_type_le I_FRAME l). pose proof (count_type_le P_FRAME l).
  pose proof (count_type_le B_FRAME l).
  destruct (IH (count_frame f s)) as (Ht & Hi' & Hp' & Hb');
    try (unfold count_frame; destruct (type f); simpl;
         rewrite ?incr_in_range by (unfold CInt.INT_MIN, CInt.INT_MAX; lia);
         lia).
  rewrite Ht, Hi', Hp', Hb'.
  unfold count_frame; destruct (type f); simpl;
    rewrite ?incr_in_range by (unfold CInt.INT_MIN, CInt.INT_MAX; lia);
    rewrite ?decide_True by done; rewrite ?decide_False by done;
    repeat split; lia.
Qed.

(** The smallest and the largest size seen. *)
Lemma loop_min_max (l : list FrameInfo) (s : sums) :
  let r := stats_ (loop s l) in
  minFrameSize r <= minFrameSize (stats_ s)
  /\ maxFrameSize (stats_ s) <= maxFrameSize r
  /\ Forall (fun f => minFrameSize r <= size f <= maxFrameSize r) l
  /\ (minFrameSize r = minFrameSize (stats_ s)
      \/ Exists (fun f => size f = minFrameSize r) l)
  /\ (maxFrameSize r = maxFrameSize (stats_ s)
      \/ Exists (fun f => size f = maxFrameSize r) l).
Proof.
  revert s. induction l as [| f l IH]; intros s.
  { simpl. repeat split; (lia || constructor || by left). }
  simpl foldl. cbv zeta.
  destruct (IH (count_frame f s)) as (Hmin & Hmax & Hall & Hminex & Hmaxex).
  assert (Hmin1 : minFrameSize (stats_ (count_frame f s))
                  = Z.min (minFrameSize (stats_ s)) (size f)).
  { unfold count_frame. by destruct (type f). }
  assert (Hmax1 : maxFrameSize (stats_ (count_frame f s))
                  = Z.max (maxFrameSize (stats_ s)) (size f)).
  { unfold count_frame. by destruct (type f). }
  rewrite Hmin1 in Hmin, Hminex. rewrite Hmax1 in Hmax, Hmaxex.
  split; [lia |]. split; [lia |]. split; [constructor; [lia | done] |].
  split.
  - destruct Hminex as [Heq | Hex]; [| right; by constructor 2].
    destruct (Z.min_spec (minFrameSize (stats_ s)) (size f))
      as [[_ Hm] | [_ Hm]]; [left; lia | right; constructor 1; lia].
  - destruct Hmaxex as [Heq | Hex]; [| right; by constructor 2].
    destruct (Z.max_spec (maxFrameSize (stats_ s)) (size f))
      as [[_ Hm] | [_ Hm]]; [right; constructor 1; lia | left; lia].
Qed.

Lemma loop_total_size (l : list FrameInfo) (s : sums) :
  totalSize_ (loop s l)
  = foldl (fun a f => CInt.int64_t (a + size f)) (totalSize_ s) l.
Proof.
  revert s. induction l as [| f l IH]; intros s; [done |].
  simpl. rewrite IH. unfold count_frame. by destruct (type f).
Qed.

Lemma compute_unfold (frames : list FrameInfo) (first : FrameInfo) :
  head frames = Some first ->
  compute frames
  = let s := loop (mkSums (mkStats (CInt.int (Z.of_nat (length frames)))
                                   0 0 0 F64.zero (size first) (size first)
                                   F64.zero) 0 0) frames in
    let st := stats_ s in
    let n := F64.of_int (Z.of_nat (length frames)) in
    mkStats (totalFrames st) (iFrames st) (pFrames st) (bFrames st)
            (F64.div (F64.of_int (totalSize_ s)) n)
            (maxFrameSize st) (minFrameSize st)
            (F64.div (F64.of_int (totalQP_ s)) n).
Proof. destruct frames as [| f rest]; [done |]. by intros [= ->]. Qed.

Lemma compute_counts (frames : list FrameInfo) :
  Z.of_nat (length frames) <= CInt.INT_MAX ->
  let st := compute frames in
  totalFrames st = Z.of_nat (length frames)
  /\ iFrames st = Z.of_nat (count_type I_FRAME frames)
  /\ pFrames st = Z.of_nat (count_type P_FRAME frames)
  /\ bFrames st = Z.of_nat (count_type B_FRAME frames).
Proof.
  intros Hfit st. subst st.
  destruct (head frames) as [first |] eqn:Hfirst;
    [| by destruct frames].
  rewrite (compute_unfold frames first Hfirst). cbv zeta.
  unfold CInt.INT_MAX in Hfit.
  match goal with
  | |- context [foldl _ ?s0 frames] =>
      destruct (loop_counts frames s0) as (Ht & Hi & Hp & Hb);
        try (simpl; unfold CInt.INT_MAX; lia)
  end.
  simpl in Ht, Hi, Hp, Hb |- *. rewrite Ht, Hi, Hp, Hb.
  rewrite int_in_range
    by (unfold CInt.in_int, CInt.INT_MIN, CInt.INT_MAX; lia).
  done.
Qed.

End FrameStatisticsFacts.

(** X16. FrameStatistics::compute: for at most INT_MAX frames,
    [totalFrames] is the number of frames and [iFrames], [pFrames] and
    [bFrames] are the numbers of frames of each type, so that their sum
    falls short of [totalFrames] by the number of frames of unknown
    type; with sizes that are [int]s, [averageFrameSize] is the exact sum
    of the sizes divided by the number of frames in double precision.
    Without frames every field is zero. *)
Theorem frame_statistics_counts (frames : list FrameInfo) :
  Z.of_nat (length frames) <= CInt.INT_MAX ->
  Forall (fun f => CInt.in_int (size f)) frames ->
  let st := FrameStatistics.compute frames in
  FrameStatistics.totalFrames st = Z.of_nat (length frames)
  /\ FrameStatistics.iFrames st
     = Z.of_nat (GOPAnalyzer.count_type I_FRAME frames)
  /\ FrameStatistics.pFrames st
     = Z.of_nat (GOPAnalyzer.count_type P_FRAME frames)
  /\ FrameStatistics.bFrames st
     = Z.of_nat (GOPAnalyzer.count_type B_FRAME frames)
  /\ FrameStatistics.totalFrames st
     = FrameStatistics.iFrames st + FrameStatistics.pFrames st
       + FrameStatistics.bFrames st
       + Z.of_nat (GOPAnalyzer.count_type UNKNOWN frames)
  /\ (frames <> [] ->
      FrameStatistics.averageFrameSize st
      = F64.div (F64.of_int (StreamAnalyzer.sum_sizes frames))
                (F64.of_int (Z.of_nat (length frames))))
  /\ (frames = [] -> st = FrameStatistics.default).
Proof.
  intros Hfit Hsizes st.
  destruct (compute_counts frames Hfit) as (Ht & Hi & Hp & Hb).
  fold st in Ht, Hi, Hp, Hb. rewrite Ht, Hi, Hp, Hb.
  pose proof (count_type_total frames) as Htot.
  split; [done |]. split; [done |]. split; [done |]. split; [done |].
  split; [lia |]. split; [| by intros ->].
  intros Hcons. subst st.
  destruct (head frames) as [first |] eqn:Hfirst; [| by destruct frames].
  rewrite (compute_unfold frames first Hfirst). cbv zeta.
  simpl FrameStatistics.averageFrameSize.
  rewrite loop_total_size. simpl FrameStatistics.totalSize_.
  rewrite total_size_from; [done | done |].
  unfold CInt.INT_MAX in Hfit. simpl Z.abs. lia.
Qed.

Lemma frame_statistics_counts_witness :
  let frames := [Inputs.typed I_FRAME true; Inputs.typed UNKNOWN false;
                 Inputs.typed B_FRAME false] in
  let st := FrameStatistics.compute frames in
  FrameStatistics.totalFrames st = Z.of_nat (length frames)
  /\ FrameStatistics.iFrames st
     = Z.of_nat (GOPAnalyzer.count_type I_FRAME frames)
  /\ FrameStatistics.pFrames st
     = Z.of_nat (GOPAnalyzer.count_type P_FRAME frames)
  /\ FrameStatistics.bFrames st
     = Z.of_nat (GOPAnalyzer.count_type B_FRAME frames)
  /\ FrameStatistics.totalFrames st
     = FrameStatistics.iFrames st + FrameStatistics.pFrames st
       + FrameStatistics.bFrames st
       + Z.of_nat (GOPAnalyzer.count_type UNKNOWN frames)
  /\ (frames <> [] ->
      FrameStatistics.averageFrameSize st
      = F64.div (F64.of_int (StreamAnalyzer.sum_sizes frames))
                (F64.of_int (Z.of_nat (length frames))))
  /\ (frames = [] -> st = FrameStatistics.default).
Proof.
  exact (frame_statistics_counts
           [Inputs.typed I_FRAME true; Inputs.typed UNKNOWN false;
            Inputs.typed B_FRAME false]
           ltac:(vm_compute; discriminate)
           ltac:(repeat constructor; vm_compute; discriminate)).
Defined.

(** X17. FrameStatistics::compute: for at least one frame,
    [minFrameSize] and [maxFrameSize] are sizes of frames of the input
    and the size of every frame lies between them. *)
Theorem frame_statistics_min_max (frames : list FrameInfo) :
  frames <> [] ->
  let st := FrameStatistics.compute frames in
  Forall (fun f => FrameStatistics.minFrameSize st <= size f
                   <= FrameStatistics.maxFrameSize st) frames
  /\ Exists (fun f => size f = FrameStatistics.minFrameSize st) frames
  /\ Exists (fun f => size f = FrameStatistics.maxFrameSize st) frames.
Proof.
  intros Hcons st. subst st.
  destruct frames as [| first rest] eqn:Hfr; [done |]. rewrite <- Hfr.
  assert (Hfirst : head frames = Some first) by by rewrite Hfr.
  rewrite (compute_unfold frames first Hfirst). cbv zeta.
  simpl FrameStatistics.minFrameSize. simpl FrameStatistics.maxFrameSize.
  match goal with
  | |- context [foldl _ ?s0 frames] =>
      destruct (loop_min_max frames s0) as (_ & _ & Hall & Hmin & Hmax)
  end.
  simpl in Hmin, Hmax.
  split; [done |]. split.
  - destruct Hmin as [Heq | Hex]; [| done].
    rewrite Heq, Hfr. by constructor 1.
  - destruct Hmax as [Heq | Hex]; [| done].
    rewrite Heq, Hfr. by constructor 1.
Qed.

Lemma frame_statistics_min_max_witness :
  let frames := [Inputs.sized 30 false (-1); Inputs.sized 10 false (-1);
                 Inputs.sized 20 false (-1)] in
  let st := FrameStatistics.compute frames in
  Forall (fun f => FrameStatistics.minFrameSize st <= size f
                   <= FrameStatistics.maxFrameSize st) frames
  /\ Exists (fun f => size f = FrameStatistics.minFrameSize st) frames
  /\ Exists (fun f => size f = FrameStatistics.maxFrameSize st) frames.
Proof.
  exact (frame_statistics_min_max
           [Inputs.sized 30 false (-1); Inputs.sized 10 false (-1);
            Inputs.sized 20 false (-1)]
           ltac:(discriminate)).
Defined.

(** ** StreamAnalyzer::getCurrentFrameStats *)

Lemma window_frames_nan (w : list FrameInfo) :
  StreamAnalyzer.window_frames S754_nan w = [].
Proof.
  unfold StreamAnalyzer.window_frames.
  induction w as [| f w IH]; [done |].
  rewrite filter_cons, IH. rewrite decide_False; [done |].
  unfold F64.geb. by destruct (timestamp f).
Qed.

Lemma sub_nan (x : spec_float) : F64.sub x S754_nan = S754_nan.
Proof. by destruct x. Qed.

(** X18. StreamAnalyzer::getCurrentFrameStats: with the window within
    its cap of 300 frames, [totalFrames] is the number of retained frames
    whose timestamp is not before the newest timestamp minus the window
    size, hence at most 300, and the three type counts are counts of
    these frames; when the window size is NaN no frame passes the test
    and the statistics are all zero. *)
Theorem current_frame_stats_cover_window (windowSize : spec_float)
    (d : StreamAnalyzer.data) :
  StreamAnalyzer.within_caps d ->
  let st := StreamAnalyzer.getCurrentFrameStats windowSize d in
  let subset :=
    StreamAnalyzer.not_older_subset windowSize (StreamAnalyzer.frameWindow_ d) in
  FrameStatistics.totalFrames st = Z.of_nat (length subset)
  /\ FrameStatistics.totalFrames st <= 300
  /\ FrameStatistics.iFrames st
     = Z.of_nat (GOPAnalyzer.count_type I_FRAME subset)
  /\ FrameStatistics.pFrames st
     = Z.of_nat (GOPAnalyzer.count_type P_FRAME subset)
  /\ FrameStatistics.bFrames st
     = Z.of_nat (GOPAnalyzer.count_type B_FRAME subset)
  /\ (windowSize = S754_nan -> st = FrameStatistics.default).
Proof.
  intros [Hcap _] st subset. subst st subset.
  unfold StreamAnalyzer.getCurrentFrameStats, StreamAnalyzer.not_older_subset.
  unfold StreamAnalyzer.maxWindowSize in Hcap.
  destruct (last (StreamAnalyzer.frameWindow_ d)) as [newest |];
    [| by repeat split].
  cbv zeta.
  fold (StreamAnalyzer.window_frames
          (F64.sub (timestamp newest) windowSize)
          (StreamAnalyzer.frameWindow_ d)).
  set (frames := StreamAnalyzer.window_frames _ _).
  assert (Hlen : (length frames <= length (StreamAnalyzer.frameWindow_ d))%nat)
    by apply length_filter.
  destruct (compute_counts frames) as (Ht & Hi & Hp & Hb);
    [unfold CInt.INT_MAX; lia |].
  rewrite Ht, Hi, Hp, Hb.
  repeat split; try lia.
  intros Hnan. unfold frames. by rewrite Hnan, sub_nan, window_frames_nan.
Qed.

Lemma current_frame_stats_cover_window_witness :
  let d := StreamAnalyzer.mkData [Inputs.at_second 1 100; Inputs.at_second 5 100]
                                 [] None in
  let st := StreamAnalyzer.getCurrentFrameStats (F64.of_int 2) d in
  let subset :=
    StreamAnalyzer.not_older_subset (F64.of_int 2) (StreamAnalyzer.frameWindow_ d) in
  FrameStatistics.totalFrames st = Z.of_nat (length subset)
  /\ FrameStatistics.totalFrames st <= 300
  /\ FrameStatistics.iFrames st
     = Z.of_nat (GOPAnalyzer.count_type I_FRAME subset)
  /\ FrameStatistics.pFrames st
     = Z.of_nat (GOPAnalyzer.count_type P_FRAME subset)
  /\ FrameStatistics.bFrames st
     = Z.of_nat (GOPAnalyzer.count_type B_FRAME subset)
  /\ (F64.of_int 2 = S754_nan -> st = FrameStatistics.default).
Proof.
  exact (current_frame_stats_cover_window (F64.of_int 2)
           (StreamAnalyzer.mkData
              [Inputs.at_second 1 100; Inputs.at_second 5 100] [] None)
           ltac:(split; simpl; unfold StreamAnalyzer.maxWindowSize,
                   StreamAnalyzer.maxAnomalies; lia)).
Defined.

(** ** VideoAnalyzer::detectDuplicateFrames: groups and neighbours *)

(** X19. VideoAnalyzer::detectDuplicateFrames: for every input and every
    setting, the group counter is still 0 at the end, every flagged frame
    has group id 0 and every other frame group id -1: all the duplicates
    of a video end in one group. *)
Theorem duplicate_groups_are_all_zero (size_tolerance : spec_float)
    (require_same_qp require_same_type : bool) (frames_ : list FrameInfo) :
  let run := VideoAnalyzer.detect size_tolerance require_same_qp
                                  require_same_type frames_ in
  run.2 = 0
  /\ Forall (fun f => duplicateGroupId f = if isDuplicate f then 0 else -1)
            run.1.
Proof.
  intros run.
  destruct (detect_spec size_tolerance require_same_qp require_same_type
                        frames_) as (Hcount & _ & Hflags).
  split; [done |]. apply Forall_lookup. intros j f Hf.
  by destruct (Hflags j f Hf).
Qed.

Lemma pair_matches_in_range (size_tolerance : spec_float)
    (require_same_qp require_same_type : bool) (F : list FrameInfo) (j : nat) :
  VideoAnalyzer.pair_matches size_tolerance require_same_qp require_same_type
                             F j = true ->
  (j + 1 < length F)%nat.
Proof.
  unfold VideoAnalyzer.pair_matches. intros Hm.
  destruct (F !! j) as [p |]; [| done].
  destruct (F !! (j + 1)%nat) as [c |] eqn:Hc; [| done].
  by apply lookup_lt_Some in Hc.
Qed.

(** X20. VideoAnalyzer::detectDuplicateFrames: no frame is flagged
    alone: a frame that ends flagged has a neighbour, the frame before it
    or the frame after it, that ends flagged as well. *)
Theorem flagged_frame_has_flagged_neighbour (size_tolerance : spec_float)
    (require_same_qp require_same_type : bool) (frames_ : list FrameInfo)
    (j : nat) (f : FrameInfo) :
  let after := VideoAnalyzer.detectDuplicateFrames
                 size_tolerance require_same_qp require_same_type frames_ in
  after !! j = Some f ->
  isDuplicate f = true ->
  exists k g,
    (k = S j \/ S k = j) /\ after !! k = Some g /\ isDuplicate g = true.
Proof.
  intros after Hf Hdup.
  destruct (detect_spec size_tolerance require_same_qp require_same_type
                        frames_) as (_ & Hcontent & Hflags).
  pose proof (same_content_length _ _ Hcontent) as Hlen.
  fold (VideoAnalyzer.detectDuplicateFrames size_tolerance require_same_qp
          require_same_type frames_) in Hflags, Hlen.
  fold after in Hflags, Hlen.
  destruct (Hflags j f Hf) as [Hpaired _]. rewrite Hdup in Hpaired.
  symmetry in Hpaired. unfold VideoAnalyzer.paired in Hpaired.
  apply orb_true_iff in Hpaired as [Hbefore | Hafter].
  - destruct j as [| j']; [done |].
    pose proof (pair_matches_in_range _ _ _ _ _ Hbefore) as Hin.
    destruct (lookup_lt_is_Some_2 after j') as [g Hg]; [lia |].
    exists j', g. split; [by right |]. split; [done |].
    destruct (Hflags j' g Hg) as [-> _]. unfold VideoAnalyzer.paired.
    rewrite Hbefore. apply orb_true_r.
  - pose proof (pair_matches_in_range _ _ _ _ _ Hafter) as Hin.
    destruct (lookup_lt_is_Some_2 after (S j)) as [g Hg]; [lia |].
    exists (S j), g. split; [by left |]. split; [done |].
    destruct (Hflags (S j) g Hg) as [-> _]. unfold VideoAnalyzer.paired.
    by rewrite Hafter.
Qed.

Lemma flagged_frame_has_flagged_neighbour_witness :
  let frames_ := [Inputs.sized 1000 false (-1); Inputs.sized 1005 false (-1)] in
  let after := VideoAnalyzer.detectDuplicateFrames (F32.of_int 1) false false
                 frames_ in
  exists f,
    after !! 0%nat = Some f /\ isDuplicate f = true
    /\ exists k g,
         (k = 1%nat \/ S k = 0%nat) /\ after !! k = Some g
         /\ isDuplicate g = true.
Proof.
  eexists. split; [reflexivity |]. split; [reflexivity |].
  exact (flagged_frame_has_flagged_neighbour (F32.of_int 1) false false
           [Inputs.sized 1000 false (-1); Inputs.sized 1005 false (-1)]
           0%nat _ eq_refl eq_refl).
Defined.

Lemma sizeMatch_nan (prev current : FrameInfo) :
  VideoAnalyzer.sizeMatch S754_nan prev current = false.
Proof.
  unfold VideoAnalyzer.sizeMatch, F32.leb, F32.div, F32.mul.
  assert (Hmul : forall x, SFmul F32.prec F32.emax x S754_nan = S754_nan)
    by by intros [].
  assert (Hdiv : forall y, SFdiv F32.prec F32.emax S754_nan y = S754_nan)
    by by intros [].
  rewrite Hmul, Hdiv. unfold SFleb, SFcompare.
  by destruct (F32.of_int _).
Qed.

(** X21. VideoAnalyzer::detectDuplicateFrames: with a tolerance that is
    NaN no pair of frames matches: the run only clears the duplicate
    fields of every frame. *)
Theorem nan_tolerance_flags_nothing (require_same_qp require_same_type : bool)
    (frames_ : list FrameInfo) :
  VideoAnalyzer.detectDuplicateFrames S754_nan require_same_qp
                                      require_same_type frames_
  = VideoAnalyzer.reset_frame <$> frames_.
Proof.
  unfold VideoAnalyzer.detectDuplicateFrames, VideoAnalyzer.detect.
  destruct frames_ as [| f0 rest]; [done |].
  set (F := f0 :: rest).
  apply (for_range_ind
           (fun _ s => s.1 = VideoAnalyzer.reset_frame <$> F));
    [simpl; lia | done |].
  intros i [fr c] _ Hs. simpl in Hs. subst fr.
  unfold VideoAnalyzer.compare_step.
  destruct (_ !! (i - 1)%nat) as [prev |]; [| done].
  destruct (_ !! i) as [current |]; [| done].
  unfold VideoAnalyzer.matches. by rewrite sizeMatch_nan.
Qed.

(** ** StreamAnalyzer: the callbacks *)

Section CallbackFacts.
Variable to_string_double : spec_float -> string.
Import StreamAnalyzer.

Lemma report_effect (a : Anomaly) (r : run) :
  anomaly_calls (report a r) = anomaly_calls r ++ [a]
  /\ frame_calls (report a r) = frame_calls r
  /\ previousFrame_ (now (report a r)) = previousFrame_ (now r).
Proof. done. Qed.

Lemma detectAnomalies_effect (frame : FrameInfo) (r : run) :
  let r' := detectAnomalies to_string_double frame r in
  frame_calls r' = frame_calls r
  /\ previousFrame_ (now r') = previousFrame_ (now r)
  /\ exists new, anomaly_calls r' = anomaly_calls r ++ new
                 /\ raised_by frame (previousFrame_ (now r)) new.
Proof.
  intros r'. subst r'. unfold detectAnomalies.
  set (r1 := frame_drop_rule to_string_double frame r).
  assert (H1 : frame_calls r1 = frame_calls r
    /\ previousFrame_ (now r1) = previousFrame_ (now r)
    /\ exists fd, anomaly_calls r1 = anomaly_calls r ++ fd
         /\ (fd = [] \/ previousFrame_ (now r) <> None
                        /\ exists d, fd = [mkAnomaly FRAME_DROP
                                             (timestamp frame) d])).
  { subst r1. unfold frame_drop_rule.
    destruct (previousFrame_ (now r)) as [previous |] eqn:Hprev;
      [| split; [done |]; split; [done |]; exists []; rewrite app_nil_r; by auto].
    cbv zeta. destruct (F64.gtb _ _);
      [| split; [done |]; split; [done |]; exists []; rewrite app_nil_r; by auto].
    split; [done |]. split; [done |]. eexists. split; [reflexivity |].
    right. split; [done | by eexists]. }
  destruct H1 as (Hf1 & Hp1 & fd & Hc1 & Hfd).
  set (r2 := bitrate_spike_rule frame r1).
  assert (H2 : frame_calls r2 = frame_calls r1
    /\ previousFrame_ (now r2) = previousFrame_ (now r1)
    /\ exists bs, anomaly_calls r2 = anomaly_calls r1 ++ bs
         /\ (bs = [] \/ previousFrame_ (now r1) <> None
                        /\ exists d, bs = [mkAnomaly BITRATE_SPIKE
                                             (timestamp frame) d])).
  { subst r2. unfold bitrate_spike_rule.
    destruct (previousFrame_ (now r1)) as [previous |] eqn:Hprev;
      [| split; [done |]; split; [done |]; exists []; rewrite app_nil_r; by auto].
    cbv zeta. destruct (F64.gtb _ _);
      [| split; [done |]; split; [done |]; exists []; rewrite app_nil_r; by auto].
    split; [done |]. split; [done |]. eexists. split; [reflexivity |].
    right. split; [done | by eexists]. }
  destruct H2 as (Hf2 & Hp2 & bs & Hc2 & Hbs).
  set (r3 := quality_drop_rule frame r2).
  assert (H3 : frame_calls r3 = frame_calls r2
    /\ previousFrame_ (now r3) = previousFrame_ (now r2)
    /\ exists qd, anomaly_calls r3 = anomaly_calls r2 ++ qd
         /\ (if 40 <? qp frame
             then exists d, qd = [mkAnomaly QUALITY_DROP (timestamp frame) d]
             else qd = [])).
  { subst r3. unfold quality_drop_rule.
    destruct (40 <? qp frame);
      [| split; [done |]; split; [done |]; exists []; rewrite app_nil_r; by auto].
    split; [done |]. split; [done |]. eexists. split; [reflexivity |]. by eexists. }
  destruct H3 as (Hf3 & Hp3 & qd & Hc3 & Hqd).
  split; [congruence |]. split; [congruence |].
  exists (fd ++ bs ++ qd).
  split; [rewrite Hc3, Hc2, Hc1; by rewrite <- !app_assoc |].
  rewrite Hp1 in Hbs.
  assert (Hqd' : (qd = [] /\ (40 <? qp frame) = false)
                 \/ (exists d, qd = [mkAnomaly QUALITY_DROP (timestamp frame) d])
                    /\ (40 <? qp frame) = true).
  { destruct (40 <? qp frame); [right | left]; done. }
  unfold raised_by, of_type.
  destruct Hfd as [-> | [Hsome [d1 ->]]];
    destruct Hbs as [-> | [Hsome' [d2 ->]]];
    destruct Hqd' as [[-> ->] | [[d3 ->] ->]];
    simpl; repeat split; try (repeat constructor; done); try lia;
    try done.
Qed.


Lemma of_type_app (t : AnomalyType) (l k : list Anomaly) :
  of_type t (l ++ k) = of_type t l ++ of_type t k.
Proof. unfold of_type. by rewrite filter_app. Qed.

Lemma analysis_turn_callbacks (polled : option FrameInfo) (r : run)
    (hist : list FrameInfo) :
  callbacks_after hist r ->
  callbacks_after (hist ++ option_list polled)
                  (analysis_turn to_string_double polled r).
Proof.
  intros (Hcalls & Hprev & Hstamps & Hq & Hfd & Hbs & Hlen).
  destruct polled as [frame |];
    [| simpl; rewrite app_nil_r; by repeat split].
  unfold analysis_turn. cbv zeta.
  set (r1 := locked _ r).
  destruct (detectAnomalies_effect frame r1)
    as (Hf & Hp & new & Hnew & Hall & Hfd1 & Hbs1 & Hnone & Hq1 & Hn3).
  change (previousFrame_ (now r1)) with (previousFrame_ (now r)) in *.
  change (frame_calls r1) with (frame_calls r) in *.
  change (anomaly_calls r1) with (anomaly_calls r) in *.
  simpl option_list.
  unfold callbacks_after. cbn [frame_calls anomaly_calls now previousFrame_].
  rewrite Hf, Hnew, !of_type_app, !length_app, last_snoc, filter_app.
  rewrite length_app, Hq, Hq1, Hcalls. simpl length.
  split; [done |]. split; [done |]. split.
  { apply Forall_app. split.
    - eapply Forall_impl; [exact Hstamps |]. intros a (f & Hin & Ha).
      exists f. split; [| done]. apply elem_of_app. by left.
    - eapply Forall_impl; [exact Hall |]. intros a Ha.
      exists frame. split; [| done]. apply elem_of_app. right.
      by apply list_elem_of_singleton. }
  split.
  { f_equal. rewrite filter_cons, filter_nil.
    destruct (Z.ltb_spec 40 (qp frame)).
    - by rewrite decide_True.
    - rewrite decide_False; [done | lia]. }
  destruct hist as [| h hist'].
  - simpl in Hprev. rewrite Hprev in Hnone.
    destruct (Hnone eq_refl) as [-> ->]. simpl in *. lia.
  - simpl in *. lia.
Qed.

Lemma analysisLoop_callbacks (polls : list (option FrameInfo)) (r : run)
    (hist : list FrameInfo) :
  callbacks_after hist r ->
  callbacks_after (hist ++ omap id polls)
                  (analysisLoop to_string_double polls r).
Proof.
  revert r hist. induction polls as [| p polls IH]; intros r hist Hr.
  - simpl. by rewrite app_nil_r.
  - unfold analysisLoop in *. simpl foldl.
    pose proof (IH _ _ (analysis_turn_callbacks p r hist Hr)) as Hnext.
    rewrite <- app_assoc in Hnext.
    replace (omap id (p :: polls)) with (option_list p ++ omap id polls)
      by by destruct p.
    done.
Qed.

End CallbackFacts.

(** X22. StreamAnalyzer::analysisLoop / detectAnomalies: from a new
    analyzer, the frame callback is called once with each frame read, in
    order, and [previousFrame_] ends as the last frame read; every
    anomaly reported carries the timestamp of a frame read; QUALITY_DROP
    is reported once for each frame whose QP is above 40; FRAME_DROP and
    BITRATE_SPIKE are each reported at most once for each frame after the
    first, so that there are at most three reports for each frame. *)
Theorem callbacks_follow_the_frames (to_string_double : spec_float -> string)
    (polls : list (option FrameInfo)) :
  let r := StreamAnalyzer.analysisLoop to_string_double polls
                                       StreamAnalyzer.initial in
  let frames := omap id polls in
  let reports := StreamAnalyzer.anomaly_calls r in
  StreamAnalyzer.frame_calls r = frames
  /\ StreamAnalyzer.previousFrame_ (StreamAnalyzer.now r) = last frames
  /\ Forall (fun a => exists f, f ∈ frames /\ a_timestamp a = timestamp f)
            reports
  /\ length (of_type QUALITY_DROP reports)
     = length (filter (fun f => 40 < qp f) frames)
  /\ (length (of_type FRAME_DROP reports) <= pred (length frames))%nat
  /\ (length (of_type BITRATE_SPIKE reports) <= pred (length frames))%nat
  /\ (length reports <= 3 * length frames)%nat.
Proof.
  intros r frames reports.
  apply (analysisLoop_callbacks to_string_double polls
                                StreamAnalyzer.initial []).
  repeat split; simpl; (lia || constructor).
Qed.

(** ** data_models.cpp: the names of the frame types *)

(** X23. frameTypeToString / stringToFrameType: reading back the name
    written for a frame type gives the type; a string is read as UNKNOWN
    exactly when it is none of the names I, P and B, so that writing the
    type read from a string gives the string back only for the four
    names. *)
Theorem frame_type_names_round_trip :
  (forall t, stringToFrameType (frameTypeToString t) = t)
  /\ (forall str, stringToFrameType str = UNKNOWN
                  <-> str <> "I" /\ str <> "P" /\ str <> "B")
  /\ (forall str, frameTypeToString (stringToFrameType str) = str
                  <-> exists t, str = frameTypeToString t).
Proof.
  split; [by intros [] |]. split.
  - intros str. unfold stringToFrameType.
    repeat destruct (decide _); split; (done || by intros (? & ? & ?)).
  - intros str. split.
    + intros Hback. by exists (stringToFrameType str).
    + intros [t ->]. by destruct t.
Qed.

(** ** VideoDecoder on an engine that holds back pictures *)

Section DelayFacts.
Variable indeterminate : bool * Z.
Variable d : nat.
Local Abbreviation Impl := (@VideoDecoder.Impl DelayEngine).
Local Abbreviation loop := (VideoDecoder.readNextFrame_loop indeterminate).
Local Abbreviation engine := (fun h => mkDelayEngine h false d).
Local Abbreviation reading := (reading d).

Lemma last_size_cons (lps : Z) (p : AVPacket) (fed : list AVPacket) :
  last_size lps (p :: fed) = last_size (pkt_size p) fed.
Proof. unfold last_size. rewrite last_cons. by destruct (last fed). Qed.

(** While enough packets are left, the loop feeds the engine until it
    holds one picture more than its delay and returns the oldest one. *)
Lemma loop_feeds (st : Impl) (rest : list AVPacket) (h : list AVFrame)
    (lps : Z) (ldf : option AVFrame) :
  (length h <= d + 1)%nat -> (d + 1 <= length h + length rest)%nat ->
  Forall (fun p => stream_index p = VideoDecoder.videoStreamIndex st) rest ->
  let fed := take (d + 1 - length h) rest in
  exists f h',
    h ++ (pkt_picture <$> fed) = f :: h'
    /\ loop st (Item_packet <$> rest) (engine h) lps ldf
       = (Returned (Some (frame_info (VideoDecoder.codec_id st)
                                     (VideoDecoder.time_base st)
                                     (last_size lps fed) indeterminate f)),
          VideoDecoder.update st
            (Item_packet <$> drop (d + 1 - length h) rest) (engine h')
            (VideoDecoder.endOfStream st) (last_size lps fed) (Some f)).
Proof.
  revert h lps. induction rest as [| p rest IH]; intros h lps Hh Hroom Hvideo.
  - simpl in Hroom. assert (Hfull : length h = (d + 1)%nat) by lia.
    rewrite Hfull, Nat.sub_diag. simpl.
    destruct h as [| f h']; [simpl in Hfull; lia |].
    exists f, h'. split; [by rewrite app_nil_r |].
    unfold delay_receive. simpl held. simpl draining. simpl delay.
    rewrite (proj2 (Nat.ltb_lt d (length (f :: h')))) by lia. done.
  - destruct (decide (length h = (d + 1)%nat)) as [Hfull | Hless].
    + rewrite Hfull, Nat.sub_diag. simpl take. simpl drop.
      destruct h as [| f h']; [simpl in Hfull; lia |].
      exists f, h'. split; [by rewrite app_nil_r |].
      simpl. unfold delay_receive. simpl held. simpl draining. simpl delay.
      rewrite (proj2 (Nat.ltb_lt d (length (f :: h')))) by lia. done.
    + apply Forall_cons in Hvideo as [Hp Hvideo].
      replace (d + 1 - length h)%nat with (S (d - length h)) by lia.
      destruct (IH (h ++ [pkt_picture p]) (pkt_size p)) as (f & h' & Hsplit & Hrun).
      { rewrite length_app. simpl. lia. }
      { rewrite length_app. simpl in *. lia. }
      { done. }
      rewrite length_app in Hsplit, Hrun. simpl length in Hsplit, Hrun.
      replace (d + 1 - (length h + 1))%nat with (d - length h)%nat
        in Hsplit, Hrun by lia.
      exists f, h'. split.
      { simpl. rewrite <- Hsplit, <- app_assoc. done. }
      rewrite firstn_cons, last_size_cons. simpl drop.
      rewrite <- Hrun. simpl.
      assert (Hagain : delay_receive (engine h) = (RecvAgain, engine h)).
      { unfold delay_receive. simpl held. simpl draining. simpl delay.
        destruct h as [| f0 h0]; [done |].
        rewrite (proj2 (Nat.ltb_ge d (length (f0 :: h0)))) by lia. done. }
      rewrite Hagain. rewrite Hp, Z.eqb_refl. simpl. done.
Qed.

(** When the input runs out before that, the loop feeds what is left,
    flushes the engine and returns the oldest picture it holds, if any;
    the stream is then at its end. *)
Lemma loop_ends (st : Impl) (rest : list AVPacket) (h : list AVFrame)
    (lps : Z) (ldf : option AVFrame) :
  (length h + length rest <= d)%nat ->
  Forall (fun p => stream_index p = VideoDecoder.videoStreamIndex st) rest ->
  loop st (Item_packet <$> rest) (engine h) lps ldf
  = match h ++ (pkt_picture <$> rest) with
    | [] => (Returned None,
             VideoDecoder.update st [] (mkDelayEngine [] true d) true
                                 (last_size lps rest) ldf)
    | f :: h' =>
        (Returned (Some (frame_info (VideoDecoder.codec_id st)
                                    (VideoDecoder.time_base st)
                                    (last_size lps rest) indeterminate f)),
         VideoDecoder.update st [] (mkDelayEngine h' true d) true
                             (last_size lps rest) (Some f))
    end.
Proof.
  revert h lps. induction rest as [| p rest IH]; intros h lps Hroom Hvideo.
  - simpl in Hroom. rewrite app_nil_r. simpl.
    assert (Hagain : delay_receive (engine h) = (RecvAgain, engine h)).
    { unfold delay_receive. simpl held. simpl draining. simpl delay.
      destruct h as [| f0 h0]; [done |].
      rewrite (proj2 (Nat.ltb_ge d (length (f0 :: h0)))) by lia. done. }
    rewrite Hagain. simpl. unfold delay_receive. simpl.
    by destruct h.
  - apply Forall_cons in Hvideo as [Hp Hvideo]. simpl in Hroom.
    rewrite last_size_cons.
    replace (h ++ (pkt_picture <$> p :: rest))
      with ((h ++ [pkt_picture p]) ++ (pkt_picture <$> rest))
      by (by rewrite <- app_assoc).
    rewrite <- IH; [| rewrite length_app; simpl; lia | done].
    simpl.
    assert (Hagain : delay_receive (engine h) = (RecvAgain, engine h)).
    { unfold delay_receive. simpl held. simpl draining. simpl delay.
      destruct h as [| f0 h0]; [done |].
      rewrite (proj2 (Nat.ltb_ge d (length (f0 :: h0)))) by lia. done. }
    rewrite Hagain. rewrite Hp, Z.eqb_refl. simpl. done.
Qed.


Lemma yield_cons (n : nat) :
  yield d (S n) = if (d <? S n)%nat then S (yield d n) else 1%nat.
Proof.
  unfold yield.
  destruct (Nat.leb_spec d 1), (Nat.ltb_spec d (S n)), (Nat.ltb_spec d n);
    lia.
Qed.

Lemma delayed_frames_cons (codec : AVCodecID) (tb : AVRational)
    (p : AVPacket) (L : list AVPacket) :
  delayed_frames codec tb indeterminate d (p :: L)
  = frame_info codec tb (size_at (p :: L) (Nat.min d (length L)))
               indeterminate (pkt_picture p)
    :: (if (d <? S (length L))%nat
        then delayed_frames codec tb indeterminate d L else []).
Proof.
  unfold delayed_frames. rewrite length_cons, yield_cons.
  replace (S (length L) - 1)%nat with (length L) by lia.
  destruct (Nat.ltb_spec d (S (length L))) as [Hlt | Hge].
  - rewrite firstn_cons, imap_cons. f_equal.
    apply imap_ext. intros i q Hq. unfold compose. cbv beta.
    apply lookup_take_Some in Hq as [Hq Hi].
    apply lookup_lt_Some in Hq.
    replace (Nat.min (S i + d) (length L))
      with (S (Nat.min (i + d) (length L - 1))) by lia.
    done.
  - simpl. do 2 f_equal.
Qed.

Lemma last_take {A : Type} (l : list A) (k : nat) :
  (1 <= k <= length l)%nat -> last (take k l) = l !! (k - 1)%nat.
Proof.
  intros Hk. rewrite last_lookup, length_take.
  replace (Nat.pred (k `min` length l)) with (k - 1)%nat by lia.
  apply lookup_take_lt. lia.
Qed.


Lemma last_size_app (lps : Z) (mid rest : list AVPacket) :
  last_size lps mid = lps ->
  last_size lps rest = last_size lps (mid ++ rest).
Proof.
  unfold last_size. intros Hmid. rewrite last_app.
  destruct (last rest); [done |]. simpl. by rewrite Hmid.
Qed.

Lemma size_at_last (L : list AVPacket) (lps : Z) :
  L <> [] -> size_at L (length L - 1) = last_size lps L.
Proof.
  intros HL. unfold size_at, last_size. rewrite last_lookup.
  replace (Nat.pred (length L)) with (length L - 1)%nat by lia.
  destruct (lookup_lt_is_Some_2 L (length L - 1)) as [x Hx].
  { destruct L; [done | simpl; lia]. }
  by rewrite Hx.
Qed.

Lemma readNextFrame_reading (base : Impl) (mid rest : list AVPacket)
    (lps : Z) (ldf : option AVFrame) :
  VideoDecoder.readNextFrame indeterminate (reading base mid rest lps ldf)
  = loop (reading base mid rest lps ldf) (Item_packet <$> rest)
         (engine (pkt_picture <$> mid)) lps ldf.
Proof. reflexivity. Qed.

Lemma read_calls_reading (base : Impl) (L : list AVPacket) :
  Forall (fun p => stream_index p = VideoDecoder.videoStreamIndex base) L ->
  forall (mid rest : list AVPacket) (lps : Z) (ldf : option AVFrame) (m : nat),
  L = mid ++ rest -> (length mid <= d)%nat -> last_size lps mid = lps ->
  let run := VideoDecoder.read_calls indeterminate
               (yield d (length L) + m) (reading base mid rest lps ldf) in
  run.1 = ((fun info => Returned (Some info))
             <$> delayed_frames (VideoDecoder.codec_id base)
                                (VideoDecoder.time_base base)
                                indeterminate d L)
          ++ replicate m (Returned None)
  /\ held (VideoDecoder.codecCtx run.2)
     = pkt_picture <$> drop (yield d (length L)) L.
Proof.
  induction L as [| l0 L IH]; intros Hvideo mid rest lps ldf m HL Hmid Hlps run;
    subst run.
  { symmetry in HL. apply app_eq_nil in HL as [-> ->].
    assert (Hnone : yield d 0 = 0%nat)
      by (unfold yield; destruct (Nat.leb_spec d 1), (Nat.ltb_spec d 0); lia).
    assert (Hnil : delayed_frames (VideoDecoder.codec_id base)
                     (VideoDecoder.time_base base) indeterminate d [] = [])
      by (unfold delayed_frames; by rewrite take_nil).
    rewrite Hnil. cbn [length]. rewrite Hnone. cbn [Nat.add].
    destruct m as [| m]; [done |].
    cbn [VideoDecoder.read_calls].
    unfold VideoDecoder.readNextFrame. cbn [reading VideoDecoder.update
      VideoDecoder.endOfStream VideoDecoder.input VideoDecoder.codecCtx
      VideoDecoder.lastPacketSize VideoDecoder.lastDecodedFrame].
    change (Item_packet <$> []) with (Item_packet <$> (@nil AVPacket)).
    rewrite (loop_ends _ [] []); [| simpl; lia | done].
    cbn [app fmap list_fmap]. rewrite read_calls_finished by done. done. }
  apply Forall_cons in Hvideo as [Hl0 Hvideo].
  rewrite length_cons, yield_cons, delayed_frames_cons.
  assert (Hrest : Forall (fun p => stream_index p
                                   = VideoDecoder.videoStreamIndex base) rest).
  { assert (Hall : Forall (fun p => stream_index p
                             = VideoDecoder.videoStreamIndex base) (mid ++ rest))
      by (rewrite <- HL; by constructor).
    by apply Forall_app in Hall as [_ ?]. }
  assert (Hlen : (length mid + length rest = S (length L))%nat).
  { rewrite <- length_app, <- HL. done. }
  destruct (Nat.ltb_spec d (S (length L))) as [Hlt | Hge].
  - (* enough packets are left *)
    cbn [Nat.add VideoDecoder.read_calls].
    rewrite readNextFrame_reading.
    destruct (loop_feeds (reading base mid rest lps ldf)
                rest (pkt_picture <$> mid) lps ldf)
      as (f & h' & Hsplit & Hrun);
      [rewrite length_fmap; lia | rewrite length_fmap; lia | done |].
    rewrite length_fmap in Hsplit, Hrun.
    rewrite Hrun. clear Hrun.
    assert (Htake : mid ++ take (d + 1 - length mid) rest = take (d + 1) (l0 :: L)).
    { rewrite HL, take_app. f_equal. rewrite take_ge by lia. done. }
    assert (Hdrop : drop (d + 1 - length mid) rest = drop d L).
    { change (drop d L) with (drop (S d) (l0 :: L)).
      rewrite HL, drop_app. rewrite (drop_ge mid) by lia.
      by replace (S d - length mid)%nat with (d + 1 - length mid)%nat by lia. }
    rewrite <- fmap_app, Htake in Hsplit.
    replace (d + 1)%nat with (S d) in Hsplit by lia.
    rewrite firstn_cons, fmap_cons in Hsplit.
    injection Hsplit as <- <-.
    set (lps' := last_size lps (take (d + 1 - length mid) rest)).
    assert (Hlps' : lps' = size_at (l0 :: L) (Nat.min d (length L))).
    { unfold lps'. rewrite Nat.min_l by lia.
      unfold last_size. rewrite last_take by lia.
      unfold size_at. rewrite HL.
      rewrite lookup_app_r by lia.
      replace (d - length mid)%nat with (d + 1 - length mid - 1)%nat by lia.
      destruct (lookup_lt_is_Some_2 rest (d + 1 - length mid - 1)) as [x Hx];
        [lia |].
      by rewrite Hx. }
    rewrite Hdrop.
    assert (Hst : VideoDecoder.update (reading base mid rest lps ldf)
                    (Item_packet <$> drop d L)
                    (mkDelayEngine (pkt_picture <$> take d L) false d)
                    (VideoDecoder.endOfStream (reading base mid rest lps ldf))
                    lps' (Some (pkt_picture l0))
                  = reading base (take d L) (drop d L) lps'
                            (Some (pkt_picture l0))) by reflexivity.
    rewrite Hst. clear Hst.
    change (VideoDecoder.codec_id (reading base mid rest lps ldf))
      with (VideoDecoder.codec_id base).
    change (VideoDecoder.time_base (reading base mid rest lps ldf))
      with (VideoDecoder.time_base base).
    destruct (IH Hvideo (take d L) (drop d L) lps' (Some (pkt_picture l0)) m)
      as [Hout Hheld].
    + by rewrite take_drop.
    + rewrite length_take. lia.
    + destruct (decide (d = 0%nat)) as [-> | Hd]; [done |].
      unfold last_size. rewrite last_take by lia.
      rewrite Hlps'. unfold size_at. rewrite Nat.min_l by lia.
      destruct d as [| d']; [done |]. simpl.
      rewrite Nat.sub_0_r.
      destruct (lookup_lt_is_Some_2 L d') as [x Hx]; [lia |].
      by rewrite Hx.
    + destruct (VideoDecoder.read_calls indeterminate (yield d (length L) + m)
                  (reading base (take d L) (drop d L) lps'
                           (Some (pkt_picture l0)))) as [rs st2].
      cbn [fst snd] in *. split; [| done].
      rewrite Hout, Hlps'. done.
  - (* the input runs out *)
    cbn [Nat.add VideoDecoder.read_calls].
    rewrite readNextFrame_reading.
    rewrite loop_ends; [| rewrite length_fmap; lia | done].
    rewrite <- fmap_app, <- HL, fmap_cons.
    rewrite read_calls_finished by done. cbn [fst snd]. split.
    + simpl. do 3 f_equal.
      rewrite (last_size_app lps mid rest Hlps), <- HL.
      rewrite Nat.min_r by lia.
      rewrite <- (size_at_last (l0 :: L) lps) by done. simpl.
      by rewrite Nat.sub_0_r.
    + done.
Qed.

End DelayFacts.

Lemma yield_le (delay n : nat) : (yield delay n <= n)%nat.
Proof.
  unfold yield.
  destruct (Nat.leb_spec delay 1), (Nat.ltb_spec delay n); lia.
Qed.

Lemma delayed_frames_no_delay (codec : AVCodecID) (tb : AVRational)
    (indet : bool * Z) (packets : list AVPacket) :
  delayed_frames codec tb indet 0 packets
  = (fun p => frame_info codec tb (pkt_size p) indet (pkt_picture p))
      <$> packets.
Proof.
  unfold delayed_frames, yield. cbn [Nat.leb].
  rewrite take_ge by lia.
  apply list_eq. intros i. rewrite list_lookup_imap, list_lookup_fmap.
  destruct (packets !! i) as [p |] eqn:Hp; [| done]. simpl.
  pose proof (lookup_lt_Some _ _ _ Hp) as Hi.
  unfold size_at. rewrite Nat.add_0_r, Nat.min_l by lia. by rewrite Hp.
Qed.

Lemma opened_is_reading (st : @VideoDecoder.Impl DelayEngine)
    (delay : nat) (packets : list AVPacket) :
  VideoDecoder.input st = Item_packet <$> packets ->
  VideoDecoder.codecCtx st = mkDelayEngine [] false delay ->
  VideoDecoder.endOfStream st = false ->
  st = reading delay st [] packets (VideoDecoder.lastPacketSize st)
               (VideoDecoder.lastDecodedFrame st).
Proof. destruct st. simpl. by intros -> -> ->. Qed.

(** X24. VideoDecoder::readNextFrame on a file of [n] video packets,
    read from the start through an engine that holds back [delay]
    pictures: the calls return [yield delay n] frames and then no frame,
    that is all [n] frames when the delay is at most 1 and, with a delay
    of 2 or more, [n - delay + 1] frames when [delay < n] and a single
    frame when [1 <= n <= delay]. The frames are the pictures of the
    first packets, in order, and frame [i] carries the size of packet
    min(i + delay, n - 1), the packet read last before it was returned.
    The pictures of the remaining packets stay in the engine and are
    never returned: with the frames returned they make up the [n]
    pictures of the file. *)
Theorem delayed_engine_yield (indeterminate : bool * Z) (delay m : nat)
    (st : @VideoDecoder.Impl DelayEngine) (packets : list AVPacket) :
  VideoDecoder.input st = Item_packet <$> packets ->
  VideoDecoder.codecCtx st = mkDelayEngine [] false delay ->
  VideoDecoder.endOfStream st = false ->
  Forall (fun p => stream_index p = VideoDecoder.videoStreamIndex st) packets ->
  let n := length packets in
  let run := VideoDecoder.read_calls indeterminate (yield delay n + m) st in
  run.1 = ((fun info => Returned (Some info))
             <$> delayed_frames (VideoDecoder.codec_id st)
                                (VideoDecoder.time_base st)
                                indeterminate delay packets)
          ++ replicate m (Returned None)
  /\ held (VideoDecoder.codecCtx run.2)
     = pkt_picture <$> drop (yield delay n) packets
  /\ (yield delay n + length (held (VideoDecoder.codecCtx run.2)))%nat = n.
Proof.
  intros Hin Heng Heos Hvideo n run. subst run n.
  rewrite (opened_is_reading st delay packets Hin Heng Heos).
  destruct (read_calls_reading indeterminate delay st packets Hvideo
              [] packets (VideoDecoder.lastPacketSize st)
              (VideoDecoder.lastDecodedFrame st) m)
    as [Hout Hheld]; [done | simpl; lia | done |].
  split; [exact Hout |]. split; [exact Hheld |].
  rewrite Hheld, length_fmap, length_drop.
  pose proof (yield_le delay (length packets)). lia.
Qed.

Lemma delayed_engine_yield_witness :
  let st := Inputs.opened AV_CODEC_ID_H264 2
              [Inputs.packet 1; Inputs.packet 2; Inputs.packet 3] in
  let run := VideoDecoder.read_calls (false, -1) (yield 2 3 + 1) st in
  run.1 = ((fun info => Returned (Some info))
             <$> delayed_frames (VideoDecoder.codec_id st)
                                (VideoDecoder.time_base st)
                                (false, -1) 2
                                [Inputs.packet 1; Inputs.packet 2;
                                 Inputs.packet 3])
          ++ replicate 1 (Returned None)
  /\ held (VideoDecoder.codecCtx run.2)
     = pkt_picture <$> drop (yield 2 3)
                            [Inputs.packet 1; Inputs.packet 2; Inputs.packet 3]
  /\ (yield 2 3 + length (held (VideoDecoder.codecCtx run.2)))%nat = 3%nat.
Proof.
  exact (delayed_engine_yield (false, -1) 2 1
           (Inputs.opened AV_CODEC_ID_H264 2
              [Inputs.packet 1; Inputs.packet 2; Inputs.packet 3])
           [Inputs.packet 1; Inputs.packet 2; Inputs.packet 3]
           eq_refl eq_refl eq_refl
           ltac:(repeat constructor)).
Defined.

(** X25. VideoDecoder::readNextFrame through an engine that holds back
    no picture: a file of video packets, read from the start, yields one
    frame for each packet, in order, with the picture and the size of
    that packet, then no frame; no picture is left in the engine. *)
Theorem undelayed_engine_yields_every_frame (indeterminate : bool * Z)
    (m : nat) (st : @VideoDecoder.Impl DelayEngine)
    (packets : list AVPacket) :
  VideoDecoder.input st = Item_packet <$> packets ->
  VideoDecoder.codecCtx st = mkDelayEngine [] false 0 ->
  VideoDecoder.endOfStream st = false ->
  Forall (fun p => stream_index p = VideoDecoder.videoStreamIndex st) packets ->
  let run := VideoDecoder.read_calls indeterminate (length packets + m) st in
  run.1 = ((fun p => Returned (Some (frame_info (VideoDecoder.codec_id st)
                                                (VideoDecoder.time_base st)
                                                (pkt_size p) indeterminate
                                                (pkt_picture p))))
             <$> packets)
          ++ replicate m (Returned None)
  /\ held (VideoDecoder.codecCtx run.2) = [].
Proof.
  intros Hin Heng Heos Hvideo run. subst run.
  rewrite (opened_is_reading st 0 packets Hin Heng Heos).
  destruct (read_calls_reading indeterminate 0 st packets Hvideo
              [] packets (VideoDecoder.lastPacketSize st)
              (VideoDecoder.lastDecodedFrame st) m)
    as [Hout Hheld]; [done | simpl; lia | done |].
  assert (Hyield : yield 0 (length packets) = length packets)
    by reflexivity.
  rewrite Hyield in Hout, Hheld.
  split.
  - rewrite Hout, delayed_frames_no_delay, <- list_fmap_compose. done.
  - rewrite Hheld, drop_all. done.
Qed.

Lemma undelayed_engine_yields_every_frame_witness :
  let st := Inputs.opened AV_CODEC_ID_H264 0
              [Inputs.packet 1; Inputs.packet 2] in
  let run := VideoDecoder.read_calls (false, -1) (2 + 1) st in
  run.1 = ((fun p => Returned (Some (frame_info (VideoDecoder.codec_id st)
                                                (VideoDecoder.time_base st)
                                                (pkt_size p) (false, -1)
                                                (pkt_picture p))))
             <$> [Inputs.packet 1; Inputs.packet 2])
          ++ replicate 1 (Returned None)
  /\ held (VideoDecoder.codecCtx run.2) = [].
Proof.
  exact (undelayed_engine_yields_every_frame (false, -1) 1
           (Inputs.opened AV_CODEC_ID_H264 0
              [Inputs.packet 1; Inputs.packet 2])
           [Inputs.packet 1; Inputs.packet 2]
           eq_refl eq_refl eq_refl
           ltac:(repeat constructor)).
Defined.

(** ** StreamDecoder on an engine that holds back pictures *)

Section LiveDelayFacts.
Variable indeterminate : bool * Z.
Variable d : nat.
Local Abbreviation Impl := (@StreamDecoder.Impl DelayEngine).
Local Abbreviation reading_d := (live_reading d).

Lemma delay_receive_again (h : list AVFrame) :
  (length h <= d)%nat ->
  delay_receive (mkDelayEngine h false d) = (RecvAgain, mkDelayEngine h false d).
Proof.
  intros Hh. unfold delay_receive. simpl held. simpl draining. simpl delay.
  destruct h as [| f0 h0]; [done |].
  rewrite (proj2 (Nat.ltb_ge d (length (f0 :: h0)))) by lia. done.
Qed.

Lemma live_call_packet (base : Impl) (mid rest : list AVPacket) (p : AVPacket)
    (lps : Z) (buf : list FrameInfo) :
  (length mid <= d)%nat ->
  stream_index p = StreamDecoder.videoStreamIndex base ->
  StreamDecoder.readNextFrame indeterminate
    (reading_d base mid (p :: rest) lps buf)
  = match mid ++ [p] with
    | f :: mid' =>
        if (d <? length (mid ++ [p]))%nat
        then
          let info := lagging_frame (StreamDecoder.codec_id base)
                        (StreamDecoder.time_base base) indeterminate f p in
          (Some info,
           reading_d base mid' rest (pkt_size p)
             (StreamDecoder.buffer_push
                (reading_d base mid (p :: rest) lps buf) info))
        else (None, reading_d base (mid ++ [p]) rest (pkt_size p) buf)
    | [] => (None, reading_d base (mid ++ [p]) rest (pkt_size p) buf)
    end.
Proof.
  intros Hmid Hp.
  unfold StreamDecoder.readNextFrame.
  change (StreamDecoder.streamActive (reading_d base mid (p :: rest) lps buf))
    with true.
  change (StreamDecoder.codecCtx (reading_d base mid (p :: rest) lps buf))
    with (mkDelayEngine (pkt_picture <$> mid) false d).
  cbn [negb]. cbv iota.
  change (avcodec_receive_frame (mkDelayEngine (pkt_picture <$> mid) false d))
    with (delay_receive (mkDelayEngine (pkt_picture <$> mid) false d)).
  rewrite delay_receive_again by (by rewrite length_fmap).
  change (StreamDecoder.input (reading_d base mid (p :: rest) lps buf))
    with (StreamDecoder.Live_packet p :: (StreamDecoder.Live_packet <$> rest)).
  change (StreamDecoder.videoStreamIndex (reading_d base mid (p :: rest) lps buf))
    with (StreamDecoder.videoStreamIndex base).
  cbv iota. rewrite Hp, Z.eqb_refl. cbn [negb]. cbv iota.
  change (avcodec_send_packet (Some p)
            (mkDelayEngine (pkt_picture <$> mid) false d))
    with (SendOk, mkDelayEngine ((pkt_picture <$> mid) ++ [pkt_picture p])
                                false d).
  cbv iota.
  change (avcodec_receive_frame
            (mkDelayEngine ((pkt_picture <$> mid) ++ [pkt_picture p]) false d))
    with (delay_receive
            (mkDelayEngine ((pkt_picture <$> mid) ++ [pkt_picture p]) false d)).
  destruct (mid ++ [p]) as [| f mid'] eqn:Hsplit;
    [by destruct mid |].
  assert (Hpics : (pkt_picture <$> mid) ++ [pkt_picture p]
                  = pkt_picture f :: (pkt_picture <$> mid')).
  { change [pkt_picture p] with (pkt_picture <$> [p]).
    by rewrite <- fmap_app, Hsplit. }
  rewrite Hpics. unfold delay_receive. simpl held. simpl draining. simpl delay.
  cbn [orb]. rewrite length_cons, length_fmap.
  change (S (length mid')) with (length (f :: mid')).
  destruct (d <? length (f :: mid'))%nat; reflexivity.
Qed.


Lemma live_call_end (base : Impl) (mid : list AVPacket) (lps : Z)
    (buf : list FrameInfo) :
  (length mid <= d)%nat ->
  StreamDecoder.readNextFrame indeterminate (reading_d base mid [] lps buf)
  = (None,
     StreamDecoder.update base []
       (mkDelayEngine (pkt_picture <$> mid) false d) false lps buf).
Proof.
  intros Hmid. unfold StreamDecoder.readNextFrame.
  change (StreamDecoder.streamActive (reading_d base mid [] lps buf))
    with true.
  change (StreamDecoder.codecCtx (reading_d base mid [] lps buf))
    with (mkDelayEngine (pkt_picture <$> mid) false d).
  cbn [negb]. cbv iota.
  change (avcodec_receive_frame (mkDelayEngine (pkt_picture <$> mid) false d))
    with (delay_receive (mkDelayEngine (pkt_picture <$> mid) false d)).
  rewrite delay_receive_again by (by rewrite length_fmap).
  reflexivity.
Qed.

Lemma live_read_calls (base : Impl) (rest : list AVPacket) :
  Forall (fun p => stream_index p = StreamDecoder.videoStreamIndex base) rest ->
  forall (mid : list AVPacket) (lps : Z) (buf : list FrameInfo) (m : nat),
  (length mid <= d)%nat ->
  let run := StreamDecoder.read_calls indeterminate (length rest + m)
               (reading_d base mid rest lps buf) in
  run.1 = replicate (Nat.min (length rest) (d - length mid)) None
          ++ (Some <$> zip_with (lagging_frame (StreamDecoder.codec_id base)
                                   (StreamDecoder.time_base base) indeterminate)
                                (mid ++ rest) (drop (d - length mid) rest))
          ++ replicate m None
  /\ held (StreamDecoder.codecCtx run.2)
     = pkt_picture <$> drop (length (mid ++ rest) - d) (mid ++ rest)
  /\ ((1 <= m)%nat -> StreamDecoder.streamActive run.2 = false)
  /\ draining (StreamDecoder.codecCtx run.2) = false.
Proof.
  induction rest as [| p rest IH]; intros Hvideo mid lps buf m Hmid run;
    subst run.
  - rewrite app_nil_r. simpl length. simpl Nat.min.
    rewrite drop_nil. cbn [replicate app fmap list_fmap].
    replace (zip_with _ mid []) with (@nil FrameInfo) by by destruct mid.
    cbn [fmap list_fmap app Nat.add].
    replace (length mid - d)%nat with 0%nat by lia. rewrite drop_0.
    destruct m as [| m]; [by repeat split; try lia |].
    cbn [StreamDecoder.read_calls]. rewrite live_call_end by done.
    rewrite read_calls_inactive by done. done.
  - apply Forall_cons in Hvideo as [Hp Hvideo].
    cbn [length Nat.add StreamDecoder.read_calls].
    rewrite live_call_packet by done.
    destruct (mid ++ [p]) as [| f mid'] eqn:Hsplit; [by destruct mid |].
    assert (Hlen : length (f :: mid') = S (length mid))
      by (rewrite <- Hsplit, length_app; simpl; lia).
    assert (Hall : mid ++ p :: rest = f :: mid' ++ rest).
    { change (p :: rest) with ([p] ++ rest). by rewrite app_assoc, Hsplit. }
    destruct (Nat.ltb_spec d (length (f :: mid'))) as [Hfull | Hroom].
    + (* the engine holds [d] pictures: this call returns the oldest *)
      assert (Hd : length mid = d) by lia.
      assert (Hmid' : length mid' = d) by (simpl in Hlen; lia).
      cbv zeta.
      destruct (IH Hvideo mid' (pkt_size p)
                  (StreamDecoder.buffer_push
                     (reading_d base mid (p :: rest) lps buf)
                     (lagging_frame (StreamDecoder.codec_id base)
                        (StreamDecoder.time_base base) indeterminate f p)) m)
        as (Hout & Hheld & Hoff & Hdrain); [lia |].
      destruct (StreamDecoder.read_calls _ _ _) as [rs st2].
      cbn [fst snd] in *. rewrite Hout.
      rewrite Hmid', Hd, !Nat.sub_diag, Nat.min_0_r, !drop_0, Hall.
      cbn [replicate app zip_with fmap list_fmap].
      split; [done |]. split; [| done].
      rewrite Hheld.
      replace (length (f :: mid' ++ rest) - d)%nat
        with (S (length (mid' ++ rest) - d))
        by (simpl; rewrite length_app; lia).
      done.
    + (* the engine takes the packet and gives nothing *)
      assert (Hlt : (length mid < d)%nat) by lia.
      destruct (IH Hvideo (f :: mid') (pkt_size p) buf m)
        as (Hout & Hheld & Hoff); [lia |].
      rewrite <- Hsplit in *.
      destruct (StreamDecoder.read_calls _ _ _) as [rs st2].
      cbn [fst snd] in *. rewrite Hout.
      rewrite length_app in Hlen |- *. simpl length in *.
      replace (d - length mid)%nat with (S (d - (length mid + 1))) by lia.
      rewrite <- Nat.succ_min_distr. cbn [replicate app drop].
      rewrite <- !app_assoc. cbn [app].
      split; [done |]. split; [| done].
      rewrite Hheld, <- !app_assoc. done.
Qed.

End LiveDelayFacts.

Lemma opened_is_live_reading (st : @StreamDecoder.Impl DelayEngine)
    (delay : nat) (packets : list AVPacket) :
  StreamDecoder.input st = StreamDecoder.Live_packet <$> packets ->
  StreamDecoder.codecCtx st = mkDelayEngine [] false delay ->
  StreamDecoder.streamActive st = true ->
  st = live_reading delay st [] packets (StreamDecoder.lastPacketSize st)
                    (StreamDecoder.frameBuffer st).
Proof. destruct st. simpl. by intros -> -> ->. Qed.

(** X26. StreamDecoder::readNextFrame on a live source of [n] video
    packets that then ends, read from the start through an engine that
    holds back [delay] pictures: the first min(n, delay) calls return no
    frame; each later call returns the picture of the packet read
    [delay] calls before, with the size of the packet just read; the
    call at the end of the source returns no frame and stops the stream,
    and the pictures of the last min(n, delay) packets are still in the
    engine, which is never flushed: it is not draining at the end. *)
Theorem live_delayed_engine_yield (indeterminate : bool * Z) (delay m : nat)
    (st : @StreamDecoder.Impl DelayEngine) (packets : list AVPacket) :
  StreamDecoder.input st = StreamDecoder.Live_packet <$> packets ->
  StreamDecoder.codecCtx st = mkDelayEngine [] false delay ->
  StreamDecoder.streamActive st = true ->
  Forall (fun p => stream_index p = StreamDecoder.videoStreamIndex st)
         packets ->
  let n := length packets in
  let run := StreamDecoder.read_calls indeterminate (n + m) st in
  run.1 = replicate (Nat.min n delay) None
          ++ (Some <$> zip_with (lagging_frame (StreamDecoder.codec_id st)
                                   (StreamDecoder.time_base st) indeterminate)
                                packets (drop delay packets))
          ++ replicate m None
  /\ held (StreamDecoder.codecCtx run.2)
     = pkt_picture <$> drop (n - delay) packets
  /\ ((1 <= m)%nat -> StreamDecoder.isStreamActive run.2 = false)
  /\ draining (StreamDecoder.codecCtx run.2) = false.
Proof.
  intros Hin Heng Hact Hvideo n run. subst run n.
  rewrite (opened_is_live_reading st delay packets Hin Heng Hact).
  destruct (live_read_calls indeterminate delay st packets Hvideo
              [] (StreamDecoder.lastPacketSize st)
              (StreamDecoder.frameBuffer st) m)
    as (Hout & Hheld & Hoff & Hdrain); [simpl; lia |].
  simpl length in Hout. rewrite Nat.sub_0_r in Hout.
  split; [exact Hout |]. split; [exact Hheld |].
  split; [exact Hoff | exact Hdrain].
Qed.

Lemma live_delayed_engine_yield_witness :
  let st := Inputs.opened_live AV_CODEC_ID_H264 1
              [Inputs.packet 1; Inputs.packet 2; Inputs.packet 3] in
  let run := StreamDecoder.read_calls (false, -1) (3 + 1) st in
  run.1 = replicate (Nat.min 3 1) None
          ++ (Some <$> zip_with (lagging_frame (StreamDecoder.codec_id st)
                                   (StreamDecoder.time_base st) (false, -1))
                                [Inputs.packet 1; Inputs.packet 2;
                                 Inputs.packet 3]
                                (drop 1 [Inputs.packet 1; Inputs.packet 2;
                                         Inputs.packet 3]))
          ++ replicate 1 None
  /\ held (StreamDecoder.codecCtx run.2)
     = pkt_picture <$> drop (3 - 1) [Inputs.packet 1; Inputs.packet 2;
                                     Inputs.packet 3]
  /\ ((1 <= 1)%nat -> StreamDecoder.isStreamActive run.2 = false)
  /\ draining (StreamDecoder.codecCtx run.2) = false.
Proof.
  exact (live_delayed_engine_yield (false, -1) 1 1
           (Inputs.opened_live AV_CODEC_ID_H264 1
              [Inputs.packet 1; Inputs.packet 2; Inputs.packet 3])
           [Inputs.packet 1; Inputs.packet 2; Inputs.packet 3]
           eq_refl eq_refl eq_refl
           ltac:(repeat constructor)).
Defined.

(** ** SceneDetector::analyze: the scenes and the frames they cover *)

Section SceneFacts.
Import SceneDetector.

Lemma tiled_snoc (from : Z) (scenes : list SceneInfo) (s : SceneInfo) :
  tiled from scenes ->
  startFrameNumber s = upto from scenes ->
  upto from scenes <= endFrameNumber s ->
  frameCount s = endFrameNumber s - startFrameNumber s + 1 ->
  tiled from (scenes ++ [s]).
Proof.
  revert from. induction scenes as [| t scenes IH]; intros from; simpl.
  - intros _ Hs He Hc. by repeat split.
  - intros (Ht & Hle & Hcount & Hrest) Hs He Hc.
    repeat split; try done. by apply IH.
Qed.

Lemma upto_snoc (from : Z) (scenes : list SceneInfo) (s : SceneInfo) :
  upto from (scenes ++ [s]) = endFrameNumber s + 1.
Proof.
  revert from. induction scenes as [| t scenes IH]; intros from; simpl;
    [done | apply IH].
Qed.

Lemma scene_sum_snoc (scenes : list SceneInfo) (s : SceneInfo) :
  sum_frameCount (scenes ++ [s]) = sum_frameCount scenes + frameCount s.
Proof.
  unfold sum_frameCount. induction scenes as [| t scenes IH]; simpl; lia.
Qed.

Lemma boundary_at_lookup (b : list Z) (i : nat) (x : Z) :
  b !! i = Some x -> boundary_at b i = x.
Proof. intros Hx. unfold boundary_at. by rewrite Hx. Qed.

Lemma tiled_upto (from : Z) (scenes : list SceneInfo) :
  tiled from scenes ->
  from <= upto from scenes /\ (scenes <> [] -> from < upto from scenes).
Proof.
  revert from. induction scenes as [| s scenes IH]; intros from; simpl.
  - intros _. split; [lia | done].
  - intros (Hs & Hle & _ & Hrest).
    destruct (IH _ Hrest) as [Hnext _]. split; [lia |]. intros _. lia.
Qed.

Variable threshold : spec_float.
Variable frames : list FrameInfo.
Hypothesis frames_fit : Z.of_nat (length frames) <= CInt.INT_MAX.

Lemma pass_state_step (i : nat) (p : pass) :
  (i < length frames)%nat ->
  pass_state threshold frames i p ->
  pass_state threshold frames (S i) (pass_step threshold frames p).
Proof.
  intros Hi (Hidx & Hzero & Hcons & Hall & Hinc & Hlast).
  unfold CInt.INT_MAX in frames_fit.
  assert (Hnext : CInt.incr (frameIndex p) = Z.of_nat (S i)).
  { rewrite Hidx, incr_in_range; unfold CInt.INT_MIN, CInt.INT_MAX; lia. }
  unfold pass_step, pass_state. cbn [frameIndex sceneBoundaries].
  rewrite Hnext, Hidx.
  destruct i as [| i'].
  - (* the first frame: no comparison *)
    change (0 <? Z.of_nat 0) with false. cbv iota.
    split; [done |]. split; [done |]. split; [done |].
    split; [eapply Forall_impl; [exact Hall |]; simpl; lia |].
    split; [done |]. intros _.
    split; [by left |]. intros _.
    destruct (last (sceneBoundaries p)) as [x |] eqn:Hx;
      [| by apply last_None in Hx].
    assert (Hin : x ∈ sceneBoundaries p).
    { apply last_Some in Hx as [l' ->]. apply elem_of_app. right.
      by apply list_elem_of_singleton. }
    rewrite Forall_forall in Hall. specialize (Hall x Hin).
    cbv beta in Hall. f_equal. lia.
  - set (i := S i') in *.
    assert (Hpos : (1 <= i)%nat) by (unfold i; lia). clearbody i.
    rewrite (proj2 (Z.ltb_lt 0 (Z.of_nat i))) by lia.
    unfold frame_at.
    replace (Z.to_nat (Z.of_nat i - 1)) with (i - 1)%nat by lia.
    rewrite Nat2Z.id.
    destruct (lookup_lt_is_Some_2 frames (i - 1)) as [prev Hprev]; [lia |].
    destruct (lookup_lt_is_Some_2 frames i) as [curr Hcurr]; [lia |].
    rewrite Hprev, Hcurr.
    assert (Hrule : boundary_index threshold frames (S i - 1)
                    = isSceneBoundary threshold prev curr).
    { unfold boundary_index. replace (S i - 1)%nat with i by lia.
      by rewrite Hprev, Hcurr. }
    assert (Hbelow : forall x, last (sceneBoundaries p) = Some x ->
                               x < Z.of_nat i).
    { intros x Hx. apply last_Some in Hx as [l' Hl'].
      rewrite Hl' in Hall. apply Forall_app in Hall as [_ Hall].
      rewrite Forall_singleton in Hall. lia. }
    rewrite Hrule. destruct (isSceneBoundary threshold prev curr).
    + split; [done |]. split.
      { unfold boundary_at in *.
        destruct (sceneBoundaries p) as [| b0 bs]; [done | done]. }
      split; [by destruct (sceneBoundaries p) |].
      split.
      { apply Forall_app. split.
        - eapply Forall_impl; [exact Hall |]. simpl. lia.
        - apply Forall_singleton. lia. }
      split.
      { intros j x y Hx Hy.
        destruct (decide (S j < length (sceneBoundaries p))%nat) as [Hlt | Hge].
        - rewrite lookup_app_l in Hx, Hy by lia. by apply (Hinc j).
        - assert (Hj : S j = length (sceneBoundaries p)).
          { apply lookup_lt_Some in Hy. rewrite length_app in Hy.
            simpl in Hy. lia. }
          rewrite lookup_app_l in Hx by lia.
          rewrite lookup_app_r in Hy by lia.
          rewrite Hj, Nat.sub_diag in Hy. injection Hy as <-.
          apply Hbelow. rewrite last_lookup, <- Hj. done. }
      intros _. rewrite last_snoc.
      split; [by right |]. intros _. f_equal. lia.
    + split; [done |]. split; [done |]. split; [done |].
      split; [eapply Forall_impl; [exact Hall |]; simpl; lia |].
      split; [done |]. intros _. split.
      * intros Hx. apply Hbelow in Hx. lia.
      * intros [Hone | Hno]; [lia | done].
Qed.


(** The scenes made of a list of boundaries that starts at 0, increases
    and stays within the frames: they follow one another from frame 0 up
    to the last boundary. *)
Lemma scenes_of_boundaries (b : list Z) :
  boundary_at b 0 = 0 -> b <> [] ->
  Forall (fun x => 0 <= x <= Z.of_nat (length frames)) b ->
  (forall j x y, b !! j = Some x -> b !! S j = Some y -> x < y) ->
  let scenes := for_range 0 (length b - 1) (scene_step frames b) [] in
  tiled 0 scenes
  /\ upto 0 scenes = boundary_at b (length b - 1)
  /\ sum_frameCount scenes = boundary_at b (length b - 1)
  /\ length scenes = (length b - 1)%nat.
Proof.
  intros Hzero Hcons Hall Hinc scenes. subst scenes.
  unfold CInt.INT_MAX in frames_fit.
  apply (for_range_ind (fun i scenes =>
           tiled 0 scenes /\ upto 0 scenes = boundary_at b i
           /\ sum_frameCount scenes = boundary_at b i
           /\ length scenes = i)); [lia | by rewrite Hzero |].
  intros i scenes Hi (Htiled & Hupto & Hsum & Hlen).
  destruct (lookup_lt_is_Some_2 b i) as [x Hx]; [lia |].
  destruct (lookup_lt_is_Some_2 b (S i)) as [y Hy]; [lia |].
  pose proof (Hinc i x y Hx Hy) as Hxy.
  rewrite Forall_lookup in Hall.
  pose proof (Hall i x Hx) as Hxr. pose proof (Hall (S i) y Hy) as Hyr.
  cbv beta in Hxr, Hyr.
  unfold scene_step. rewrite Nat.add_1_r.
  rewrite (boundary_at_lookup b i x Hx) in Hupto, Hsum.
  rewrite (boundary_at_lookup b i x Hx), (boundary_at_lookup b (S i) y Hy).
  rewrite (int_in_range (y - 1))
    by (unfold CInt.in_int, CInt.INT_MIN, CInt.INT_MAX; lia).
  rewrite (int_in_range (Z.of_nat (length frames)))
    by (unfold CInt.in_int, CInt.INT_MIN, CInt.INT_MAX; lia).
  rewrite (proj2 (Z.leb_gt (Z.of_nat (length frames)) (y - 1))) by lia.
  rewrite (int_in_range (y - 1 - x))
    by (unfold CInt.in_int, CInt.INT_MIN, CInt.INT_MAX; lia).
  rewrite (int_in_range (y - 1 - x + 1))
    by (unfold CInt.in_int, CInt.INT_MIN, CInt.INT_MAX; lia).
  rewrite upto_snoc, scene_sum_snoc, length_app, Hsum, Hlen.
  cbn [endFrameNumber frameCount length].
  split; [| repeat split; lia].
  apply tiled_snoc; cbn [startFrameNumber endFrameNumber frameCount];
    rewrite ?Hupto; (done || lia).
Qed.

(** What [analyze] finds on [frames] when the second pass returns as
    many frames as the first. *)
Lemma analyze_frames_covers :
  frames <> [] ->
  let scenes := analyze_frames threshold frames (length frames) in
  let covered := if last_frame_is_boundary threshold frames
                 then Z.of_nat (length frames) - 1
                 else Z.of_nat (length frames) in
  tiled 0 scenes /\ upto 0 scenes = covered
  /\ sum_frameCount scenes = covered.
Proof.
  intros Hframes scenes covered. subst scenes covered.
  unfold CInt.INT_MAX in frames_fit.
  assert (Hn : (1 <= length frames)%nat).
  { destruct frames; [done | simpl; lia]. }
  assert (Hrun : analyze_frames threshold frames (length frames)
    = let p := for_range 0 (length frames)
                 (fun _ => pass_step threshold frames) (mkPass [0] 0) in
      let boundaries :=
        if negb (from_option id 0 (last (sceneBoundaries p))
                 =? CInt.int (CInt.int (Z.of_nat (length frames)) - 1))
        then sceneBoundaries p ++ [CInt.int (Z.of_nat (length frames))]
        else sceneBoundaries p in
      for_range 0 (length boundaries - 1) (scene_step frames boundaries) [])
    by by destruct frames.
  rewrite Hrun. clear Hrun. cbv zeta.
  assert (Hp : pass_state threshold frames (length frames)
                 (for_range 0 (length frames)
                    (fun _ => pass_step threshold frames) (mkPass [0] 0))).
  { apply (for_range_ind (pass_state threshold frames)); [lia | |].
    - split; [done |]. split; [done |]. split; [done |].
      split; [by apply Forall_singleton |].
      split; [by intros [| j] |]. intros Hle. lia.
    - intros i p Hi Hs. apply pass_state_step; [lia | done]. }
  set (p := for_range 0 (length frames) _ _) in *.
  destruct Hp as (_ & Hzero & Hcons & Hall & Hinc & Hlast).
  specialize (Hlast Hn).
  rewrite (int_in_range (Z.of_nat (length frames)))
    by (unfold CInt.in_int, CInt.INT_MIN, CInt.INT_MAX; lia).
  rewrite (int_in_range (Z.of_nat (length frames) - 1))
    by (unfold CInt.in_int, CInt.INT_MIN, CInt.INT_MAX; lia).
  destruct (last (sceneBoundaries p)) as [x |] eqn:Hx;
    [| by apply last_None in Hx].
  assert (Hxr : 0 <= x < Z.of_nat (length frames)).
  { apply last_Some in Hx as [l' Hl']. rewrite Hl' in Hall.
    apply Forall_app in Hall as [_ Hall].
    rewrite Forall_singleton in Hall. lia. }
  assert (Hlfb : last_frame_is_boundary threshold frames
                 = (x =? Z.of_nat (length frames) - 1)).
  { unfold last_frame_is_boundary.
    destruct (Z.eqb_spec x (Z.of_nat (length frames) - 1)) as [-> | Hne].
    - destruct (proj1 Hlast eq_refl) as [-> | ->]; [done |].
      apply orb_true_r.
    - apply orb_false_iff. split.
      + apply Nat.eqb_neq. intros Hone. apply Hne.
        assert (Hsome : Some x = Some (Z.of_nat (length frames) - 1))
          by (apply Hlast; by left).
        by injection Hsome.
      + destruct (boundary_index threshold frames (length frames - 1))
          eqn:Hb; [| done].
        exfalso. apply Hne.
        assert (Hsome : Some x = Some (Z.of_nat (length frames) - 1))
          by (apply Hlast; by right).
        by injection Hsome. }
  rewrite Hlfb. cbn [from_option id].
  destruct (Z.eqb_spec x (Z.of_nat (length frames) - 1)) as [Heq | Hne];
    cbn [negb].
  - destruct (scenes_of_boundaries (sceneBoundaries p))
      as (Ht & Hu & Hs & _); try done.
    { eapply Forall_impl; [exact Hall |]. cbv beta. lia. }
    assert (Hend : boundary_at (sceneBoundaries p)
                     (length (sceneBoundaries p) - 1) = x).
    { apply boundary_at_lookup. rewrite last_lookup in Hx.
      by replace (length (sceneBoundaries p) - 1)%nat
        with (Nat.pred (length (sceneBoundaries p))) by lia. }
    rewrite Hend in Hu, Hs. by rewrite Hu, Hs, Heq.
  - set (b := sceneBoundaries p ++ [Z.of_nat (length frames)]).
    destruct (scenes_of_boundaries b) as (Ht & Hu & Hs & _).
    + unfold b, boundary_at in *.
      destruct (sceneBoundaries p); [done | done].
    + unfold b. by destruct (sceneBoundaries p).
    + unfold b. apply Forall_app. split.
      * eapply Forall_impl; [exact Hall |]. cbv beta. lia.
      * apply Forall_singleton. lia.
    + intros j u v Hu Hv. unfold b in Hu, Hv.
      destruct (decide (S j < length (sceneBoundaries p))%nat) as [Hlt | Hge].
      * rewrite lookup_app_l in Hu, Hv by lia. by apply (Hinc j).
      * assert (Hj : S j = length (sceneBoundaries p)).
        { apply lookup_lt_Some in Hv. rewrite length_app in Hv.
          simpl in Hv. lia. }
        rewrite lookup_app_l in Hu by lia.
        rewrite lookup_app_r in Hv by lia.
        rewrite Hj, Nat.sub_diag in Hv. injection Hv as <-.
        rewrite last_lookup, <- Hj in Hx. simpl in Hx.
        rewrite Hu in Hx. injection Hx as ->. lia.
    + assert (Hend : boundary_at b (length b - 1)
                     = Z.of_nat (length frames)).
      { apply boundary_at_lookup. unfold b.
        rewrite length_app. simpl length.
        rewrite lookup_app_r by lia.
        by replace (length (sceneBoundaries p) + 1 - 1
                    - length (sceneBoundaries p))%nat with 0%nat by lia. }
      rewrite Hend in Hu, Hs. by rewrite Hu, Hs.
Qed.

End SceneFacts.

(** X27. SceneDetector::analyze, when the second pass over the file
    returns as many frames as the first (between 1 and INT_MAX): the
    scenes are runs of consecutive frames that follow one another from
    frame 0, each with at least one frame and with [frameCount] the
    length of its run. They cover every frame, unless the last frame is
    itself found to be a scene boundary: then no final boundary is added
    and the last frame belongs to no scene, so that the frame counts add
    up to one less than the number of frames; a one-frame video has no
    scene at all. *)
Theorem scenes_cover_all_but_a_last_boundary (threshold : spec_float)
    (frames : list FrameInfo) :
  frames <> [] ->
  Z.of_nat (length frames) <= CInt.INT_MAX ->
  let scenes := SceneDetector.analyze_frames threshold frames
                  (length frames) in
  let covered := if SceneDetector.last_frame_is_boundary threshold frames
                 then Z.of_nat (length frames) - 1
                 else Z.of_nat (length frames) in
  SceneDetector.tiled 0 scenes
  /\ SceneDetector.upto 0 scenes = covered
  /\ SceneDetector.sum_frameCount scenes = covered
  /\ (length frames = 1%nat -> scenes = []).
Proof.
  intros Hframes Hfit scenes covered.
  destruct (analyze_frames_covers threshold frames Hfit Hframes)
    as (Htiled & Hupto & Hsum).
  fold scenes in Htiled, Hupto, Hsum.
  split; [done |]. split; [done |]. split; [done |].
  intros Hone.
  destruct (tiled_upto 0 scenes Htiled) as [_ Hpos].
  destruct scenes as [| s rest]; [done |].
  specialize (Hpos ltac:(done)). rewrite Hupto in Hpos.
  unfold SceneDetector.last_frame_is_boundary in Hpos.
  rewrite Hone in Hpos. simpl in Hpos. lia.
Qed.

Lemma scenes_cover_all_but_a_last_boundary_witness :
  let threshold := F64.of_int 1 in
  let frames := [Inputs.sized 100 false (-1); Inputs.sized 100 false (-1);
                 Inputs.sized 900 false (-1)] in
  let scenes := SceneDetector.analyze_frames threshold frames
                  (length frames) in
  let covered := if SceneDetector.last_frame_is_boundary threshold frames
                 then Z.of_nat (length frames) - 1
                 else Z.of_nat (length frames) in
  SceneDetector.tiled 0 scenes
  /\ SceneDetector.upto 0 scenes = covered
  /\ SceneDetector.sum_frameCount scenes = covered
  /\ (length frames = 1%nat -> scenes = []).
Proof.
  exact (scenes_cover_all_but_a_last_boundary (F64.of_int 1)
           [Inputs.sized 100 false (-1); Inputs.sized 100 false (-1);
            Inputs.sized 900 false (-1)]
           ltac:(discriminate) ltac:(vm_compute; discriminate)).
Defined.

(** ** ThreadPool: stopping is final *)

Lemma step_keeps_stop (p p' : ThreadPool.pool) :
  ThreadPool.step p p' ->
  ThreadPool.stop_ p = true ->
  ThreadPool.stop_ p' = true
  /\ ThreadPool.accepted p' = ThreadPool.accepted p
  /\ length (ThreadPool.workers_ p') = length (ThreadPool.workers_ p).
Proof.
  intros Hstep Hstop.
  destruct Hstep as [p t p' Hsub | p i Hw Hpred | p i t Hw | p i t Hw
                    | p Hd | p k Hd Hw]; simpl;
    rewrite ?length_insert; try done.
  unfold ThreadPool.submit in Hsub. by rewrite Hstop in Hsub.
Qed.

(** X28. ThreadPool::~ThreadPool / submit: stopping is final. From a
    state in which [stop_] is set, whatever the threads do next, [stop_]
    stays set, [submit] throws and queues nothing, the tasks accepted
    stay the same and so does the number of workers. *)
Theorem stopped_pool_accepts_no_task (p q : ThreadPool.pool)
    (t : ThreadPool.task) :
  ThreadPool.reachable p q ->
  ThreadPool.stop_ p = true ->
  ThreadPool.stop_ q = true
  /\ ThreadPool.submit t q
     = Thrown 0 "Cannot submit task to stopped ThreadPool"
  /\ ThreadPool.accepted q = ThreadPool.accepted p
  /\ ThreadPool.getThreadCount q = ThreadPool.getThreadCount p.
Proof.
  intros Hreach Hstop.
  assert (Hall : ThreadPool.stop_ q = true
                 /\ ThreadPool.accepted q = ThreadPool.accepted p
                 /\ length (ThreadPool.workers_ q)
                    = length (ThreadPool.workers_ p)).
  { induction Hreach as [| q q' Hreach IH Hstep]; [done |].
    destruct IH as (Hq & Hacc & Hlen).
    destruct (step_keeps_stop q q' Hstep Hq) as (Hq' & Hacc' & Hlen').
    split; [done |]. split; congruence. }
  destruct Hall as (Hq & Hacc & Hlen).
  split; [done |]. split; [| split; [done |]].
  - unfold ThreadPool.submit. by rewrite Hq.
  - unfold ThreadPool.getThreadCount. by rewrite Hlen.
Qed.

Lemma stopped_pool_accepts_no_task_witness :
  ThreadPool.stop_ Inputs.pool_running = true
  /\ ThreadPool.submit 8%nat Inputs.pool_running
     = Thrown 0 "Cannot submit task to stopped ThreadPool"
  /\ ThreadPool.accepted Inputs.pool_running
     = ThreadPool.accepted Inputs.pool_stopping
  /\ ThreadPool.getThreadCount Inputs.pool_running
     = ThreadPool.getThreadCount Inputs.pool_stopping.
Proof.
  exact (stopped_pool_accepts_no_task Inputs.pool_stopping Inputs.pool_running
           8%nat
           (ThreadPool.reach_step _ _ _ (ThreadPool.reach_init _)
              (ThreadPool.step_take Inputs.pool_stopping 0 eq_refl eq_refl))
           eq_refl).
Defined.

(** ** VideoDecoder: the packets of the other streams *)

Section OtherStreams.
Context {E : Type} `{DecodeEngine E}.
Variable indeterminate : bool * Z.
Hypothesis again_is_idle :
  forall e e' : E, avcodec_receive_frame e = (RecvAgain, e') -> e' = e.
Local Abbreviation loop := (VideoDecoder.readNextFrame_loop indeterminate).

Lemma video_only_cons (vsi : Z) (item : demux_item) (rest : list demux_item) :
  video_only vsi (item :: rest)
  = if on_video_stream vsi item then item :: video_only vsi rest
    else video_only vsi rest.
Proof.
  unfold video_only. rewrite filter_cons.
  destruct (on_video_stream vsi item); [by rewrite decide_True |].
  by rewrite decide_False.
Qed.

(** A turn of the loop that does not get [EAGAIN] from the engine does
    not look at the input. *)
Lemma loop_returns_at_once (st : VideoDecoder.Impl) (inp inp' : list demux_item)
    (eng eng1 : E) (lps : Z) (ldf : option AVFrame) (r : recv_result) :
  avcodec_receive_frame eng = (r, eng1) -> r <> RecvAgain ->
  (loop st inp eng lps ldf).1 = (loop st inp' eng lps ldf).1
  /\ exists eos lps' ldf',
       (loop st inp eng lps ldf).2 = VideoDecoder.update st inp eng1 eos lps' ldf'
       /\ (loop st inp' eng lps ldf).2
          = VideoDecoder.update st inp' eng1 eos lps' ldf'.
Proof.
  intros Hrecv Hr.
  destruct inp as [| i1 inp1], inp' as [| i2 inp2]; simpl; rewrite Hrecv;
    destruct r as [frame | | | code]; try done;
    (split; [done | by eexists _, _, _]).
Qed.

Lemma without_update (st : VideoDecoder.Impl) (inp : list demux_item)
    (eng : E) (eos : bool) (lps : Z) (ldf : option AVFrame) :
  without_other_streams (VideoDecoder.update st inp eng eos lps ldf)
  = VideoDecoder.update st (video_only (VideoDecoder.videoStreamIndex st) inp)
                        eng eos lps ldf.
Proof. reflexivity. Qed.

Lemma loop_skips_other_streams (st : VideoDecoder.Impl)
    (inp : list demux_item) (eng : E) (lps : Z) (ldf : option AVFrame) :
  loop (without_other_streams st)
       (video_only (VideoDecoder.videoStreamIndex st) inp) eng lps ldf
  = ((loop st inp eng lps ldf).1,
     without_other_streams (loop st inp eng lps ldf).2).
Proof.
  revert eng lps ldf. induction inp as [| item rest IH]; intros eng lps ldf.
  - simpl. destruct (avcodec_receive_frame eng) as [[frame | | | code] eng1];
      try done.
    destruct (avcodec_send_packet None eng1) as [r2 eng2].
    by destruct (avcodec_receive_frame eng2) as [[frame | | | code] eng3].
  - rewrite video_only_cons.
    destruct (on_video_stream (VideoDecoder.videoStreamIndex st) item) eqn:Hon.
    + (* an item the decoder looks at *)
      destruct item as [packet | code]; simpl;
        (destruct (avcodec_receive_frame eng) as [[frame | | | code'] eng1];
         cbn [fst snd];
         try (rewrite without_update, video_only_cons, Hon; reflexivity)).
      simpl in Hon.
      change (VideoDecoder.videoStreamIndex (without_other_streams st))
        with (VideoDecoder.videoStreamIndex st).
      rewrite Hon. simpl.
      destruct (avcodec_send_packet (Some packet) eng1) as [[| | code] eng2];
        try apply IH.
      all: reflexivity.
    + (* a packet of another stream *)
      destruct item as [packet | code]; [| done]. simpl in Hon.
      rewrite IH.
      destruct (avcodec_receive_frame eng) as [r eng1] eqn:Hrecv.
      assert (Hcases : r = RecvAgain \/ r <> RecvAgain)
        by (destruct r; (by left) || (by right)).
      destruct Hcases as [-> | Hr].
      * pose proof (again_is_idle _ _ Hrecv) as ->.
        simpl. rewrite Hrecv, Hon. simpl. done.
      * destruct (loop_returns_at_once st rest (Item_packet packet :: rest)
                    eng eng1 lps ldf r Hrecv Hr)
          as (Hfst & eos & lps' & ldf' & Hs1 & Hs2).
        rewrite Hfst, Hs1, Hs2, !without_update.
        rewrite video_only_cons. simpl. by rewrite Hon.
Qed.

End OtherStreams.

Lemma delay_receive_idle (e e' : DelayEngine) :
  delay_receive e = (RecvAgain, e') -> e' = e.
Proof.
  unfold delay_receive. destruct (held e) as [| f h].
  - destruct (draining e); [done |]. by intros [= <-].
  - destruct (draining e || (delay e <? length (f :: h))%nat); [done |].
    by intros [= <-].
Qed.

(** X29. VideoDecoder::readNextFrame skips the packets of the other
    streams: with an engine that [EAGAIN] leaves as it is, any number of
    calls return the same results, frames and errors alike, on a file as
    on the same file with the packets of the other streams taken out,
    and leave the decoder in the same state and at the same place in the
    video stream. *)
Theorem other_streams_do_not_matter {E : Type} `{DecodeEngine E}
    (indeterminate : bool * Z) (n : nat) (st : @VideoDecoder.Impl E) :
  (forall e e' : E, avcodec_receive_frame e = (RecvAgain, e') -> e' = e) ->
  let run := VideoDecoder.read_calls indeterminate n st in
  VideoDecoder.read_calls indeterminate n (without_other_streams st)
  = (run.1, without_other_streams run.2).
Proof.
  intros Hidle. revert st. induction n as [| n IH]; intros st run; subst run;
    [done |].
  assert (Hcall : VideoDecoder.readNextFrame indeterminate
                    (without_other_streams st)
                  = ((VideoDecoder.readNextFrame indeterminate st).1,
                     without_other_streams
                       (VideoDecoder.readNextFrame indeterminate st).2)).
  { unfold VideoDecoder.readNextFrame.
    change (VideoDecoder.endOfStream (without_other_streams st))
      with (VideoDecoder.endOfStream st).
    destruct (VideoDecoder.endOfStream st); [done |].
    apply (loop_skips_other_streams indeterminate Hidle). }
  cbn [VideoDecoder.read_calls]. rewrite Hcall.
  destruct (VideoDecoder.readNextFrame indeterminate st) as [r st1].
  cbn [fst snd]. destruct r as [v | code what]; [| done].
  rewrite IH. by destruct (VideoDecoder.read_calls indeterminate n st1).
Qed.

Lemma other_streams_do_not_matter_witness :
  let st := Inputs.opened AV_CODEC_ID_H264 0
              [Inputs.packet 1; mkAVPacket 1 50 (Inputs.picture 9);
               Inputs.packet 2] in
  let run := VideoDecoder.read_calls (false, -1) 3 st in
  VideoDecoder.read_calls (false, -1) 3 (without_other_streams st)
  = (run.1, without_other_streams run.2).
Proof.
  exact (other_streams_do_not_matter (false, -1) 3
           (Inputs.opened AV_CODEC_ID_H264 0
              [Inputs.packet 1; mkAVPacket 1 50 (Inputs.picture 9);
               Inputs.packet 2])
           delay_receive_idle).
Defined.

(** ** VideoDecoder: what a call tells about the end of the stream *)

Section EndOfStreamFacts.
Context {E : Type} `{DecodeEngine E}.
Variable indeterminate : bool * Z.
Local Abbreviation loop := (VideoDecoder.readNextFrame_loop indeterminate).

Lemma loop_end_of_stream (st : VideoDecoder.Impl) (inp : list demux_item)
    (eng : E) (lps : Z) (ldf : option AVFrame) :
  VideoDecoder.endOfStream st = false ->
  let run := loop st inp eng lps ldf in
  match run.1 with
  | Returned None => VideoDecoder.endOfStream run.2 = true
  | Returned (Some _) => True
  | Thrown _ _ => VideoDecoder.endOfStream run.2 = false
  end
  /\ exists consumed, inp = consumed ++ VideoDecoder.input run.2.
Proof.
  intros Heos. revert eng lps ldf.
  induction inp as [| item rest IH]; intros eng lps ldf run; subst run.
  - simpl. destruct (avcodec_receive_frame eng) as [[frame | | | code] eng1];
      simpl; try (split; [done | by exists []]).
    destruct (avcodec_send_packet None eng1) as [r2 eng2].
    destruct (avcodec_receive_frame eng2) as [[frame | | | code] eng3];
      simpl; (split; [done | by exists []]).
  - simpl. destruct (avcodec_receive_frame eng) as [[frame | | | code] eng1];
      simpl; try (split; [done | by exists []]).
    destruct item as [packet | code]; simpl;
      [| split; [done | by exists [Item_error code]]].
    destruct (negb _).
    + destruct (IH eng1 lps ldf) as [Hres [consumed Hin]].
      split; [done |]. exists (Item_packet packet :: consumed).
      simpl. by rewrite <- Hin.
    + destruct (avcodec_send_packet (Some packet) eng1) as [[| | code] eng2];
        simpl;
        try (destruct (IH eng2 (pkt_size packet) ldf) as [Hres [consumed Hin]];
             split; [done |]; exists (Item_packet packet :: consumed);
             simpl; by rewrite <- Hin).
      split; [done |]. by exists [Item_packet packet].
Qed.

End EndOfStreamFacts.

(** X30. VideoDecoder::readNextFrame / hasMoreFrames: a call that
    returns no frame leaves the stream finished: [hasMoreFrames] is
    false afterwards; a call that throws was made on an unfinished
    stream and leaves it unfinished, so that reading can go on; and a
    call only ever takes items off the front of the input. *)
Theorem no_frame_means_end_of_stream {E : Type} `{DecodeEngine E}
    (indeterminate : bool * Z) (st : @VideoDecoder.Impl E) :
  let run := VideoDecoder.readNextFrame indeterminate st in
  match run.1 with
  | Returned None => VideoDecoder.hasMoreFrames run.2 = false
  | Returned (Some _) => VideoDecoder.hasMoreFrames st = true
  | Thrown _ _ =>
      VideoDecoder.hasMoreFrames st = true
      /\ VideoDecoder.hasMoreFrames run.2 = true
  end
  /\ exists consumed,
       VideoDecoder.input st = consumed ++ VideoDecoder.input run.2.
Proof.
  intros run. subst run. unfold VideoDecoder.readNextFrame,
    VideoDecoder.hasMoreFrames.
  destruct (VideoDecoder.endOfStream st) eqn:Heos.
  - simpl. rewrite Heos. split; [done | by exists []].
  - destruct (loop_end_of_stream indeterminate st (VideoDecoder.input st)
                (VideoDecoder.codecCtx st) (VideoDecoder.lastPacketSize st)
                (VideoDecoder.lastDecodedFrame st) Heos) as [Hres Hin].
    split; [| done].
    destruct (VideoDecoder.readNextFrame_loop _ _ _ _ _ _).1
      as [[info |] | code what]; simpl; try done.
    + by rewrite Hres.
    + by rewrite Hres.
Qed.
